(** * Secondary indexing: mutation queue, snapshot ledger and KV sender

    A shallow embedding of
    - [secondary/indexer/mutation_queue_atomic.go] (the per-vbucket
      lock-free mutation queue and the snapshot info container), and
    - the KV sender (open / add / remove / close of mutation streams,
      restart of vbuckets, lookups in the cluster info cache),
    together with the properties stated about them. *)

From Stdlib Require Import ZArith Lia String.
From stdpp Require Import base option list numbers strings.

Local Open Scope Z_scope.

(** ** The per-vbucket mutation queue *)
Module MutationQueue.

(** Go's [error] value: [None] is [nil], [Some msg] an error whose
    [Error()] string is [msg]. *)
Definition error := option string.

Definition Seqno := Z.
Definition Vbucket := Z.

(** Modelled from the spec: the [Vbucket] integer type is declared outside
    the sources at hand; shard ids are non-negative integers, taken here
    32 bits wide, so that [Vbucket(q.numVbuckets)-1] wraps around when
    [numVbuckets] is 0. *)
Definition Vbucket_wrap (z : Z) : Z := z mod 2 ^ 32.

(** [atomic.AddInt64] on an [int64]: two's complement wrap-around. *)
Definition int64_wrap (z : Z) : Z := (z + 2 ^ 63) mod 2 ^ 64 - 2 ^ 63.

(** Modelled from the spec: [MutationKeys] is declared outside the
    sources at hand (the queue reads [m.meta.seqno] only); a mutation
    carries its shard id, its sequence number, a document key and the
    secondary-index keys it affects. *)
Record MutationMeta := {
  vbucket : Vbucket;
  seqno : Seqno
}.

Record MutationKeys := {
  meta : MutationMeta;
  docid : string;
  keys : list string
}.

(** Addresses of queue nodes in the Go heap; a [*node] is [option ptr],
    [None] being [nil]. *)
Definition ptr := nat.

Record node := {
  mutation : option MutationKeys;  (* *MutationKeys, None = nil *)
  next : option ptr                (* *node *)
}.

Record atomicMutationQueue := {
  heap : list node;          (* the nodes allocated so far, by address *)
  head : list (option ptr);  (* head pointer per vbucket queue *)
  tail : list (option ptr);  (* tail pointer per vbucket queue *)
  free : list (option ptr);  (* free pointer per vbucket queue *)
  numVbuckets : Z;           (* uint16 *)
  size : list Z              (* int64 per vbucket *)
}.

Definition set_heap (h : list node) (q : atomicMutationQueue) :=
  {| heap := h; head := head q; tail := tail q; free := free q;
     numVbuckets := numVbuckets q; size := size q |}.
Definition set_head (l : list (option ptr)) (q : atomicMutationQueue) :=
  {| heap := heap q; head := l; tail := tail q; free := free q;
     numVbuckets := numVbuckets q; size := size q |}.
Definition set_tail (l : list (option ptr)) (q : atomicMutationQueue) :=
  {| heap := heap q; head := head q; tail := l; free := free q;
     numVbuckets := numVbuckets q; size := size q |}.
Definition set_free (l : list (option ptr)) (q : atomicMutationQueue) :=
  {| heap := heap q; head := head q; tail := tail q; free := l;
     numVbuckets := numVbuckets q; size := size q |}.
Definition set_size (l : list Z) (q : atomicMutationQueue) :=
  {| heap := heap q; head := head q; tail := tail q; free := free q;
     numVbuckets := numVbuckets q; size := l |}.

(** *** Slices and the heap: reads and writes that panic

    [None] stands for a Go run-time panic (index out of range, nil
    pointer dereference). *)

(** [s[vb]] *)
Definition index {A} (s : list A) (vb : Vbucket) : option A :=
  if vb <? 0 then None else s !! Z.to_nat vb.

(** [s[vb] = x] *)
Definition assign {A} (s : list A) (vb : Vbucket) (x : A) : option (list A) :=
  if vb <? 0 then None
  else if decide (Z.to_nat vb < length s)%nat then Some (<[Z.to_nat vb := x]> s)
  else None.

(** [*p] for a [*node] *)
Definition deref (q : atomicMutationQueue) (p : option ptr) : option node :=
  a ← p; heap q !! a.

(** [*p = nd] *)
Definition store (p : option ptr) (nd : node) (q : atomicMutationQueue)
  : option atomicMutationQueue :=
  a ← p;
  if decide (a < length (heap q))%nat
  then Some (set_heap (<[a := nd]> (heap q)) q) else None.

(** [p.mutation = m] *)
Definition store_mutation (p : option ptr) (m : option MutationKeys)
    (q : atomicMutationQueue) : option atomicMutationQueue :=
  nd ← deref q p; store p {| mutation := m; next := next nd |} q.

(** [p.next = n] *)
Definition store_next (p n : option ptr)
    (q : atomicMutationQueue) : option atomicMutationQueue :=
  nd ← deref q p; store p {| mutation := mutation nd; next := n |} q.

(** [&node{}] *)
Definition new_node (q : atomicMutationQueue) : option ptr * atomicMutationQueue :=
  (Some (length (heap q)),
   set_heap (heap q ++ [{| mutation := None; next := None |}]) q).

(** *** NewAtomicMutationQueue *)

(** One round of [for x = 0; x < numVbuckets; x++ { ... }]. *)
Definition init_vbucket (x : Vbucket) (q : atomicMutationQueue)
  : option atomicMutationQueue :=
  let '(nd, q) := new_node q in   (* sentinel node for the queue *)
  h ← assign (head q) x nd;
  let q := set_head h q in
  t ← assign (tail q) x nd;
  let q := set_tail t q in
  f ← assign (free q) x nd;
  Some (set_free f q).

Fixpoint init_loop (x : Vbucket) (rounds : nat) (q : atomicMutationQueue)
  : option atomicMutationQueue :=
  match rounds with
  | O => Some q
  | S r => q' ← init_vbucket x q; init_loop (x + 1) r q'
  end.

Definition NewAtomicMutationQueue (numVbuckets : Z) : option atomicMutationQueue :=
  let n := Z.to_nat numVbuckets in
  init_loop 0 n
    {| heap := [];
       head := replicate n None;
       tail := replicate n None;
       free := replicate n None;
       size := replicate n 0;
       numVbuckets := numVbuckets |}.

(** *** Free list *)

(** popFreeList removes a node from freelist and returns to caller.
    if freelist is empty, it returns nil. *)
Definition popFreeList (vb : Vbucket) (q : atomicMutationQueue)
  : option (option ptr * error * atomicMutationQueue) :=
  f ← index (free q) vb;
  h ← index (head q) vb;
  if decide (f ≠ h) then
    let n := f in
    fn ← deref q f;
    fl ← assign (free q) vb (next fn);
    let q := set_free fl q in
    q ← store_mutation n None q;
    q ← store_next n None q;
    Some (n, None, q)
  else Some (None, Some "Free List Empty"%string, q).

(** allocNode tries to get node from freelist, otherwise allocates a new
    node and returns *)
Definition allocNode (vb : Vbucket) (q : atomicMutationQueue)
  : option (option ptr * atomicMutationQueue) :=
  '(n, err, q) ← popFreeList vb q;
  match err with
  | None => Some (n, q)
  | Some _ => Some (new_node q)
  end.

(** *** Enqueue *)

Definition Enqueue (mutation : option MutationKeys) (vb : Vbucket)
    (q : atomicMutationQueue) : option (error * atomicMutationQueue) :=
  if (vb <? 0) || (vb >? Vbucket_wrap (numVbuckets q - 1)) then
    Some (Some "vbucket out of range"%string, q)
  else
    (* create a new node *)
    '(n, q) ← allocNode vb q;
    q ← store_mutation n mutation q;
    q ← store_next n None q;
    (* point tail's next to new node *)
    tl ← index (tail q) vb;
    q ← store_next tl n q;
    (* update tail to new node *)
    tnd ← deref q tl;
    t ← assign (tail q) vb (next tnd);
    let q := set_tail t q in
    sz ← index (size q) vb;
    s ← assign (size q) vb (int64_wrap (sz + 1));
    Some (None, set_size s q).

(** *** DequeueSingleElement, PeekTail, PeekHead, GetSize *)

Definition DequeueSingleElement (vb : Vbucket) (q : atomicMutationQueue)
  : option (option MutationKeys * atomicMutationQueue) :=
  h ← index (head q) vb;
  t ← index (tail q) vb;
  if decide (h ≠ t) then  (* if queue is nonempty *)
    hd ← deref q h;
    (* copy the mutation pointer *)
    nx ← deref q (next hd);
    let m := mutation nx in
    (* move head to next *)
    hs ← assign (head q) vb (next hd);
    let q := set_head hs q in
    sz ← index (size q) vb;
    s ← assign (size q) vb (int64_wrap (sz + -1));
    Some (m, set_size s q)
  else Some (None, q).

Definition PeekTail (vb : Vbucket) (q : atomicMutationQueue)
  : option (option MutationKeys) :=
  h ← index (head q) vb;
  t ← index (tail q) vb;
  if decide (h ≠ t) then
    tl ← deref q t;
    Some (mutation tl)
  else Some None.

Definition PeekHead (vb : Vbucket) (q : atomicMutationQueue)
  : option (option MutationKeys) :=
  h ← index (head q) vb;
  t ← index (tail q) vb;
  if decide (h ≠ t) then
    hd ← deref q h;
    Some (mutation hd)
  else Some None.

Definition GetSize (vb : Vbucket) (q : atomicMutationQueue) : option Z :=
  index (size q) vb.

Definition GetNumVbuckets (q : atomicMutationQueue) : Z := numVbuckets q.

(** *** DequeueUptoSeqno

    The goroutine started by [DequeueUptoSeqno] wakes up on every ticker
    event, drains the queue and sends on [datach].  The model runs it for
    a given number of ticker events, the queue being left alone between
    them (no concurrent enqueue), and records what was sent on [datach]
    and whether the goroutine has closed the channel and returned. *)

Record drain := {
  dq : atomicMutationQueue;
  datach : list MutationKeys;  (* the mutations sent so far, oldest first *)
  dequeueCount : Z;            (* int *)
  closed : bool                (* ticker stopped, datach closed, returned *)
}.

(** What running a loop gives: a Go panic, the model's fuel used up, or
    the state reached. *)
Inductive outcome (A : Type) :=
  | Panic
  | OutOfFuel
  | Ret (a : A).
Arguments Panic {A}.
Arguments OutOfFuel {A}.
Arguments Ret {A} a.

(** [dequeueCount++], on a 64-bit [int]. *)
Definition bump (c : Z) : Z := int64_wrap (c + 1).

(** [atomic.LoadPointer(&q.head[vb]) != atomic.LoadPointer(&q.tail[vb])] *)
Definition nonempty (vb : Vbucket) (q : atomicMutationQueue) : option bool :=
  h ← index (head q) vb;
  t ← index (tail q) vb;
  Some (bool_decide (h ≠ t)).

(** The body of the inner loop. *)
Definition drain_body (vb : Vbucket) (sq : Seqno) (d : drain) : option drain :=
  let q := dq d in
  h ← index (head q) vb;
  hd ← deref q h;
  (* copy the mutation pointer *)
  nx ← deref q (next hd);
  m ← mutation nx;  (* m.meta.seqno dereferences m *)
  d ← (if sq >=? seqno (meta m) then
         (* move head to next *)
         hs ← assign (head q) vb (next hd);
         let q := set_head hs q in
         sz ← index (size q) vb;
         s ← assign (size q) vb (int64_wrap (sz + -1));
         (* send mutation to caller *)
         Some {| dq := set_size s q;
                 datach := datach d ++ [m];
                 dequeueCount := bump (dequeueCount d);
                 closed := closed d |}
       else Some d);
  (* once the seqno is reached, close the channel *)
  if sq <=? seqno (meta m) then
    Some {| dq := dq d; datach := datach d;
            dequeueCount := dequeueCount d; closed := true |}
  else Some d.

(** [for head != tail { ... }] *)
Fixpoint drain_loop (fuel : nat) (vb : Vbucket) (sq : Seqno) (d : drain)
  : outcome drain :=
  match fuel with
  | O => OutOfFuel
  | S fuel =>
      match nonempty vb (dq d) with
      | None => Panic
      | Some false => Ret d
      | Some true =>
          match drain_body vb sq d with
          | None => Panic
          | Some d' => if closed d' then Ret d' else drain_loop fuel vb sq d'
          end
      end
  end.

(** One ticker event. *)
Definition on_tick (fuel : nat) (vb : Vbucket) (sq : Seqno) (d : drain)
  : outcome drain :=
  match drain_loop fuel vb sq d with
  | Ret d' =>
      if closed d' then Ret d'
      else if dequeueCount d' =? 0 then
        Ret {| dq := dq d'; datach := datach d';
               dequeueCount := dequeueCount d'; closed := true |}
      else Ret d'
  | o => o
  end.

(** [for _ = range ticker.C { ... }], for [ticks] ticker events. *)
Fixpoint dequeueUptoSeqno (ticks fuel : nat) (vb : Vbucket) (sq : Seqno)
    (d : drain) : outcome drain :=
  match ticks with
  | O => Ret d
  | S ticks =>
      match on_tick fuel vb sq d with
      | Ret d' => if closed d' then Ret d' else dequeueUptoSeqno ticks fuel vb sq d'
      | o => o
      end
  end.

Definition DequeueUptoSeqno (ticks fuel : nat) (vb : Vbucket) (sq : Seqno)
    (q : atomicMutationQueue) : outcome drain :=
  dequeueUptoSeqno ticks fuel vb sq
    {| dq := q; datach := []; dequeueCount := 0; closed := false |}.

(** *** Running operations in sequence *)

(** [Enqueue] of each mutation in turn; stops at the first error. *)
Fixpoint enqueue_all (ms : list (option MutationKeys)) (vb : Vbucket)
    (q : atomicMutationQueue) : option (error * atomicMutationQueue) :=
  match ms with
  | [] => Some (None, q)
  | m :: ms =>
      '(err, q) ← Enqueue m vb q;
      match err with
      | None => enqueue_all ms vb q
      | Some _ => Some (err, q)
      end
  end.

(** [n] successive calls of [DequeueSingleElement], with what they return. *)
Fixpoint dequeue_n (n : nat) (vb : Vbucket) (q : atomicMutationQueue)
  : option (list (option MutationKeys) * atomicMutationQueue) :=
  match n with
  | O => Some ([], q)
  | S n =>
      '(m, q) ← DequeueSingleElement vb q;
      '(ms, q) ← dequeue_n n vb q;
      Some (m :: ms, q)
  end.

(** A call of the queue's interface: an enqueue or a dequeue on a shard. *)
Inductive call :=
  | CallEnqueue (vb : Vbucket) (m : option MutationKeys)
  | CallDequeue (vb : Vbucket).

Definition call_vbucket (c : call) : Vbucket :=
  match c with CallEnqueue vb _ => vb | CallDequeue vb => vb end.

Definition is_enqueue_on (vb : Vbucket) (c : call) : bool :=
  match c with CallEnqueue s _ => s =? vb | CallDequeue _ => false end.

(** The number of [Enqueue] calls on shard [vb]. *)
Definition enqueues (vb : Vbucket) (cs : list call) : Z :=
  Z.of_nat (length (List.filter (is_enqueue_on vb) cs)).

(** Runs the calls in order and counts the dequeues on shard [vb] that
    removed an element (those that found [head != tail]). *)
Fixpoint run_calls (cs : list call) (vb : Vbucket) (q : atomicMutationQueue)
  : option (Z * atomicMutationQueue) :=
  match cs with
  | [] => Some (0, q)
  | CallEnqueue s m :: cs =>
      '(_, q) ← Enqueue m s q;
      run_calls cs vb q
  | CallDequeue s :: cs =>
      ne ← nonempty s q;
      '(_, q) ← DequeueSingleElement s q;
      '(removed, q) ← run_calls cs vb q;
      Some ((if s =? vb then Z.b2z ne else 0) + removed, q)
  end.

(** Every call names a shard of a queue with [N] shards. *)
Definition valid_calls (N : Z) (cs : list call) : Prop :=
  Forall (λ c, 0 ≤ call_vbucket c < N) cs.

(** The queues that calls of [Enqueue], [DequeueSingleElement] and
    [DequeueUptoSeqno] can build from a new queue. *)
Inductive reachable : atomicMutationQueue → Prop :=
  | reachable_new n q :
      0 ≤ n < 2 ^ 16 → NewAtomicMutationQueue n = Some q → reachable q
  | reachable_enqueue q m vb err q' :
      reachable q → Enqueue m vb q = Some (err, q') → reachable q'
  | reachable_dequeue q vb m q' :
      reachable q → DequeueSingleElement vb q = Some (m, q') → reachable q'
  | reachable_drain q ticks fuel vb sq d :
      reachable q → DequeueUptoSeqno ticks fuel vb sq q = Ret d →
      reachable (dq d).

(** *** The shape of one shard's queue

    The nodes of shard [vb] form one chain through [next]: first the nodes
    [fl] of the free list, then the node [h] that [head] points to, then
    the nodes [lv] that hold the queued mutations, oldest first. *)

Definition linked (hp : list node) (c : list ptr) : Prop :=
  ∀ (i : nat) (p : ptr), c !! i = Some p → next <$> hp !! p = Some (c !! S i).

Definition holds (hp : list node) (lv : list (ptr * option MutationKeys)) : Prop :=
  ∀ (i : nat) (p : ptr) m, lv !! i = Some (p, m) → mutation <$> hp !! p = Some m.

Record shard (q : atomicMutationQueue) (vb : Vbucket)
    (fl : list ptr) (h : ptr) (lv : list (ptr * option MutationKeys)) : Prop := {
  shard_valid : 0 ≤ vb < numVbuckets q;
  shard_uint16 : numVbuckets q < 2 ^ 16;
  shard_nodup : NoDup (fl ++ h :: lv.*1);
  shard_free : index (free q) vb = Some (Some (hd h fl));
  shard_head : index (head q) vb = Some (Some h);
  shard_tail : index (tail q) vb = Some (Some (List.last (lv.*1) h));
  shard_linked : linked (heap q) (fl ++ h :: lv.*1);
  shard_holds : holds (heap q) lv;
  shard_size : index (size q) vb = Some (int64_wrap (Z.of_nat (length lv)))
}.

(** All shards: one shape per shard, chains of different shards share no
    node. *)
Definition shape : Type := list ptr * ptr * list (ptr * option MutationKeys).

Definition chain (s : shape) : list ptr := s.1.1 ++ s.1.2 :: s.2.*1.

Record well_formed (q : atomicMutationQueue) (shs : list shape) : Prop := {
  wf_shards : Z.of_nat (length shs) = numVbuckets q;
  wf_uint16 : numVbuckets q < 2 ^ 16;
  wf_head : length (head q) = length shs;
  wf_free : length (free q) = length shs;
  wf_shard : ∀ (i : nat) fl h lv,
    shs !! i = Some (fl, h, lv) → shard q (Z.of_nat i) fl h lv;
  wf_disjoint : ∀ (i j : nat) si sj (p : ptr),
    shs !! i = Some si → shs !! j = Some sj → i ≠ j →
    p ∈ chain si → p ∉ chain sj
}.

(** What a call on shard [vb] leaves alone: the other shards' slots and
    every node outside [c]. *)
Definition frame (q q' : atomicMutationQueue) (vb : Vbucket) (c : list ptr) : Prop :=
  numVbuckets q' = numVbuckets q ∧
  length (head q') = length (head q) ∧
  length (free q') = length (free q) ∧
  (∀ vb', vb' ≠ vb →
     index (head q') vb' = index (head q) vb' ∧
     index (tail q') vb' = index (tail q) vb' ∧
     index (free q') vb' = index (free q) vb' ∧
     index (size q') vb' = index (size q) vb') ∧
  (∀ (p : ptr) nd, heap q !! p = Some nd → p ∉ c → heap q' !! p = Some nd).

(** A queued mutation whose sequence number is below the watermark. *)
Definition below (sq : Seqno) (pm : ptr * option MutationKeys) : Prop :=
  ∃ m, pm.2 = Some m ∧ seqno (meta m) < sq.

Definition empty_node : node := {| mutation := None; next := None |}.

(** A mutation of shard 0, for the examples. *)
Definition mutation_at (sq : Seqno) (doc : string) : MutationKeys :=
  {| meta := {| vbucket := 0; seqno := sq |}; docid := doc; keys := [] |}.

(** The queue after [k] rounds of the loop of [NewAtomicMutationQueue]. *)
Definition fresh_queue (n : nat) (N : Z) (k : nat) : atomicMutationQueue :=
  {| heap := replicate k empty_node;
     head := (Some <$> seq 0 k) ++ replicate (n - k) None;
     tail := (Some <$> seq 0 k) ++ replicate (n - k) None;
     free := (Some <$> seq 0 k) ++ replicate (n - k) None;
     size := replicate n 0;
     numVbuckets := N |}.

End MutationQueue.

(** ** Timestamps of the indexer ([common.TsVbuuid]) *)
Module Common.

(** Modelled from the spec: [common.TsVbuuid] is declared outside the
    sources at hand; a timestamp is, per bucket and per shard, a sequence
    number, an epoch (vbuuid) and the bounds of a snapshot. *)
Record TsVbuuid := {
  Bucket : string;
  Seqnos : list Z;
  Vbuuids : list Z;
  Snapshots : list (Z * Z)
}.

End Common.

(** ** The snapshot info container *)
Module SnapshotLedger.

Definition error := option string.

(** The stability timestamp of a [TsVbuuid]: one sequence number per shard. *)
Definition StabilityTs := list Z.

(** Modelled from the spec: [getStabilityTSFromTsVbuuid] is declared
    outside the sources at hand; it keeps the sequence numbers of the
    timestamp. *)
Definition getStabilityTSFromTsVbuuid (ts : Common.TsVbuuid) : StabilityTs :=
  Common.Seqnos ts.

(** Modelled from the spec: the comparisons of timestamps are declared
    outside the sources at hand; two timestamps are compared for ordering
    elementwise (≥, >) and for equality. *)
Fixpoint GreaterThanEqual (ts ts1 : StabilityTs) : bool :=
  match ts, ts1 with
  | [], _ => true
  | t :: ts, t1 :: ts1 => (t1 <=? t) && GreaterThanEqual ts ts1
  | _ :: _, [] => false
  end.

Fixpoint GreaterThan (ts ts1 : StabilityTs) : bool :=
  match ts, ts1 with
  | [], _ => true
  | t :: ts, t1 :: ts1 => (t1 <? t) && GreaterThan ts ts1
  | _ :: _, [] => false
  end.

Fixpoint Equals (ts ts1 : StabilityTs) : bool :=
  match ts, ts1 with
  | [], [] => true
  | t :: ts, t1 :: ts1 => (t =? t1) && Equals ts ts1
  | _, _ => false
  end.

(** Modelled from the spec: the interface [SnapshotInfo] is declared
    outside the sources at hand; an entry is a timestamp with opaque
    metadata. *)
Record SnapshotInfo := {
  Timestamp : Common.TsVbuuid;
  info : string
}.

Module container_list.

(** Go's [container/list].

    A list is the sequence of its elements, front first.  An [*Element]
    is known by its identity [eid]; an element that has been removed
    belongs to no list any more: [Remove] clears its [next], [prev] and
    [list] fields, so that [Next()] of a removed element is [nil]. *)
Record Element := {
  eid : nat;
  Value : SnapshotInfo
}.

Record List := {
  elems : list Element;
  fresh : nat  (* the identity of the next element to be made *)
}.

Definition New : List := {| elems := []; fresh := 0 |}.

Definition Init (l : List) : List := {| elems := []; fresh := fresh l |}.

Definition PushBack (v : SnapshotInfo) (l : List) : List :=
  {| elems := elems l ++ [{| eid := fresh l; Value := v |}];
     fresh := S (fresh l) |}.

Definition PushFront (v : SnapshotInfo) (l : List) : List :=
  {| elems := {| eid := fresh l; Value := v |} :: elems l;
     fresh := S (fresh l) |}.

Definition Front (l : List) : option Element := head (elems l).

Definition Back (l : List) : option Element := last (elems l).

Definition Len (l : List) : nat := length (elems l).

Fixpoint next_of (id : nat) (es : list Element) : option Element :=
  match es with
  | [] => None
  | e :: es => if (eid e =? id)%nat then head es else next_of id es
  end.

(** [e.Next()], [l] being the list that [e] was taken from. *)
Definition Next (l : List) (e : Element) : option Element :=
  next_of (eid e) (elems l).

(** [l.Remove(e)] *)
Definition Remove (e : Element) (l : List) : List :=
  {| elems := List.filter (λ x, negb (eid x =? eid e)%nat) (elems l);
     fresh := fresh l |}.

End container_list.

(** *** snapshotInfoContainer *)

Record snapshotInfoContainer := {
  snapshotList : container_list.List
}.

Definition NewSnapshotInfoContainer (infos : list SnapshotInfo)
  : snapshotInfoContainer :=
  {| snapshotList := fold_left (λ l info, container_list.PushBack info l) infos container_list.New |}.

(** [List()]: the entries, front first. *)
Definition List (sc : snapshotInfoContainer) : list SnapshotInfo :=
  container_list.Value <$> container_list.elems (snapshotList sc).

(** Add adds snapshot to container *)
Definition Add (s : SnapshotInfo) (sc : snapshotInfoContainer)
  : snapshotInfoContainer :=
  {| snapshotList := container_list.PushFront s (snapshotList sc) |}.

(** RemoveOldest removes the oldest snapshot from container.
    Return any error that happened. *)
Definition RemoveOldest (sc : snapshotInfoContainer)
  : error * snapshotInfoContainer :=
  let e := container_list.Back (snapshotList sc) in
  let sc :=
    match e with
    | Some e => {| snapshotList := container_list.Remove e (snapshotList sc) |}
    | None => sc
    end in
  (None, sc).

(** [for e := sc.snapshotList.Front(); e != nil; e = e.Next() { ... }] of
    RemoveRecentThanTS, from the element [e] on. *)
Fixpoint RemoveRecentThanTS_from (fuel : nat) (ts : StabilityTs)
    (e : option container_list.Element) (l : container_list.List)
  : container_list.List :=
  match fuel, e with
  | S fuel, Some e =>
      let snapshot := container_list.Value e in
      let snapTsVbuuid := Timestamp snapshot in
      let snapTs := getStabilityTSFromTsVbuuid snapTsVbuuid in
      let l := if GreaterThan snapTs ts then container_list.Remove e l else l in
      RemoveRecentThanTS_from fuel ts (container_list.Next l e) l
  | _, _ => l
  end.

(** RemoveRecentThanTS discards all the snapshots from container
    which are more recent than the given timestamp. *)
Definition RemoveRecentThanTS (tsVbuuid : Common.TsVbuuid)
    (sc : snapshotInfoContainer) : error * snapshotInfoContainer :=
  let ts := getStabilityTSFromTsVbuuid tsVbuuid in
  let l := snapshotList sc in
  (None, {| snapshotList := RemoveRecentThanTS_from (S (container_list.Len l)) ts (container_list.Front l) l |}).

(** RemoveAll discards all the snapshosts from container. *)
Definition RemoveAll (sc : snapshotInfoContainer)
  : error * snapshotInfoContainer :=
  (None, {| snapshotList := container_list.Init (snapshotList sc) |}).

Definition Len (sc : snapshotInfoContainer) : nat :=
  container_list.Len (snapshotList sc).

(** GetLatestSnapshot returns the latest snapshot from container or nil
    in case list is empty *)
Definition GetLatest (sc : snapshotInfoContainer) : option SnapshotInfo :=
  match container_list.Front (snapshotList sc) with
  | None => None
  | Some e => Some (container_list.Value e)
  end.

Fixpoint GetEqualToTS_from (fuel : nat) (ts : StabilityTs)
    (e : option container_list.Element) (l : container_list.List) : option SnapshotInfo :=
  match fuel, e with
  | S fuel, Some e =>
      let snapshot := container_list.Value e in
      let snapTsVbuuid := Timestamp snapshot in
      let snapTs := getStabilityTSFromTsVbuuid snapTsVbuuid in
      if Equals ts snapTs then Some snapshot
      else GetEqualToTS_from fuel ts (container_list.Next l e) l
  | _, _ => None
  end.

(** GetSnapshotEqualToTS returns the snapshot from container matching the
    given timestamp or nil if its not able to find any match *)
Definition GetEqualToTS (tsVbuuid : Common.TsVbuuid)
    (sc : snapshotInfoContainer) : option SnapshotInfo :=
  let ts := getStabilityTSFromTsVbuuid tsVbuuid in
  let l := snapshotList sc in
  GetEqualToTS_from (S (container_list.Len l)) ts (container_list.Front l) l.

(** GetSnapshotOlderThanTS returns a snapshot which is older than the
    given TS or atleast equal. Returns nil if its not able to find any
    match.

    The body of its loop returns in one branch and breaks in the other:
    [e = e.Next()] is never reached. *)
Definition GetOlderThanTS (tsVbuuid : Common.TsVbuuid)
    (sc : snapshotInfoContainer) : option SnapshotInfo :=
  let ts := getStabilityTSFromTsVbuuid tsVbuuid in
  match container_list.Front (snapshotList sc) with
  | Some e =>
      let snapshot := container_list.Value e in
      let snapTsVbuuid := Timestamp snapshot in
      let snapTs := getStabilityTSFromTsVbuuid snapTsVbuuid in
      if GreaterThanEqual ts snapTs then Some snapshot  (* return snapshot *)
      else None                                         (* break *)
  | None => None
  end.

(** The containers that the interface can build. *)
Inductive built : snapshotInfoContainer → Prop :=
  | built_new infos : built (NewSnapshotInfoContainer infos)
  | built_add s sc : built sc → built (Add s sc)
  | built_remove_oldest sc : built sc → built (RemoveOldest sc).2
  | built_remove_recent ts sc : built sc → built (RemoveRecentThanTS ts sc).2
  | built_remove_all sc : built sc → built (RemoveAll sc).2.

(** Every element has an identity of its own, older than [fresh]. *)
Definition distinct (l : container_list.List) : Prop :=
  NoDup (container_list.eid <$> container_list.elems l) ∧
  Forall (λ e, (container_list.eid e < container_list.fresh l)%nat)
    (container_list.elems l).

(** Timestamps and entries for the examples: three snapshots of a bucket
    with two shards, T3 > T2 > T1 on every shard. *)
Definition ts_at (sq : Z) : Common.TsVbuuid :=
  {| Common.Bucket := "default"; Common.Seqnos := [sq; sq];
     Common.Vbuuids := [7; 7]; Common.Snapshots := [(sq, sq); (sq, sq)] |}.

Definition T1 := ts_at 10.
Definition T2 := ts_at 20.
Definition T3 := ts_at 30.

Definition snapshot_at (ts : Common.TsVbuuid) : SnapshotInfo :=
  {| Timestamp := ts; info := "" |}.

(** The ledger of T3, T2, T1, newest first. *)
Definition ledger321 : snapshotInfoContainer :=
  NewSnapshotInfoContainer [snapshot_at T3; snapshot_at T2; snapshot_at T1].

End SnapshotLedger.

(** ** The KV sender *)
Module KVSender.

Local Open Scope string_scope.

(** Go's [error]: [None] is [nil], [Some msg] an error whose [Error()]
    string is [msg]. *)
Definition error := option string.

Definition MAX_KV_REQUEST_RETRY : nat := 3.
Definition BACKOFF_FACTOR : nat := 2.

(** *** Timestamps on the wire ([protobuf.TsVbuuid]) *)

Record Snapshot := {
  Start : option Z;
  End_ : option Z
}.

Record TsVbuuid := {
  Bucket : option string;
  Vbnos : list Z;
  Seqnos : list Z;
  Vbuuids : list Z;
  Snapshots : list (option Snapshot)
}.

Definition GetBucket (m : option TsVbuuid) : string :=
  match m with
  | Some m => match Bucket m with Some b => b | None => "" end
  | None => ""
  end.

(** The methods of [protobuf.TsVbuuid] that the sender calls and that the
    generated code does not contain are declared outside the sources at
    hand: they are parameters of the model.  [Clone], [Union] and
    [ToTsVbuuid] give a timestamp for every timestamp. *)
Class TsVbuuidMethods := {
  IsEmpty : TsVbuuid → bool;
  Clone : TsVbuuid → TsVbuuid;
  Union : TsVbuuid → TsVbuuid → TsVbuuid;
  Len : TsVbuuid → Z;
  ToTsVbuuid : TsVbuuid → Z → Common.TsVbuuid
}.

(** Modelled from the spec: [protobuf.TopicResponse] is declared outside
    the sources at hand; a producer answers a topic request with the
    timestamps that are active and those to roll back to. *)
Record TopicResponse := {
  GetActiveTimestamps : list (option TsVbuuid);
  GetRollbackTimestamps : list (option TsVbuuid)
}.

(** *** Messages to the supervisor *)

Definition StreamId := nat.

Inductive errCode := ERROR_KVSENDER_STREAM_REQUEST_ERROR.
Inductive errSeverity := FATAL.

Record Error := {
  code : errCode;
  severity : errSeverity;
  cause : string
}.

Inductive Message :=
  | MsgSuccess
  | MsgError (err : Error)
  | MsgRollback (streamId : StreamId) (bucket : string)
      (rollbackTs : Common.TsVbuuid)
  | MsgKVStreamRepair (streamId : StreamId) (bucket : string).

Definition fatal (cause : string) : Message :=
  MsgError {| code := ERROR_KVSENDER_STREAM_REQUEST_ERROR;
              severity := FATAL; cause := cause |}.

Record IndexDefn := {
  DefnBucket : string  (* Defn.Bucket *)
}.

Record IndexInst := {
  InstId : Z;
  Defn : IndexDefn
}.

(** *** The cluster and the projectors

    What the calls that leave the sender answer: the cluster info cache,
    the projector of each address at each attempt, and whether a stop
    signal is waiting on [stopCh] when a request is about to be made. *)

Inductive result (A : Type) :=
  | Failed (err : string)
  | Done (a : A).
Arguments Failed {A} err.
Arguments Done {A} a.

Record cluster := {
  getAllVbucketsInCluster : string → result (list Z);
  makeRestartTsForVbs :
    string → option Common.TsVbuuid → list Z → result TsVbuuid;
  getAllProjectorAddrs : result (list string);
  numVbuckets : Z;  (* k.config["numVbuckets"].Int() *)
  stopped : nat → string → bool;
  sendMutationTopicRequest : nat → string → result TopicResponse;
  sendAddInstancesRequest : nat → string → error;
  sendDelInstancesRequest : nat → string → error;
  sendDelBucketsRequest : nat → string → error;
  sendShutdownTopic : nat → string → error
}.

(** Modelled from the spec: [projClient.ErrorTopicMissing] is declared
    outside the sources at hand; it is the distinguished error by which a
    producer signals that the topic is missing. *)
Definition ErrorTopicMissing : string := "projector.topicMissing".

(** [ret.Error() == projClient.ErrorTopicMissing.Error()] *)
Definition isTopicMissing (ret : string) : bool :=
  String.eqb ret ErrorTopicMissing.

(** [execWithStopCh(fn, stopCh)]: [fn] is not called when a stop signal
    is waiting. *)
Definition execWithStopCh {V : Type} (fn : V → V) (stop : bool) (s : V) : V :=
  if stop then s else fn s.

(** *** RetryHelper *)

Section RetryHelper.

Context {V : Type}.

(** The error that [Run] hands to attempt [r], the attempt before (if
    any) having returned [lastErr]. *)
Variable handoff : nat → error → error.

(** The function to retry: it is given the attempt and an error, and
    works on the variables [V] of the closure. *)
Variable fn : nat → error → V → error * V.

(** The attempts made from attempt [r] on, each with the error handed
    in and the error returned, and the closure's variables at the end. *)
Fixpoint attempts (budget r : nat) (lastErr : error) (s : V)
  : list (error * error) * V :=
  match budget with
  | O => ([], s)
  | S budget =>
      let given := handoff r lastErr in
      let '(err, s) := fn r given s in
      match err with
      | None => ([(given, None)], s)
      | Some _ =>
          let '(log, s) := attempts budget (S r) err s in
          ((given, err) :: log, s)
      end
  end.

(** Modelled from the spec: [common.RetryHelper] is declared outside
    the sources at hand.  "An operation function is retried up to
    MAX_KV_REQUEST_RETRY (3) times [...]; each attempt [...] returns
    either nil (success), a signal that rollback occurred (never retried
    further), or an error (retried unless the attempt budget is
    exhausted, in which case the final error is surfaced)."  The error
    that [Run] passes to the function is not described: it is the
    parameter [handoff].  The pauses between attempts are left out.

    [Run] gives the error of the last attempt, the attempts made and
    the closure's variables. *)
Definition Run (maxRetries : nat) (s : V)
  : error * list (error * error) * V :=
  let '(log, s) := attempts maxRetries 0 None s in
  (from_option snd None (last log), log, s).

End RetryHelper.

(** What an operation of the sender gives: the message sent on [respCh]
    and the attempts of the retry helper, if it ran. *)
Record outcome := {
  response : Message;
  rounds : list (error * error)
}.

Section Sender.

Context `{TsVbuuidMethods}.
Variable handoff : nat → error → error.
Variable k : cluster.

(** *** openMutationStream *)

(** The body of the loop shared by updateActiveTsFromResponse and
    updateRollbackTsFromResponse. *)
Definition updateTsStep (bucket : string) (acc ts : option TsVbuuid)
  : option TsVbuuid :=
  match ts with
  | Some t =>
      if negb (IsEmpty t) && String.eqb (GetBucket (Some t)) bucket then
        match acc with
        | None => Some (Clone t)
        | Some a => Some (Union a t)
        end
      else acc
  | None => acc
  end.

Definition updateTs (bucket : string) (acc : option TsVbuuid)
    (tsList : list (option TsVbuuid)) : option TsVbuuid :=
  fold_left (updateTsStep bucket) tsList acc.

Definition updateActiveTsFromResponse (bucket : string)
    (activeTs : option TsVbuuid) (res : TopicResponse) : option TsVbuuid :=
  updateTs bucket activeTs (GetActiveTimestamps res).

Definition updateRollbackTsFromResponse (bucket : string)
    (rollbackTs : option TsVbuuid) (res : TopicResponse) : option TsVbuuid :=
  updateTs bucket rollbackTs (GetRollbackTimestamps res).

(** The variables that the closure [fn] of openMutationStream shares
    with its caller, and its own [err]. *)
Record openVars := {
  rollbackTs : option TsVbuuid;
  activeTs : option TsVbuuid
}.

(** One round of [for _, addr := range addrs { ... }]. *)
Definition openRequest (bucket : string) (r : nat) (addr : string)
    (s : error * openVars) : error * openVars :=
  execWithStopCh
    (λ '(err, v),
       match sendMutationTopicRequest k r addr with
       | Failed ret => (Some ret, v)  (* for all errors, retry *)
       | Done res =>
           (err,
            {| activeTs := updateActiveTsFromResponse bucket (activeTs v) res;
               rollbackTs :=
                 updateRollbackTsFromResponse bucket (rollbackTs v) res |})
       end)
    (stopped k r addr) s.

Definition openFn (bucket : string) (vbnos : list Z) (addrs : list string)
    (r : nat) (err : error) (v : openVars) : error * openVars :=
  let '(err, v) :=
    fold_left (λ s addr, openRequest bucket r addr s) addrs (err, v) in
  match rollbackTs v with
  | Some _ => (None, v)  (* no retry required for rollback *)
  | None =>
      match err with
      | Some _ => (err, v)  (* retry for any error *)
      | None =>
          (* check if we have received activeTs for all vbuckets *)
          let retry :=
            match activeTs v with
            | None => true
            | Some a => negb (Len a =? Z.of_nat (length vbnos))%Z
            end in
          if retry then (Some "ErrPartialVbStart", v) else (None, v)
      end
  end.

(** The payload of the requests ([topic], [restartTsList] and
    [protoInstList], the latter built by [convertIndexListToProto]) is the
    same for every request of a call: the answers of the projectors depend
    here on the attempt and the address only. *)
Definition openMutationStream (streamId : StreamId)
    (indexInstList : list IndexInst) (restartTs : option Common.TsVbuuid)
  : outcome :=
  match indexInstList with
  | [] => {| response := MsgSuccess; rounds := [] |}
  | inst :: _ =>
      let bucket := DefnBucket (Defn inst) in
      match getAllVbucketsInCluster k bucket with
      | Failed err => {| response := fatal err; rounds := [] |}
      | Done vbnos =>
          match makeRestartTsForVbs k bucket restartTs vbnos with
          | Failed err => {| response := fatal err; rounds := [] |}
          | Done restartTsList =>
              match getAllProjectorAddrs k with
              | Failed err => {| response := fatal err; rounds := [] |}
              | Done addrs =>
                  let '(err, log, v) :=
                    Run handoff (openFn bucket vbnos addrs)
                      MAX_KV_REQUEST_RETRY
                      {| rollbackTs := None; activeTs := None |} in
                  {| response :=
                       match rollbackTs v with
                       | Some ts =>
                           (* convert from protobuf to native format *)
                           MsgRollback streamId bucket
                             (ToTsVbuuid ts (numVbuckets k))
                       | None =>
                           match err with
                           | Some e => fatal e
                           | None => MsgSuccess
                           end
                       end;
                     rounds := log |}
              end
          end
      end
  end.

(** *** Adding and removing *)

(** The closure of addIndexForExistingBucket: every error counts. *)
Definition addFn (addrs : list string) (r : nat) (err : error) (u : unit)
  : error * unit :=
  (fold_left
     (λ err addr,
        execWithStopCh
          (λ err,
             match sendAddInstancesRequest k r addr with
             | Some ret => Some ret
             | None => err
             end)
          (stopped k r addr) err)
     addrs err, u).

(** The closure shared by deleteIndexesFromStream,
    deleteBucketsFromStream and closeMutationStream, [send] being the
    request it makes: a missing topic counts as success. *)
Definition removeFn (send : nat → string → error) (addrs : list string)
    (r : nat) (err : error) (u : unit) : error * unit :=
  (fold_left
     (λ err addr,
        execWithStopCh
          (λ err,
             match send r addr with
             | Some ret => if isTopicMissing ret then err else Some ret
             | None => err
             end)
          (stopped k r addr) err)
     addrs err, u).

(** What the four operations do around their closure. *)
Definition fanOut (fn : list string → nat → error → unit → error * unit)
  : outcome :=
  match getAllProjectorAddrs k with
  | Failed err => {| response := fatal err; rounds := [] |}
  | Done addrs =>
      let '(err, log, _) := Run handoff (fn addrs) MAX_KV_REQUEST_RETRY tt in
      {| response := match err with Some e => fatal e | None => MsgSuccess end;
         rounds := log |}
  end.

Definition addIndexForExistingBucket (streamId : StreamId)
    (indexInstList : list IndexInst) : outcome :=
  fanOut addFn.

Definition deleteIndexesFromStream (streamId : StreamId)
    (indexInstList : list IndexInst) : outcome :=
  fanOut (removeFn (sendDelInstancesRequest k)).

Definition deleteBucketsFromStream (streamId : StreamId)
    (buckets : list string) : outcome :=
  fanOut (removeFn (sendDelBucketsRequest k)).

Definition closeMutationStream (streamId : StreamId) : outcome :=
  fanOut (removeFn (sendShutdownTopic k)).

(** A producer's answer that adds to the rollback timestamp of [bucket]. *)
Definition rollsBack (bucket : string) (res : TopicResponse) : Prop :=
  ∃ ts, Some ts ∈ GetRollbackTimestamps res ∧
        IsEmpty ts = false ∧ GetBucket (Some ts) = bucket.

(** A request of attempt [r] that is made and answered with [res]. *)
Definition answered (addrs : list string) (r : nat) (res : TopicResponse)
  : Prop :=
  ∃ addr, addr ∈ addrs ∧ stopped k r addr = false ∧
          sendMutationTopicRequest k r addr = Done res.

(** What the request to [addr] in attempt [r] adds to the rollback
    timestamp [acc]. *)
Definition rollStep (bucket : string) (r : nat) (acc : option TsVbuuid)
    (addr : string) : option TsVbuuid :=
  if stopped k r addr then acc
  else match sendMutationTopicRequest k r addr with
       | Failed _ => acc
       | Done res => updateRollbackTsFromResponse bucket acc res
       end.

(** The rollback timestamps that the answers of attempt [r] add up to. *)
Definition unionedRollback (bucket : string) (addrs : list string) (r : nat)
  : option TsVbuuid :=
  fold_left (rollStep bucket r) addrs None.

(** In attempt [r] no request fails but with a missing topic. *)
Definition onlyTopicMissing (send : nat → string → error)
    (addrs : list string) (r : nat) : Prop :=
  ∀ addr ret, addr ∈ addrs → stopped k r addr = false →
              send r addr = Some ret → isTopicMissing ret = true.




End Sender.

(** A simple instance of the timestamp methods, for the examples. *)
Definition plainMethods : TsVbuuidMethods :=
  {| IsEmpty := λ ts, match Vbnos ts with [] => true | _ => false end;
     Clone := λ ts, ts;
     Union := λ a b,
       {| Bucket := Bucket a; Vbnos := Vbnos a ++ Vbnos b;
          Seqnos := Seqnos a ++ Seqnos b; Vbuuids := Vbuuids a ++ Vbuuids b;
          Snapshots := Snapshots a ++ Snapshots b |};
     Len := λ ts, Z.of_nat (length (Vbnos ts));
     ToTsVbuuid := λ ts _,
       {| Common.Bucket := GetBucket (Some ts); Common.Seqnos := Seqnos ts;
          Common.Vbuuids := Vbuuids ts; Common.Snapshots := [] |} |}.

(** A cluster for the examples: two projectors; to a topic request the
    first answers that both shards are active, the second that shard 0
    must roll back; every other request fails with a missing topic. *)
Definition tsOf (vbnos seqnos : list Z) : TsVbuuid :=
  {| Bucket := Some "default"; Vbnos := vbnos; Seqnos := seqnos;
     Vbuuids := (λ _, 7%Z) <$> vbnos; Snapshots := (λ _, None) <$> vbnos |}.

Definition exampleCluster : cluster :=
  {| getAllVbucketsInCluster := λ _, Done [0; 1]%Z;
     makeRestartTsForVbs := λ _ _ _, Done (tsOf [0; 1] [0; 0])%Z;
     getAllProjectorAddrs := Done ["a"; "b"];
     numVbuckets := 2;
     stopped := λ _ _, false;
     sendMutationTopicRequest := λ _ addr,
       if String.eqb addr "a" then
         Done {| GetActiveTimestamps := [Some (tsOf [0; 1] [0; 0])%Z];
                 GetRollbackTimestamps := [] |}
       else
         Done {| GetActiveTimestamps := [];
                 GetRollbackTimestamps := [Some (tsOf [0] [5])%Z] |};
     sendAddInstancesRequest := λ _ _, Some ErrorTopicMissing;
     sendDelInstancesRequest := λ _ _, Some ErrorTopicMissing;
     sendDelBucketsRequest := λ _ _, Some ErrorTopicMissing;
     sendShutdownTopic := λ _ _, Some ErrorTopicMissing |}.

(** The same projectors when they are unreachable during the first
    attempt: the removal requests of attempt 0 fail with another error,
    those of the later attempts with a missing topic. *)
Definition flakyCluster : cluster :=
  let send := λ (r : nat) (_ : string),
    match r with
    | O => Some "connection refused"
    | S _ => Some ErrorTopicMissing
    end in
  {| getAllVbucketsInCluster := getAllVbucketsInCluster exampleCluster;
     makeRestartTsForVbs := makeRestartTsForVbs exampleCluster;
     getAllProjectorAddrs := Done ["a"; "b"];
     numVbuckets := 2;
     stopped := λ _ _, false;
     sendMutationTopicRequest := sendMutationTopicRequest exampleCluster;
     sendAddInstancesRequest := send;
     sendDelInstancesRequest := send;
     sendDelBucketsRequest := send;
     sendShutdownTopic := send |}.

Definition exampleIndex : IndexInst :=
  {| InstId := 1; Defn := {| DefnBucket := "default" |} |}.

(** A retry helper that hands each attempt the error of the one before. *)
Definition lastError (r : nat) (lastErr : error) : error := lastErr.

End KVSender.

(** ** The mutation queue: streaming dequeue *)
Module MutationQueueStream.
Import MutationQueue.

(** [dequeue]: keep dequeuing till list is empty.  [datach] holds the
    mutations sent so far, oldest first. *)
Fixpoint dequeue (fuel : nat) (vb : Vbucket) (q : atomicMutationQueue)
    (datach : list MutationKeys)
  : outcome (atomicMutationQueue * list MutationKeys) :=
  match fuel with
  | O => OutOfFuel
  | S fuel =>
      match DequeueSingleElement vb q with
      | None => Panic
      | Some (None, q) => Ret (q, datach)  (* if m == nil { return } *)
      | Some (Some m, q) =>
          (* send mutation to caller *)
          dequeue fuel vb q (datach ++ [m])
      end
  end.

(** The case of the [select] of [Dequeue]'s goroutine that fires. *)
Inductive event :=
  | Tick   (* <-ticker.C *)
  | Stop.  (* <-stopch *)

#[global] Instance event_eq_dec : EqDecision event.
Proof. solve_decision. Defined.

Record feed := {
  fq : atomicMutationQueue;
  fdatach : list MutationKeys;  (* the mutations sent so far, oldest first *)
  fclosed : bool                (* ticker stopped, datach closed, returned *)
}.

(** [for { select { ... } }], for the events [evs]. *)
Fixpoint Dequeue_loop (evs : list event) (fuel : nat) (vb : Vbucket) (f : feed)
  : outcome feed :=
  match evs with
  | [] => Ret f
  | Tick :: evs =>
      match dequeue fuel vb (fq f) (fdatach f) with
      | Ret (q, out) =>
          Dequeue_loop evs fuel vb
            {| fq := q; fdatach := out; fclosed := fclosed f |}
      | Panic => Panic
      | OutOfFuel => OutOfFuel
      end
  | Stop :: _ =>
      Ret {| fq := fq f; fdatach := fdatach f; fclosed := true |}
  end.

(** Dequeue returns a channel on which it will return mutation reference
    for specified vbucket; the goroutine it starts is run for the events
    [evs], the queue being left alone between them. *)
Definition Dequeue (evs : list event) (fuel : nat) (vb : Vbucket)
    (q : atomicMutationQueue) : outcome feed :=
  Dequeue_loop evs fuel vb {| fq := q; fdatach := []; fclosed := false |}.

(** The per-shard slices of a queue have one length. *)
Definition slices (q : atomicMutationQueue) : Prop :=
  length (tail q) = length (head q) ∧ length (size q) = length (head q).

(** A call on shard [vb] that takes the queue from [q] to [q']. *)
Inductive call_on (vb : Vbucket) (q q' : atomicMutationQueue) : Prop :=
  | on_enqueue m err : Enqueue m vb q = Some (err, q') → call_on vb q q'
  | on_dequeue m : DequeueSingleElement vb q = Some (m, q') → call_on vb q q'
  | on_drain ticks fuel sq d :
      DequeueUptoSeqno ticks fuel vb sq q = Ret d → q' = dq d → call_on vb q q'.

(** What the interface shows of shard [vb] is the same in [q] and [q']. *)
Definition same_shard (vb : Vbucket) (q q' : atomicMutationQueue) : Prop :=
  GetSize vb q' = GetSize vb q ∧
  PeekHead vb q' = PeekHead vb q ∧
  PeekTail vb q' = PeekTail vb q ∧
  ∀ n, fst <$> dequeue_n n vb q' = fst <$> dequeue_n n vb q.

(** Runs the calls in order and collects what the dequeues on shard [vb]
    that removed an element (those that found [head != tail]) have
    returned. *)
Fixpoint run_trace (cs : list call) (vb : Vbucket) (q : atomicMutationQueue)
  : option (list (option MutationKeys) * atomicMutationQueue) :=
  match cs with
  | [] => Some ([], q)
  | CallEnqueue s m :: cs =>
      '(_, q) ← Enqueue m s q;
      run_trace cs vb q
  | CallDequeue s :: cs =>
      ne ← nonempty s q;
      '(m, q) ← DequeueSingleElement s q;
      '(ms, q) ← run_trace cs vb q;
      Some ((if (s =? vb) && ne then [m] else []) ++ ms, q)
  end.

(** The mutations that the calls enqueue on shard [vb], in order. *)
Fixpoint enqueued (vb : Vbucket) (cs : list call) : list (option MutationKeys) :=
  match cs with
  | [] => []
  | CallEnqueue s m :: cs => (if s =? vb then [m] else []) ++ enqueued vb cs
  | CallDequeue _ :: cs => enqueued vb cs
  end.

(** A queue of one shard that holds the mutations a and b, for the
    examples. *)
Definition queue_ab : atomicMutationQueue :=
  from_option snd (fresh_queue 1 1 1)
    (enqueue_all [Some (mutation_at 1 "a"); Some (mutation_at 2 "b")] 0
       (fresh_queue 1 1 1)).

End MutationQueueStream.

(** ** The snapshot info container: List *)
Module SnapshotTraversal.
Import SnapshotLedger.

(** [for e := sc.snapshotList.Front(); e != nil; e = e.Next() { ... }] of
    List, from the element [e] on; [infos] is the slice built so far. *)
Fixpoint List_from (fuel : nat) (e : option container_list.Element)
    (l : container_list.List) (infos : list SnapshotInfo) : list SnapshotInfo :=
  match fuel, e with
  | S fuel, Some e =>
      let info := container_list.Value e in
      List_from fuel (container_list.Next l e) l (infos ++ [info])
  | _, _ => infos
  end.

Definition List (sc : snapshotInfoContainer) : list SnapshotInfo :=
  let l := snapshotList sc in
  List_from (S (container_list.Len l)) (container_list.Front l) l [].

(** The stability timestamp of an entry. *)
Definition stability (s : SnapshotInfo) : StabilityTs :=
  getStabilityTSFromTsVbuuid (Timestamp s).

(** [l] without the first of its elements that [p] holds of. *)
Fixpoint without_first {A} (p : A → bool) (l : list A) : list A :=
  match l with
  | [] => []
  | x :: l => if p x then l else x :: without_first p l
  end.

End SnapshotTraversal.

(** ** The KV sender: the cluster info cache, failover logs, restart *)
Module KVSenderCluster.
Import KVSender.
Local Open Scope string_scope.

(** *** The cluster info cache

    [c.ClusterInfoCache] is declared outside the sources at hand: what
    its methods answer once [Fetch] has filled the cache (the lock is held
    from [Fetch] to the end of a lookup) is a parameter of the model. *)

Definition NodeId := Z.

Record ClusterInfoCache := {
  Fetch : error;
  GetNodesByBucket : string → result (list NodeId);
  GetNodesByServiceType : string → list NodeId;
  GetVBuckets : NodeId → string → result (list Z);  (* []uint32 *)
  GetServiceAddress : NodeId → string → result string
}.

(** [for _, nid := range nodes { ... }] of getAllVbucketsInCluster. *)
Fixpoint vbuckets_of_nodes (cinfo : ClusterInfoCache) (bucket : string)
    (nodes : list NodeId) (vbs : list Z) : result (list Z) :=
  match nodes with
  | [] => Done vbs
  | nid :: nodes =>
      (* get the list of vbnos for this kv *)
      match GetVBuckets cinfo nid bucket with
      | Failed err => Failed err
      | Done vbnos => vbuckets_of_nodes cinfo bucket nodes (vbs ++ vbnos)%list
      end
  end.

Definition getAllVbucketsInCluster (cinfo : ClusterInfoCache) (bucket : string)
  : result (list Z) :=
  match Fetch cinfo with
  | Some err => Failed err
  | None =>
      (* get all kv nodes *)
      match GetNodesByBucket cinfo bucket with
      | Failed err => Failed err
      | Done nodes => vbuckets_of_nodes cinfo bucket nodes []
      end
  end.

(** [for _, nid := range nodes { ... }] of getAllProjectorAddrs. *)
Fixpoint addrs_of_nodes (cinfo : ClusterInfoCache) (nodes : list NodeId)
    (addrList : list string) : result (list string) :=
  match nodes with
  | [] => Done addrList
  | nid :: nodes =>
      match GetServiceAddress cinfo nid "projector" with
      | Failed err => Failed err
      | Done addr => addrs_of_nodes cinfo nodes (addrList ++ [addr])%list
      end
  end.

Definition getAllProjectorAddrs (cinfo : ClusterInfoCache) : result (list string) :=
  match Fetch cinfo with
  | Some err => Failed err
  | None => addrs_of_nodes cinfo (GetNodesByServiceType cinfo "projector") []
  end.

(** The two inner loops of getProjAddrsForVbuckets: is one of [vbs] one
    of [vbnos]?  ([vb == uint32(vbc)] widens a uint16.) *)
Definition found (vbs vbnos : list Z) : bool :=
  existsb (λ vb, existsb (λ vbc, vb =? vbc)%Z vbnos) vbs.

(** [for _, n := range nodes { ... }] of getProjAddrsForVbuckets. *)
Fixpoint proj_addrs_of_nodes (cinfo : ClusterInfoCache) (bucket : string)
    (vbnos : list Z) (nodes : list NodeId) (addrList : list string)
  : result (list string) :=
  match nodes with
  | [] => Done addrList
  | n :: nodes =>
      match GetVBuckets cinfo n bucket with
      | Failed err => Failed err
      | Done vbs =>
          if found vbs vbnos then
            match GetServiceAddress cinfo n "projector" with
            | Failed err => Failed err
            | Done addr =>
                proj_addrs_of_nodes cinfo bucket vbnos nodes (addrList ++ [addr])%list
            end
          else proj_addrs_of_nodes cinfo bucket vbnos nodes addrList
      end
  end.

Definition getProjAddrsForVbuckets (cinfo : ClusterInfoCache) (bucket : string)
    (vbnos : list Z) : result (list string) :=
  match Fetch cinfo with
  | Some err => Failed err
  | None =>
      proj_addrs_of_nodes cinfo bucket vbnos
        (GetNodesByServiceType cinfo "projector") []
  end.

(** A cache for the examples: the nodes 1 and 2 hold the bucket and run
    the projectors a and b; node 3 runs the projector c and holds no
    vbucket. *)
Definition exampleCache : ClusterInfoCache :=
  {| Fetch := None;
     GetNodesByBucket := λ _, Done [1; 2]%Z;
     GetNodesByServiceType := λ _, [1; 2; 3]%Z;
     GetVBuckets := λ n _,
       Done (if (n =? 1)%Z then [0; 1]%Z else if (n =? 2)%Z then [2; 3]%Z else []);
     GetServiceAddress := λ n _,
       Done (if (n =? 1)%Z then "a" else if (n =? 2)%Z then "b" else "c") |}.

(** *** getFailoverLogs *)

Section FailoverLogs.

(** [protobuf.FailoverLogResponse] is declared outside the sources at
    hand. *)
Context {FailoverLogResponse : Type}.

(** What [client.GetFailoverLogs(DEFAULT_POOL, bucket, vbnos)] of the
    projector at an address returns. *)
Variable GetFailoverLogs : string → option FailoverLogResponse * error.

(** [for _, addr := range addrs { ... }], with [res] and [err] as they
    are; [asked] lists the projectors asked so far. *)
Fixpoint failover_loop (addrs : list string)
    (res : option FailoverLogResponse) (err : error) (asked : list string)
  : option FailoverLogResponse * error * list string :=
  match addrs with
  | [] => (res, err, asked)
  | addr :: addrs =>
      (* create client for node's projectors *)
      let '(res, err) := GetFailoverLogs addr in
      match err with
      | None => (res, err, (asked ++ [addr])%list)  (* break loop *)
      | Some _ => failover_loop addrs res err (asked ++ [addr])%list
      end
  end.

Definition getFailoverLogs (cinfo : ClusterInfoCache)
  : option FailoverLogResponse * error * list string :=
  match getAllProjectorAddrs cinfo with
  | Failed err => (None, Some err, [])
  | Done addrs => failover_loop addrs None None []
  end.

End FailoverLogs.

(** *** Comparing timestamps *)

(** [for i, vb := range vbnosOrig { ... }] of compareIfActiveTsEqual, from
    index [i] on; [None] is the panic of [vbnosComp[i]] out of range. *)
Fixpoint compare_from (i : nat) (vbnosOrig vbnosComp : list Z) : option bool :=
  match vbnosOrig with
  | [] => Some true
  | vb :: vbnosOrig =>
      c ← vbnosComp !! i;
      if decide (c ≠ vb) then Some false
      else compare_from (S i) vbnosOrig vbnosComp
  end.

Section Compare.

(** [GetVbnos] of [c.TsVbuuid] (a []uint16) is declared outside the
    sources at hand. *)
Variable GetVbnos16 : Common.TsVbuuid → list Z.

Definition compareIfActiveTsEqual (origTs compTs : Common.TsVbuuid) : option bool :=
  let vbnosOrig := GetVbnos16 origTs in
  let vbnosComp := GetVbnos16 compTs in
  compare_from 0 vbnosOrig vbnosComp.

End Compare.

(** *** restartVbuckets *)

(** [GetVbnos] of [protobuf.TsVbuuid]. *)
Definition GetVbnos (m : option TsVbuuid) : list Z :=
  match m with
  | Some m => Vbnos m
  | None => []
  end.

(** The variables that the closure of restartVbuckets shares with its
    caller. *)
Record restartVars := {
  restartRollbackTs : option TsVbuuid;  (* rollbackTs *)
  rollback : bool
}.

Section Restart.

Context `{TsVbuuidMethods}.
Variable handoff : nat → error → error.
Variable cinfo : ClusterInfoCache.

(** [k.config["numVbuckets"].Int()] *)
Variable numVbuckets : Z.

(** Declared outside the sources at hand: [GetVbnos] of [c.TsVbuuid]
    (a []uint16), [protobuf.NewTsVbuuid(DEFAULT_POOL, restartTs.Bucket,
    numVbuckets).FromTsVbuuid(restartTs)] and [Contains] of
    [protobuf.TsVbuuid]. *)
Variable GetVbnos16 : Common.TsVbuuid → list Z.
Variable FromTsVbuuid : Common.TsVbuuid → Z → option TsVbuuid.
Variable Contains : TsVbuuid → Z → bool.

(** What the projector at an address answers, in an attempt, to
    [ShutdownVbuckets] and to [RestartVbuckets]. *)
Variable ShutdownVbuckets : nat → string → error.
Variable RestartVbuckets : nat → string → result TopicResponse.

(** Shutdown the vbucket before restart; all shutdownVbuckets errors are
    treated as success as it is a best-effort call. *)
Definition sendRestartVbuckets (r : nat) (addr : string) : result TopicResponse :=
  match ShutdownVbuckets r addr with
  | Some _ => RestartVbuckets r addr
  | None => RestartVbuckets r addr
  end.

(** check if any vb in vbList is part of the given ts; [uint16(vb)]
    truncates the uint32. *)
Definition checkVbListInTS (vbList : list Z) (ts : TsVbuuid) : bool :=
  existsb (λ vb, Contains ts (vb mod 2 ^ 16)%Z) vbList.

(** One round of [for _, addr := range addrs { ... }]. *)
Definition restartRequest (bucket : string) (r : nat)
    (s : error * option TsVbuuid) (addr : string) : error * option TsVbuuid :=
  let '(err, rollbackTs) := s in
  match sendRestartVbuckets r addr with
  | Failed ret => (Some ret, rollbackTs)  (* retry for all errors *)
  | Done res => (err, updateRollbackTsFromResponse bucket rollbackTs res)
  end.

Definition restartFn (bucket : string) (protoRestartTs : option TsVbuuid)
    (addrs : list string) (r : nat) (err : error) (v : restartVars)
  : error * restartVars :=
  let '(err, rollbackTs) :=
    fold_left (restartRequest bucket r) addrs (err, restartRollbackTs v) in
  match rollbackTs with
  | Some ts =>
      if checkVbListInTS (GetVbnos protoRestartTs) ts then
        (* if rollback, no need to retry *)
        (None, {| restartRollbackTs := rollbackTs; rollback := true |})
      else (err, {| restartRollbackTs := rollbackTs; rollback := rollback v |})
  | None => (err, {| restartRollbackTs := rollbackTs; rollback := rollback v |})
  end.

(** [None] is the panic of a nil pointer dereference. *)
Definition restartVbuckets (streamId : StreamId) (restartTs : Common.TsVbuuid)
  : option outcome :=
  let bucket := Common.Bucket restartTs in
  match getProjAddrsForVbuckets cinfo bucket (GetVbnos16 restartTs) with
  | Failed err => Some {| response := fatal err; rounds := [] |}
  | Done addrs =>
      (* convert TS to protobuf format *)
      let protoRestartTs := FromTsVbuuid restartTs numVbuckets in
      let '(err, log, v) :=
        Run handoff (restartFn bucket protoRestartTs addrs)
          MAX_KV_REQUEST_RETRY
          {| restartRollbackTs := None; rollback := false |} in
      if rollback v then
        (* convert from protobuf to native format *)
        ts ← restartRollbackTs v;
        Some {| response := MsgRollback streamId "" (ToTsVbuuid ts numVbuckets);
                rounds := log |}
      else
        match err with
        | Some e =>
            (* if there is a topicMissing error, a fresh MutationTopicRequest
               is required. *)
            if isTopicMissing e then
              Some {| response := MsgKVStreamRepair streamId bucket; rounds := log |}
            else Some {| response := fatal e; rounds := log |}
        | None => Some {| response := MsgSuccess; rounds := log |}
        end
  end.

(** The rollback timestamps that the answers of attempt [r] add up to. *)
Definition restartUnion (bucket : string) (addrs : list string) (r : nat)
  : option TsVbuuid :=
  (fold_left (restartRequest bucket r) addrs (None, None)).2.

End Restart.

(** For the examples: a timestamp contains the vbuckets it lists; the
    restart timestamp is that of the vbuckets 0 and 1 of the bucket
    default. *)
Definition listsVb (ts : TsVbuuid) (vb : Z) : bool := existsb (Z.eqb vb) (Vbnos ts).

Definition exampleRestartTs : Common.TsVbuuid := SnapshotLedger.ts_at 0.

Definition exampleRestart (answer : result TopicResponse)
  : option outcome :=
  restartVbuckets (H := plainMethods) lastError exampleCache 2
    (λ _, [0; 1]%Z) (λ _ _, Some (tsOf [0; 1] [0; 0])%Z) listsVb
    (λ _ _, Some "busy") (λ _ _, answer) 0%nat exampleRestartTs.

End KVSenderCluster.

(** ** The KV sender: what happens in an attempt *)
Module KVSenderViews.
Import KVSender.

Section Views.

Context `{TsVbuuidMethods}.
Variable k : cluster.




(** In attempt [r] a request is made and fails with an error other than
    a missing topic. *)
Definition someOtherError (send : nat → string → error)
    (addrs : list string) (r : nat) : Prop :=
  ∃ addr ret, addr ∈ addrs ∧ stopped k r addr = false ∧
              send r addr = Some ret ∧ isTopicMissing ret = false.


End Views.

(** Clusters for the examples: two projectors, a and b, and two vbuckets;
    [stop] tells whether a stop signal is waiting, [topic] what a projector
    answers to a topic request, [other] what every other request returns. *)
Definition clusterWith (stop : bool) (topic : string → result TopicResponse)
    (other : error) : cluster :=
  {| getAllVbucketsInCluster := λ _, Done [0; 1]%Z;
     makeRestartTsForVbs := λ _ _ _, Done (tsOf [0; 1] [0; 0])%Z;
     getAllProjectorAddrs := Done ["a"; "b"]%string;
     numVbuckets := 2;
     stopped := λ _ _, stop;
     sendMutationTopicRequest := λ _ addr, topic addr;
     sendAddInstancesRequest := λ _ _, other;
     sendDelInstancesRequest := λ _ _, other;
     sendDelBucketsRequest := λ _ _, other;
     sendShutdownTopic := λ _ _, other |}.

(** Projector a answers that vbucket 0 is active, b that vbucket 1 is. *)
Definition halves (addr : string) : result TopicResponse :=
  Done {| GetActiveTimestamps :=
            [Some (if String.eqb addr "a" then tsOf [0] [0] else tsOf [1] [0])%Z];
          GetRollbackTimestamps := [] |}.

End KVSenderViews.

(** ** Facts about the mutation queue *)
Module MutationQueueFacts.
Import MutationQueue.
Local Open Scope Z_scope.

(** *** Slices *)

Lemma index_lookup {A} (s : list A) vb :
  0 ≤ vb → index s vb = s !! Z.to_nat vb.
Proof. intros Hvb. unfold index. destruct (Z.ltb_spec vb 0); [lia | done]. Qed.

Lemma index_nonneg {A} (s : list A) vb x : index s vb = Some x → 0 ≤ vb.
Proof. unfold index. destruct (Z.ltb_spec vb 0); [done | lia]. Qed.

Lemma assign_index {A} (s : list A) vb x y :
  index s vb = Some y → assign s vb x = Some (<[Z.to_nat vb := x]> s).
Proof.
  intros H. pose proof (index_nonneg _ _ _ H) as Hvb.
  rewrite index_lookup in H by done. apply lookup_lt_Some in H.
  unfold assign. destruct (Z.ltb_spec vb 0); [lia |].
  by rewrite decide_True.
Qed.

Lemma index_insert_eq {A} (s : list A) vb x y :
  index s vb = Some y → index (<[Z.to_nat vb := x]> s) vb = Some x.
Proof.
  intros H. pose proof (index_nonneg _ _ _ H) as Hvb.
  rewrite index_lookup in * by done.
  apply list_lookup_insert_eq. by eapply lookup_lt_Some.
Qed.

(** *** 64-bit counters *)

Lemma int64_wrap_idemp_add a b :
  int64_wrap (int64_wrap a + b) = int64_wrap (a + b).
Proof.
  unfold int64_wrap. f_equal.
  replace ((a + 2 ^ 63) mod 2 ^ 64 - 2 ^ 63 + b + 2 ^ 63)
    with ((a + 2 ^ 63) mod 2 ^ 64 + b) by lia.
  rewrite Zplus_mod_idemp_l. f_equal. lia.
Qed.

Lemma int64_wrap_small a : - 2 ^ 63 ≤ a < 2 ^ 63 → int64_wrap a = a.
Proof. intros H. unfold int64_wrap. rewrite Z.mod_small; lia. Qed.

(** *** The heap *)

Lemma store_lookup q a nd nd' :
  heap q !! a = Some nd →
  store (Some a) nd' q = Some (set_heap (<[a := nd']> (heap q)) q).
Proof.
  intros H. apply lookup_lt_Some in H. unfold store. simpl.
  by rewrite decide_True.
Qed.

Lemma store_next_lookup q a nd n :
  heap q !! a = Some nd →
  store_next (Some a) n q
  = Some (set_heap (<[a := {| mutation := mutation nd; next := n |}]> (heap q)) q).
Proof.
  intros H. unfold store_next, store. simpl. rewrite H. simpl.
  apply lookup_lt_Some in H. by rewrite decide_True.
Qed.

Lemma store_mutation_lookup q a nd m :
  heap q !! a = Some nd →
  store_mutation (Some a) m q
  = Some (set_heap (<[a := {| mutation := m; next := next nd |}]> (heap q)) q).
Proof.
  intros H. unfold store_mutation, store. simpl. rewrite H. simpl.
  apply lookup_lt_Some in H. by rewrite decide_True.
Qed.

(** *** Chains *)

Lemma linked_lookup hp c i p :
  linked hp c → c !! i = Some p → ∃ nd, hp !! p = Some nd ∧ next nd = c !! S i.
Proof.
  intros Hl Hi. specialize (Hl i p Hi).
  destruct (hp !! p) as [nd|]; simpl in Hl; [|done].
  exists nd. split; [done | congruence].
Qed.

Lemma linked_elem hp c p : linked hp c → p ∈ c → is_Some (hp !! p).
Proof.
  intros Hl [i Hi]%list_elem_of_lookup.
  destruct (linked_lookup _ _ _ _ Hl Hi) as (nd & -> & _). eauto.
Qed.

Lemma linked_tail hp p c : linked hp (p :: c) → linked hp c.
Proof. intros Hl i p' Hi. apply (Hl (S i) p'). done. Qed.


Lemma chain_split_last (fl : list ptr) h l :
  ∃ c, fl ++ h :: l = c ++ [List.last l h].
Proof.
  destruct l as [|x l' _] using rev_ind.
  - by exists fl.
  - exists (fl ++ h :: l'). rewrite last_last. by rewrite <- app_assoc.
Qed.

Lemma linked_snoc hp hpF c t n nd m :
  linked hp (c ++ [t]) →
  hp !! t = Some nd →
  (∀ p, p ∈ c → hpF !! p = hp !! p) →
  hpF !! t = Some {| mutation := mutation nd; next := Some n |} →
  hpF !! n = Some {| mutation := m; next := None |} →
  linked hpF ((c ++ [t]) ++ [n]).
Proof.
  intros Hl Ht Hc HFt HFn i p Hi.
  destruct (decide (i < length c)%nat) as [Hlt|Hge].
  - assert (c !! i = Some p) as Hci.
    { rewrite <- Hi, <- app_assoc. symmetry. by apply lookup_app_l. }
    rewrite Hc by (eapply list_elem_of_lookup_2; eauto).
    rewrite (Hl i p) by (by apply lookup_app_l_Some).
    f_equal. symmetry. apply lookup_app_l. rewrite length_app. simpl. lia.
  - rewrite <- app_assoc in Hi. rewrite lookup_app_r in Hi by lia.
    destruct (i - length c)%nat as [|[|k]] eqn:Hk; simpl in Hi; simplify_eq.
    + rewrite HFt. simpl. f_equal.
      replace (S i) with (length (c ++ [p]) + 0)%nat by (rewrite length_app; simpl; lia).
      by rewrite lookup_app_r, Nat.add_comm, Nat.add_sub by lia.
    + rewrite HFn. simpl. f_equal. symmetry. apply lookup_ge_None_2.
      rewrite !length_app. simpl. lia.
Qed.

Lemma holds_snoc hp hpF lv n m :
  holds hp lv →
  (∀ p, p ∈ lv.*1 → mutation <$> hpF !! p = mutation <$> hp !! p) →
  hpF !! n = Some {| mutation := m; next := None |} →
  holds hpF (lv ++ [(n, m)]).
Proof.
  intros Hh Hagree HFn i p m' Hi.
  apply lookup_app_Some in Hi as [Hi | [_ Hi]].
  - rewrite Hagree; [by eapply Hh|].
    apply list_elem_of_fmap. exists (p, m'). split; [done|].
    by eapply list_elem_of_lookup_2.
  - destruct (i - length lv)%nat; simpl in Hi; simplify_eq. by rewrite HFn.
Qed.


Ltac qsimpl :=
  cbn [heap head tail free size numVbuckets set_heap set_head set_tail
       set_free set_size mbind option_bind fst snd] in *.

Lemma valid_vbucket q vb :
  0 ≤ vb < numVbuckets q → numVbuckets q < 2 ^ 16 →
  (vb <? 0) || (vb >? Vbucket_wrap (numVbuckets q - 1)) = false.
Proof.
  intros Hvb Hn. unfold Vbucket_wrap. rewrite Z.mod_small by lia.
  apply orb_false_iff. split; [apply Z.ltb_ge | rewrite Z.gtb_ltb; apply Z.ltb_ge]; lia.
Qed.

(** What [Enqueue] does once [allocNode] has given it the node [n]. *)
Lemma Enqueue_link m vb q q1 n e t nd sz :
  0 ≤ vb < numVbuckets q → numVbuckets q < 2 ^ 16 →
  allocNode vb q = Some (Some n, q1) →
  heap q1 !! n = Some e →
  index (tail q1) vb = Some (Some t) →
  t ≠ n →
  heap q1 !! t = Some nd →
  index (size q1) vb = Some sz →
  Enqueue m vb q
  = Some (None,
      set_size (<[Z.to_nat vb := int64_wrap (sz + 1)]> (size q1))
        (set_tail (<[Z.to_nat vb := Some n]> (tail q1))
           (set_heap
              (<[t := {| mutation := mutation nd; next := Some n |}]>
                 (<[n := {| mutation := m; next := None |}]> (heap q1))) q1))).
Proof.
  intros Hvb Hn Halloc Hen Htl Hne Hnd Hsz.
  pose proof (lookup_lt_Some _ _ _ Hen) as Hlen.
  unfold Enqueue. rewrite valid_vbucket by done. rewrite Halloc. qsimpl.
  erewrite store_mutation_lookup by done. qsimpl.
  erewrite store_next_lookup by (by apply list_lookup_insert_eq). qsimpl.
  rewrite list_insert_insert_eq. rewrite Htl. qsimpl.
  erewrite store_next_lookup by (qsimpl; by rewrite list_lookup_insert_ne). qsimpl.
  unfold deref. qsimpl.
  rewrite list_lookup_insert_eq
    by (rewrite length_insert; by eapply lookup_lt_Some).
  qsimpl. erewrite assign_index by done. qsimpl.
  rewrite Hsz. qsimpl. erewrite assign_index by done. done.
Qed.



Lemma allocNode_fresh q vb h lv :
  shard q vb [] h lv →
  allocNode vb q
  = Some (Some (length (heap q)), set_heap (heap q ++ [empty_node]) q).
Proof.
  intros [Hvb Hu16 Hnodup Hfree Hhead Htail Hlinked Hholds Hsize].
  unfold allocNode, popFreeList. rewrite Hfree, Hhead. qsimpl.
  by rewrite decide_False by (intros ?; done).
Qed.

Lemma allocNode_reuse q vb f fl h lv :
  shard q vb (f :: fl) h lv →
  allocNode vb q
  = Some (Some f,
      set_heap (<[f := empty_node]> (heap q))
        (set_free (<[Z.to_nat vb := Some (hd h fl)]> (free q)) q)).
Proof.
  intros [Hvb Hu16 Hnodup Hfree Hhead Htail Hlinked Hholds Hsize].
  assert (f ≠ h) as Hfh.
  { apply NoDup_cons in Hnodup as [Hf _]. intros ->. apply Hf. apply elem_of_app. right. by left. }
  destruct (linked_lookup _ _ 0%nat f Hlinked eq_refl) as (nd & Hnd & Hnx).
  assert (next nd = Some (hd h fl)) as Hnext.
  { rewrite Hnx. by destruct fl. }
  simpl in Hfree.
  unfold allocNode, popFreeList. rewrite Hfree, Hhead. qsimpl.
  rewrite decide_True by congruence.
  unfold deref. qsimpl. rewrite Hnd. qsimpl.
  erewrite assign_index by done. qsimpl.
  erewrite store_mutation_lookup by done. qsimpl.
  erewrite store_next_lookup
    by (qsimpl; apply list_lookup_insert_eq; eapply lookup_lt_Some; exact Hnd).
  qsimpl. by rewrite list_insert_insert_eq, Hnext.
Qed.


(** The shard once the node [n], holding [m], has been linked behind the
    tail [t]. *)
Lemma shard_linked_behind q q' vb fl h lv n m t nd :
  0 ≤ vb < numVbuckets q' → numVbuckets q' < 2 ^ 16 →
  linked (heap q) (fl ++ h :: lv.*1) →
  holds (heap q) lv →
  NoDup ((fl ++ h :: lv.*1) ++ [n]) →
  t = List.last (lv.*1) h →
  heap q !! t = Some nd →
  (∀ p, p ∈ fl ++ h :: lv.*1 → p ≠ t → heap q' !! p = heap q !! p) →
  heap q' !! t = Some {| mutation := mutation nd; next := Some n |} →
  heap q' !! n = Some {| mutation := m; next := None |} →
  index (free q') vb = Some (Some (hd h fl)) →
  index (head q') vb = Some (Some h) →
  index (tail q') vb = Some (Some n) →
  index (size q') vb = Some (int64_wrap (Z.of_nat (length lv) + 1)) →
  shard q' vb fl h (lv ++ [(n, m)]).
Proof.
  intros Hvb Hu16 Hlinked Hholds Hnodup Ht Hnd Hagree HFt HFn Hfree Hhead Htail Hsize.
  destruct (chain_split_last fl h (lv.*1)) as [c Hc]. rewrite <- Ht in Hc.
  assert (t ∉ c) as Htc.
  { rewrite Hc in Hnodup. apply NoDup_app in Hnodup as [Hnodup _].
    apply NoDup_app in Hnodup as (_ & Hnodup & _).
    intros Hin. apply (Hnodup t Hin). by left. }
  assert (∀ p, p ∈ c → heap q' !! p = heap q !! p) as Hagree'.
  { intros p Hp. apply Hagree; [|by intros ->].
    rewrite Hc. apply elem_of_app. by left. }
  split; try done.
  - rewrite fmap_app. simpl.
    replace (fl ++ h :: lv.*1 ++ [n]) with ((fl ++ h :: lv.*1) ++ [n]); [done|].
    by rewrite <- app_assoc.
  - rewrite fmap_app. simpl. by rewrite last_last.
  - rewrite fmap_app. simpl.
    replace (fl ++ h :: lv.*1 ++ [n]) with ((fl ++ h :: lv.*1) ++ [n])
      by (by rewrite <- app_assoc).
    rewrite Hc.
    apply (linked_snoc (heap q) (heap q') c t n nd m); [by rewrite <- Hc | done..].
  - eapply holds_snoc; eauto. intros p Hp.
    destruct (decide (p = t)) as [->|Hpt].
    + by rewrite HFt, Hnd.
    + rewrite Hagree; [done | | done]. apply elem_of_app. right. by right.
  - rewrite Hsize. f_equal. f_equal. rewrite length_app. simpl. lia.
Qed.

Lemma index_insert_ne {A} (s : list A) vb vb' x :
  0 ≤ vb → vb' ≠ vb → index (<[Z.to_nat vb := x]> s) vb' = index s vb'.
Proof.
  intros Hvb Hne. unfold index. destruct (Z.ltb_spec vb' 0); [done|].
  apply list_lookup_insert_ne. lia.
Qed.

Lemma Enqueue_shard q vb fl h lv m :
  shard q vb fl h lv →
  ∃ q' fl' p,
    Enqueue m vb q = Some (None, q') ∧ shard q' vb fl' h (lv ++ [(p, m)]) ∧
    frame q q' vb (fl ++ h :: lv.*1) ∧
    (∀ a, a ∈ fl' ++ h :: (lv ++ [(p, m)]).*1 →
          a ∈ fl ++ h :: lv.*1 ∨ heap q !! a = None).
Proof.
  intros Hs.
  pose proof Hs as [Hvb Hu16 Hnodup Hfree Hhead Htail Hlinked Hholds Hsize].
  set (t := List.last (lv.*1) h) in *.
  assert (t ∈ h :: lv.*1) as Ht.
  { destruct (chain_split_last [] h (lv.*1)) as [c Hc]. simpl in Hc.
    rewrite Hc. apply elem_of_app. right. by left. }
  assert (t ∈ fl ++ h :: lv.*1) as Ht' by (apply elem_of_app; by right).
  destruct (linked_elem _ _ _ Hlinked Ht') as [nd Hnd].
  assert (∀ p, p ∈ fl ++ h :: lv.*1 → (p < length (heap q))%nat) as Hbound.
  { intros p Hp. destruct (linked_elem _ _ _ Hlinked Hp) as [x Hx].
    by eapply lookup_lt_Some. }
  destruct fl as [|f fl].
  - (* the free list is empty: a new node *)
    set (n := length (heap q)).
    assert (t ≠ n) as Htn by (specialize (Hbound t Ht'); lia).
    eexists _, [], n. split; [|split].
    + eapply (Enqueue_link m vb q (set_heap (heap q ++ [empty_node]) q)
                n empty_node t nd); try done.
      * by apply allocNode_fresh in Hs.
      * qsimpl. by apply list_lookup_middle.
      * qsimpl. by apply lookup_app_l_Some.
    + qsimpl. eapply (shard_linked_behind q _ vb [] h lv n m t nd); qsimpl; try done.
      * apply NoDup_app. split; [done|]. split; [|apply NoDup_singleton].
        intros p Hp ->%list_elem_of_singleton. specialize (Hbound _ Hp). lia.
      * intros p Hp Hpt. rewrite list_lookup_insert_ne by done.
        specialize (Hbound _ Hp).
        rewrite list_lookup_insert_ne by lia. by apply lookup_app_l.
      * apply list_lookup_insert_eq. rewrite length_insert, length_app. simpl.
        specialize (Hbound _ Ht'). lia.
      * rewrite list_lookup_insert_ne by done.
        apply list_lookup_insert_eq. rewrite length_app. simpl. lia.
      * by eapply index_insert_eq.
      * erewrite index_insert_eq by done. by rewrite int64_wrap_idemp_add.
    + split.
      * repeat split; qsimpl; try done; try (by apply index_insert_ne; lia).
        intros p x Hp Hpc. pose proof (lookup_lt_Some _ _ _ Hp).
        rewrite !list_lookup_insert_ne; [by apply lookup_app_l_Some|lia|].
        by intros <-.
      * intros a. simpl. rewrite fmap_app. simpl. rewrite app_comm_cons.
        intros [Ha | ->%list_elem_of_singleton]%elem_of_app; [by left | right].
        by apply lookup_ge_None_2.
  - (* a node of the free list is used again *)
    apply NoDup_cons in Hnodup as [Hf Hnodup].
    assert (t ≠ f) as Htf.
    { intros Heq. apply Hf. rewrite <- Heq. apply elem_of_app. by right. }
    eexists _, fl, f. split; [|split].
    + eapply (Enqueue_link m vb q
                (set_heap (<[f := empty_node]> (heap q))
                   (set_free (<[Z.to_nat vb := Some (hd h fl)]> (free q)) q))
                f empty_node t nd); try done.
      * by apply allocNode_reuse in Hs.
      * qsimpl. apply list_lookup_insert_eq. apply Hbound. by left.
      * qsimpl. by rewrite list_lookup_insert_ne.
    + qsimpl. apply linked_tail in Hlinked.
      eapply (shard_linked_behind q _ vb fl h lv f m t nd); qsimpl; try done.
      * apply NoDup_app. split; [done|]. split; [|apply NoDup_singleton].
        by intros p Hp ->%list_elem_of_singleton.
      * intros p Hp Hpt. assert (f ≠ p) by (by intros ->).
        by rewrite !list_lookup_insert_ne by done.
      * apply list_lookup_insert_eq. rewrite !length_insert. by apply Hbound.
      * rewrite list_lookup_insert_ne by done.
        apply list_lookup_insert_eq. rewrite length_insert. apply Hbound. by left.
      * by eapply index_insert_eq.
      * by eapply index_insert_eq.
      * erewrite index_insert_eq by done. by rewrite int64_wrap_idemp_add.
    + split.
      * repeat split; qsimpl; try done; try (by apply index_insert_ne; lia).
        { by rewrite length_insert. }
        intros p x Hp Hpc.
        assert (f ≠ p) by (intros <-; apply Hpc; by left).
        rewrite !list_lookup_insert_ne; [done..|].
        intros <-. apply Hpc. by right.
      * intros a. rewrite fmap_app. simpl. intros Ha. left.
        rewrite (app_comm_cons (lv.*1) [f] h), app_assoc in Ha.
        apply elem_of_app in Ha as [Ha| ->%list_elem_of_singleton]; [by right | by left].
Qed.


Lemma last_cons_shift {A} (l : list A) x d : List.last (x :: l) d = List.last l x.
Proof.
  destruct l as [|y l' _] using rev_ind; [done|].
  by rewrite app_comm_cons, !last_last.
Qed.

Lemma shard_tail_in q vb fl h lv :
  shard q vb fl h lv → List.last (lv.*1) h ∈ h :: lv.*1.
Proof.
  intros _. destruct (chain_split_last [] h (lv.*1)) as [c Hc]. simpl in Hc.
  rewrite Hc. apply elem_of_app. right. by left.
Qed.

Lemma shard_nonempty q vb fl h lv :
  shard q vb fl h lv → nonempty vb q = Some (bool_decide (lv ≠ [])).
Proof.
  intros Hs.
  pose proof Hs as [Hvb Hu16 Hnodup Hfree Hhead Htail Hlinked Hholds Hsize].
  unfold nonempty. rewrite Hhead, Htail. qsimpl. f_equal.
  destruct lv as [|[p m] lv].
  - simpl. by rewrite !bool_decide_false by (intros Hx; by apply Hx).
  - rewrite (bool_decide_true (_ :: _ ≠ [])) by done.
    apply bool_decide_true. intros Heq. apply (inj Some) in Heq.
    apply NoDup_app in Hnodup as (_ & _ & Hnodup).
    apply NoDup_cons in Hnodup as [Hh _]. apply Hh.
    change (((p, m) :: lv).*1) with (p :: lv.*1) in *.
    rewrite last_cons_shift in Heq. rewrite Heq at 1.
    destruct (chain_split_last [] p (lv.*1)) as [c Hc]. simpl in Hc.
    rewrite Hc. apply elem_of_app. right. by left.
Qed.

Lemma DequeueSingleElement_empty q vb fl h :
  shard q vb fl h [] → DequeueSingleElement vb q = Some (None, q).
Proof.
  intros Hs. pose proof (shard_nonempty _ _ _ _ _ Hs) as Hne.
  destruct Hs as [Hvb Hu16 Hnodup Hfree Hhead Htail Hlinked Hholds Hsize].
  unfold DequeueSingleElement. rewrite Hhead, Htail. qsimpl.
  by rewrite decide_False by (intros Hx; by apply Hx).
Qed.

Lemma shard_head_step q vb fl h p m lv :
  shard q vb fl h ((p, m) :: lv) →
  ∃ nd nx, heap q !! h = Some nd ∧ next nd = Some p ∧
           heap q !! p = Some nx ∧ mutation nx = m.
Proof.
  intros [Hvb Hu16 Hnodup Hfree Hhead Htail Hlinked Hholds Hsize].
  destruct (linked_lookup _ _ (length fl) h Hlinked) as (nd & Hnd & Hnx).
  { by apply list_lookup_middle. }
  rewrite lookup_app_r in Hnx by lia.
  replace (S (length fl) - length fl)%nat with 1%nat in Hnx by lia.
  simpl in Hnx.
  specialize (Hholds 0%nat p m eq_refl).
  destruct (heap q !! p) as [nx|] eqn:Hp; simpl in Hholds; [|done].
  exists nd, nx. repeat split; [done..|congruence].
Qed.

(** The shard after the head has moved to the next node. *)
Lemma shard_advance q q' vb fl h p m lv :
  shard q vb fl h ((p, m) :: lv) →
  heap q' = heap q → numVbuckets q' = numVbuckets q →
  free q' = free q → tail q' = tail q →
  index (head q') vb = Some (Some p) →
  index (size q') vb = Some (int64_wrap (Z.of_nat (length lv))) →
  shard q' vb (fl ++ [h]) p lv.
Proof.
  intros [Hvb Hu16 Hnodup Hfree Hhead Htail Hlinked Hholds Hsize]
    Hheap Hnum Hfr Htl Hhd Hsz.
  change (((p, m) :: lv).*1) with (p :: lv.*1) in *.
  split; rewrite ?Hheap, ?Hnum, ?Hfr, ?Htl; try done.
  - by rewrite <- app_assoc.
  - rewrite Hfree. by destruct fl.
  - by rewrite Htail, last_cons_shift.
  - by rewrite <- app_assoc.
  - intros i a m' Hi. by apply (Hholds (S i)).
Qed.

Lemma DequeueSingleElement_shard q vb fl h p m lv :
  shard q vb fl h ((p, m) :: lv) →
  ∃ q', DequeueSingleElement vb q = Some (m, q') ∧
        shard q' vb (fl ++ [h]) p lv ∧ frame q q' vb [].
Proof.
  intros Hs. pose proof (shard_nonempty _ _ _ _ _ Hs) as Hne.
  destruct (shard_head_step _ _ _ _ _ _ _ Hs) as (nd & nx & Hnd & Hnext & Hnx & Hm).
  pose proof Hs as [Hvb Hu16 Hnodup Hfree Hhead Htail Hlinked Hholds Hsize].
  unfold nonempty in Hne. rewrite Hhead, Htail in Hne. qsimpl.
  rewrite (bool_decide_true (_ :: _ ≠ [])) in Hne by done.
  apply (inj Some), bool_decide_eq_true in Hne.
  unfold DequeueSingleElement. rewrite Hhead, Htail. qsimpl.
  rewrite decide_True by done.
  unfold deref. qsimpl. rewrite Hnd. qsimpl. rewrite Hnext. qsimpl.
  rewrite Hnx. qsimpl. erewrite assign_index by done. qsimpl.
  rewrite Hsize. qsimpl. erewrite assign_index by done.
  eexists. split; [by rewrite Hm|]. split.
  - eapply shard_advance; [done | done..| |]; qsimpl.
    + by eapply index_insert_eq.
    + erewrite index_insert_eq by done. rewrite int64_wrap_idemp_add.
      f_equal. f_equal. simpl. lia.
  - repeat split; qsimpl; try done; try (by apply index_insert_ne; lia).
    by rewrite length_insert.
Qed.

Lemma shard_frame q q' vb vb' c fl h lv :
  frame q q' vb c → vb' ≠ vb →
  (∀ p, p ∈ fl ++ h :: lv.*1 → p ∉ c) →
  shard q vb' fl h lv → shard q' vb' fl h lv.
Proof.
  intros (Hnum & _ & _ & Hidx & Hheap) Hne Hdisj
    [Hvb Hu16 Hnodup Hfree Hhead Htail Hlinked Hholds Hsize].
  destruct (Hidx vb' Hne) as (Hh & Ht & Hf & Hz).
  split; rewrite ?Hnum, ?Hh, ?Ht, ?Hf, ?Hz; try done.
  - intros i p Hi.
    destruct (linked_lookup _ _ _ _ Hlinked Hi) as (nd & Hnd & Hnx).
    rewrite (Hheap p nd Hnd); [by rewrite <- Hnx|].
    apply Hdisj. by eapply list_elem_of_lookup_2.
  - intros i p m Hi. specialize (Hholds i p m Hi).
    destruct (heap q !! p) as [nd|] eqn:Hnd; [|done].
    rewrite (Hheap p nd Hnd); [done|].
    apply Hdisj. apply elem_of_app. right. right.
    apply list_elem_of_fmap. exists (p, m). split; [done|].
    by eapply list_elem_of_lookup_2.
Qed.




(** *** The new queue *)

Lemma fresh_slot (n k : nat) :
  (k < n)%nat →
  <[k := Some k]> ((Some <$> seq 0 k) ++ replicate (n - k) (@None ptr))
  = (Some <$> seq 0 (S k)) ++ replicate (n - S k) None.
Proof.
  intros Hk.
  replace k with (length (Some <$> seq 0 k) + 0)%nat at 1
    by (rewrite length_fmap, length_seq; lia).
  rewrite insert_app_r. replace (n - k)%nat with (S (n - S k)) by lia.
  rewrite seq_S, fmap_app, <- app_assoc. done.
Qed.

Lemma init_vbucket_fresh n N k :
  (k < n)%nat →
  init_vbucket (Z.of_nat k) (fresh_queue n N k) = Some (fresh_queue n N (S k)).
Proof.
  intros Hk. unfold init_vbucket, new_node, assign, fresh_queue. qsimpl.
  destruct (Z.ltb_spec (Z.of_nat k) 0); [lia|].
  rewrite Nat2Z.id, length_replicate.
  repeat (rewrite decide_True
    by (rewrite length_app, length_fmap, length_seq, length_replicate; lia);
    qsimpl).
  unfold set_free. qsimpl.
  rewrite !fresh_slot by done. by rewrite replicate_S_end.
Qed.

Lemma init_loop_fresh n N r k :
  (k + r ≤ n)%nat →
  init_loop (Z.of_nat k) r (fresh_queue n N k) = Some (fresh_queue n N (k + r)).
Proof.
  revert k. induction r as [|r IH]; intros k Hk; simpl.
  - by rewrite Nat.add_0_r.
  - rewrite init_vbucket_fresh by lia. qsimpl.
    replace (Z.of_nat k + 1) with (Z.of_nat (S k)) by lia.
    rewrite IH by lia. do 2 f_equal. lia.
Qed.

Lemma NewAtomicMutationQueue_fresh N :
  NewAtomicMutationQueue N
  = Some (fresh_queue (Z.to_nat N) N (Z.to_nat N)).
Proof.
  unfold NewAtomicMutationQueue. cbv zeta.
  pose proof (init_loop_fresh (Z.to_nat N) N (Z.to_nat N) 0) as H.
  unfold fresh_queue in H at 1. rewrite Nat.sub_0_r in H.
  apply H. lia.
Qed.

Lemma fresh_queue_shard N vb :
  0 ≤ vb < N → N < 2 ^ 16 →
  shard (fresh_queue (Z.to_nat N) N (Z.to_nat N)) vb [] (Z.to_nat vb) [].
Proof.
  intros Hvb HN.
  assert (∀ A (d : A),
    index ((Some <$> seq 0 (Z.to_nat N)) ++ replicate (Z.to_nat N - Z.to_nat N) None) vb
    = Some (Some (Z.to_nat vb))) as Hidx.
  { intros _ _. rewrite index_lookup by lia.
    rewrite lookup_app_l by (rewrite length_fmap, length_seq; lia).
    rewrite list_lookup_fmap, lookup_seq_lt by lia. done. }
  split; simpl; try done; try (by apply (Hidx unit tt)).
  - apply NoDup_singleton.
  - intros [|i] p Hi; simpl in Hi; simplify_eq.
    rewrite lookup_replicate_2 by lia. done.
  - rewrite index_lookup by lia. by rewrite lookup_replicate_2 by lia.
Qed.


(** *** All shards together *)

Lemma fresh_queue_well_formed N :
  0 ≤ N < 2 ^ 16 →
  well_formed (fresh_queue (Z.to_nat N) N (Z.to_nat N))
    ((λ i, ([], i, [])) <$> seq 0 (Z.to_nat N)).
Proof.
  intros HN. split.
  - rewrite length_fmap, length_seq. simpl. lia.
  - simpl. lia.
  - simpl. rewrite Nat.sub_diag, app_nil_r, !length_fmap. done.
  - simpl. rewrite Nat.sub_diag, app_nil_r, !length_fmap. done.
  - intros i fl h lv Hi.
    apply list_lookup_fmap_Some in Hi as (k & [= -> -> ->] & Hk).
    apply lookup_seq in Hk as [-> Hk]. simpl.
    replace i with (Z.to_nat (Z.of_nat i)) at 2 by lia.
    apply fresh_queue_shard; lia.
  - intros i j si sj p Hi Hj Hne.
    apply list_lookup_fmap_Some in Hi as (k & -> & Hk).
    apply list_lookup_fmap_Some in Hj as (k' & -> & Hk').
    apply lookup_seq in Hk as [-> Hk]. apply lookup_seq in Hk' as [-> Hk'].
    unfold chain. simpl. rewrite !list_elem_of_singleton. lia.
Qed.

Lemma well_formed_update q q' shs (i : nat) s s' c :
  well_formed q shs →
  shs !! i = Some s →
  frame q q' (Z.of_nat i) c →
  (∀ a, a ∈ c → a ∈ chain s) →
  shard q' (Z.of_nat i) s'.1.1 s'.1.2 s'.2 →
  (∀ a, a ∈ chain s' → a ∈ chain s ∨ heap q !! a = None) →
  well_formed q' (<[i := s']> shs).
Proof.
  intros [Hlen Hu16 Hhead Hfree Hshard Hdisj] Hi Hframe Hc Hs' Hnew.
  pose proof Hframe as (Hnum & Hhl & Hfl & _ & _).
  assert (∀ (j : nat) sj a, shs !! j = Some sj → a ∈ chain sj →
            is_Some (heap q !! a)) as Hin.
  { intros j [[fl h] lv] a Hj Ha.
    eapply linked_elem; [|exact Ha]. by eapply Hshard. }
  split.
  - by rewrite length_insert, Hnum.
  - by rewrite Hnum.
  - by rewrite length_insert, Hhl.
  - by rewrite length_insert, Hfl.
  - intros j fl h lv Hj.
    destruct (decide (i = j)) as [<-|Hne].
    + rewrite list_lookup_insert_eq in Hj by (by eapply lookup_lt_Some).
      by simplify_eq.
    + rewrite list_lookup_insert_ne in Hj by done.
      eapply shard_frame; [exact Hframe | lia | | by apply Hshard].
      intros a Ha Hac.
      by apply (Hdisj j i (fl, h, lv) s a Hj Hi (not_eq_sym Hne) Ha), Hc.
  - intros j k sj sk a Hj Hk Hne Ha Hak.
    destruct (decide (i = j)) as [<-|Hij].
    + rewrite list_lookup_insert_eq in Hj by (by eapply lookup_lt_Some).
      rewrite list_lookup_insert_ne in Hk by done. simplify_eq.
      destruct (Hnew a Ha) as [Ha'|Ha'].
      * by apply (Hdisj i k s sk a Hi Hk Hne Ha').
      * destruct (Hin k sk a Hk Hak) as [x Hx]. congruence.
    + rewrite list_lookup_insert_ne in Hj by done.
      destruct (decide (i = k)) as [<-|Hik].
      * rewrite list_lookup_insert_eq in Hk by (by eapply lookup_lt_Some).
        simplify_eq. destruct (Hnew a Hak) as [Ha'|Ha'].
        -- by apply (Hdisj j i sj s a Hj Hi Hne Ha).
        -- destruct (Hin j sj a Hj Ha) as [x Hx]. congruence.
      * rewrite list_lookup_insert_ne in Hk by done.
        by apply (Hdisj j k sj sk a Hj Hk Hne Ha).
Qed.

Lemma well_formed_lookup q shs vb :
  well_formed q shs → 0 ≤ vb < numVbuckets q →
  ∃ fl h lv, shs !! Z.to_nat vb = Some (fl, h, lv) ∧ shard q vb fl h lv.
Proof.
  intros Hwf Hvb. pose proof Hwf as [Hlen _ _ _ Hshard _].
  destruct (lookup_lt_is_Some_2 shs (Z.to_nat vb)) as [[[fl h] lv] Hs]; [lia|].
  exists fl, h, lv. split; [done|].
  replace vb with (Z.of_nat (Z.to_nat vb)) at 1 by lia. by apply Hshard.
Qed.

Lemma Enqueue_well_formed q shs m vb :
  well_formed q shs → 0 ≤ vb < numVbuckets q →
  ∃ q' fl h lv fl' p,
    shs !! Z.to_nat vb = Some (fl, h, lv) ∧
    Enqueue m vb q = Some (None, q') ∧
    well_formed q' (<[Z.to_nat vb := (fl', h, lv ++ [(p, m)])]> shs).
Proof.
  intros Hwf Hvb.
  destruct (well_formed_lookup _ _ _ Hwf Hvb) as (fl & h & lv & Hs & Hsh).
  destruct (Enqueue_shard _ _ _ _ _ m Hsh) as (q' & fl' & p & He & Hsh' & Hfr & Hnew).
  exists q', fl, h, lv, fl', p. split; [done|]. split; [done|].
  eapply (well_formed_update q q' shs (Z.to_nat vb) (fl, h, lv)); try done.
  - by rewrite Z2Nat.id by lia.
  - by rewrite Z2Nat.id by lia.
Qed.

Lemma DequeueSingleElement_well_formed q shs vb :
  well_formed q shs → 0 ≤ vb < numVbuckets q →
  ∃ m q' shs', DequeueSingleElement vb q = Some (m, q') ∧ well_formed q' shs'.
Proof.
  intros Hwf Hvb.
  destruct (well_formed_lookup _ _ _ Hwf Hvb) as (fl & h & [|[p m] lv] & Hs & Hsh).
  - exists None, q, shs. split; [|done]. by eapply DequeueSingleElement_empty.
  - destruct (DequeueSingleElement_shard _ _ _ _ _ _ _ Hsh) as (q' & Hd & Hsh' & Hfr).
    exists m, q', (<[Z.to_nat vb := (fl ++ [h], p, lv)]> shs). split; [done|].
    eapply (well_formed_update q q' shs (Z.to_nat vb) (fl, h, (p, m) :: lv) _ []);
      try done.
    + by rewrite Z2Nat.id by lia.
    + by intros a Ha%elem_of_nil.
    + by rewrite Z2Nat.id by lia.
    + intros a Ha. left. unfold chain in *. simpl in *.
      by rewrite <- app_assoc in Ha.
Qed.

Lemma DequeueSingleElement_preserves q shs vb m q' :
  well_formed q shs → DequeueSingleElement vb q = Some (m, q') →
  ∃ shs', well_formed q' shs'.
Proof.
  intros Hwf Hd. pose proof Hwf as [Hlen Hu16 Hhead Hfree Hshard _].
  destruct (decide (0 ≤ vb < numVbuckets q)) as [Hvb|Hvb].
  - destruct (DequeueSingleElement_well_formed q shs vb Hwf Hvb)
      as (m' & q2 & shs' & Hd' & Hwf').
    rewrite Hd' in Hd. simplify_eq. eauto.
  - exfalso. unfold DequeueSingleElement in Hd.
    destruct (index (head q) vb) as [hp|] eqn:Hh; [|done].
    pose proof (index_nonneg _ _ _ Hh).
    rewrite index_lookup in Hh by done. apply lookup_lt_Some in Hh. lia.
Qed.

(** The body of the loop of dequeueUptoSeqno leaves the queue alone or
    changes it as [DequeueSingleElement] does. *)
Lemma drain_body_dequeues vb sq d d' :
  nonempty vb (dq d) = Some true →
  drain_body vb sq d = Some d' →
  dq d' = dq d ∨ ∃ m, DequeueSingleElement vb (dq d) = Some (m, dq d').
Proof.
  unfold nonempty, drain_body, DequeueSingleElement.
  destruct (index (head (dq d)) vb) as [h|]; [|done].
  destruct (index (tail (dq d)) vb) as [t|]; [|done]. qsimpl.
  intros [= Hne%bool_decide_eq_true]. rewrite decide_True by done.
  destruct (deref (dq d) h) as [hd|]; [|done]. qsimpl.
  destruct (deref (dq d) (next hd)) as [nx|]; [|done]. qsimpl.
  destruct (mutation nx) as [m|]; [|done]. qsimpl.
  destruct (sq >=? seqno (meta m)).
  - destruct (assign (head (dq d)) vb (next hd)) as [hs|]; [|done]. qsimpl.
    destruct (index (size (dq d)) vb) as [sz|]; [|done]. qsimpl.
    destruct (assign (size (dq d)) vb (int64_wrap (sz + -1))) as [s|]; [|done].
    qsimpl. intros Hd'. right. exists (Some m).
    destruct (sq <=? seqno (meta m)); by simplify_eq.
  - qsimpl. intros Hd'. left.
    destruct (sq <=? seqno (meta m)); by simplify_eq.
Qed.

Lemma drain_loop_preserves fuel vb sq d d' :
  (∃ shs, well_formed (dq d) shs) →
  drain_loop fuel vb sq d = Ret d' →
  ∃ shs', well_formed (dq d') shs'.
Proof.
  revert d. induction fuel as [|fuel IH]; intros d Hwf; simpl; [done|].
  destruct (nonempty vb (dq d)) as [[]|] eqn:Hne; [| by intros [= <-] | done].
  destruct (drain_body vb sq d) as [d1|] eqn:Hbody; [|done].
  assert (∃ shs, well_formed (dq d1) shs) as Hwf1.
  { destruct (drain_body_dequeues vb sq d d1 Hne Hbody) as [->|[m Hm]]; [done|].
    destruct Hwf as [shs Hwf]. by eapply DequeueSingleElement_preserves. }
  destruct (closed d1); [by intros [= <-] | by apply IH].
Qed.

Lemma on_tick_preserves fuel vb sq d d' :
  (∃ shs, well_formed (dq d) shs) →
  on_tick fuel vb sq d = Ret d' →
  ∃ shs', well_formed (dq d') shs'.
Proof.
  intros Hwf. unfold on_tick.
  destruct (drain_loop fuel vb sq d) as [| |d1] eqn:Hloop; [done..|].
  pose proof (drain_loop_preserves fuel vb sq d d1 Hwf Hloop) as Hwf1.
  destruct (closed d1); [by intros [= <-]|].
  destruct (dequeueCount d1 =? 0); by intros [= <-].
Qed.

Lemma dequeueUptoSeqno_preserves ticks fuel vb sq d d' :
  (∃ shs, well_formed (dq d) shs) →
  dequeueUptoSeqno ticks fuel vb sq d = Ret d' →
  ∃ shs', well_formed (dq d') shs'.
Proof.
  revert d. induction ticks as [|ticks IH]; intros d Hwf; simpl.
  { by intros [= <-]. }
  destruct (on_tick fuel vb sq d) as [| |d1] eqn:Htick; [done..|].
  pose proof (on_tick_preserves fuel vb sq d d1 Hwf Htick) as Hwf1.
  destruct (closed d1); [by intros [= <-] | by apply IH].
Qed.

Lemma reachable_well_formed q : reachable q → ∃ shs, well_formed q shs.
Proof.
  induction 1 as [n q Hn Hnew | q m vb err q' _ [shs IH] He
                 | q vb m q' _ [shs IH] Hd | q ticks fuel vb sq d _ IH Hd].
  - rewrite NewAtomicMutationQueue_fresh in Hnew. simplify_eq.
    eexists. by apply fresh_queue_well_formed.
  - pose proof IH as [Hlen Hu16 Hhead Hfree _ _].
    unfold Enqueue in He.
    destruct ((vb <? 0) || (vb >? Vbucket_wrap (numVbuckets q - 1))) eqn:Hchk.
    { simplify_eq. eauto. }
    apply orb_false_iff in Hchk as [Hlt Hgt].
    apply Z.ltb_ge in Hlt. rewrite Z.gtb_ltb in Hgt. apply Z.ltb_ge in Hgt.
    destruct (decide (numVbuckets q = 0)) as [H0|H0].
    + exfalso. unfold allocNode, popFreeList in He.
      rewrite (index_lookup (free q)) in He by done.
      rewrite lookup_ge_None_2 in He by lia. by qsimpl.
    + unfold Vbucket_wrap in Hgt. rewrite Z.mod_small in Hgt by lia.
      destruct (Enqueue_well_formed q shs m vb IH)
        as (q2 & fl & h & lv & fl' & p & _ & He' & Hwf'); [lia|].
      unfold Enqueue in He'. rewrite valid_vbucket in He' by lia.
      rewrite He' in He. simplify_eq. eauto.
  - by eapply DequeueSingleElement_preserves.
  - unfold DequeueUptoSeqno in Hd.
    eapply dequeueUptoSeqno_preserves; [|exact Hd]. exact IH.
Qed.

(** *** Sequences of calls on one shard *)

Lemma enqueue_all_shard q vb fl h lv ms :
  shard q vb fl h lv →
  ∃ q' fl' lv',
    enqueue_all ms vb q = Some (None, q') ∧
    shard q' vb fl' h (lv ++ lv') ∧ lv'.*2 = ms.
Proof.
  revert q fl lv. induction ms as [|m ms IH]; intros q fl lv Hs.
  - exists q, fl, []. by rewrite app_nil_r.
  - destruct (Enqueue_shard _ _ _ _ _ m Hs) as (q1 & fl1 & p & He & Hs1 & _).
    destruct (IH _ _ _ Hs1) as (q2 & fl2 & lv2 & He2 & Hs2 & Hlv2).
    exists q2, fl2, ((p, m) :: lv2). simpl. rewrite He. qsimpl.
    split; [done|]. split; [|by f_equal].
    by rewrite <- app_assoc in Hs2.
Qed.

Lemma dequeue_n_shard q vb fl h lv :
  shard q vb fl h lv →
  ∃ q' fl' h',
    dequeue_n (length lv) vb q = Some (lv.*2, q') ∧ shard q' vb fl' h' [].
Proof.
  revert q fl h. induction lv as [|[p m] lv IH]; intros q fl h Hs.
  - by exists q, fl, h.
  - destruct (DequeueSingleElement_shard _ _ _ _ _ _ _ Hs) as (q1 & Hd & Hs1 & _).
    destruct (IH _ _ _ Hs1) as (q2 & fl2 & h2 & Hd2 & Hs2).
    exists q2, fl2, h2. simpl. rewrite Hd. qsimpl. rewrite Hd2. done.
Qed.

Lemma shard_empty q vb fl h lv :
  shard q vb fl h lv → nonempty vb q = Some false → lv = [].
Proof.
  intros Hs Hne. rewrite (shard_nonempty _ _ _ _ _ Hs) in Hne.
  destruct lv; [done|]. by rewrite bool_decide_true in Hne.
Qed.

Lemma fifo_from_shard q vb fl h lv es :
  shard q vb fl h lv →
  ∃ q1 q2,
    enqueue_all es vb q = Some (None, q1) ∧
    dequeue_n (length lv + length es) vb q1 = Some (lv.*2 ++ es, q2).
Proof.
  intros Hs.
  destruct (enqueue_all_shard _ _ _ _ _ es Hs) as (q1 & fl1 & lv1 & He & Hs1 & Hlv1).
  destruct (dequeue_n_shard _ _ _ _ _ Hs1) as (q2 & fl2 & h2 & Hd & _).
  exists q1, q2. split; [done|]. subst es.
  rewrite length_app, fmap_app in Hd. by rewrite length_fmap.
Qed.

(** *** Any sequence of calls *)

Lemma run_calls_well_formed cs vb q shs fl h lv :
  well_formed q shs →
  valid_calls (numVbuckets q) cs →
  shs !! Z.to_nat vb = Some (fl, h, lv) →
  0 ≤ vb →
  ∃ removed q' shs' fl' h' lv',
    run_calls cs vb q = Some (removed, q') ∧
    well_formed q' shs' ∧
    shs' !! Z.to_nat vb = Some (fl', h', lv') ∧
    0 ≤ removed ∧
    Z.of_nat (length lv') = Z.of_nat (length lv) + enqueues vb cs - removed.
Proof.
  revert q shs fl h lv.
  induction cs as [|c cs IH]; intros q shs fl h lv Hwf Hcs Hvb Hvb0.
  - exists 0, q, shs, fl, h, lv. unfold enqueues. simpl.
    split_and!; try done; lia.
  - apply Forall_cons in Hcs as [Hc Hcs].
    pose proof Hwf as [Hlen _ _ _ _ _].
    destruct c as [s m|s]; simpl in Hc.
    + destruct (Enqueue_well_formed q shs m s Hwf Hc)
        as (q1 & fl1 & h1 & lv1 & fl1' & p & Hs & He & Hwf1).
      pose proof Hwf1 as [Hlen1 _ _ _ _ _].
      rewrite length_insert in Hlen1.
      assert (numVbuckets q1 = numVbuckets q) as Hnum by lia.
      destruct (decide (s = vb)) as [->|Hne].
      * rewrite Hvb in Hs. simplify_eq.
        edestruct (IH q1) as (r & q2 & shs2 & fl2 & h2 & lv2 & Hr & Hwf2 & Hl2 & Hr0 & Hlen2);
          [exact Hwf1 | by rewrite Hnum | | done |].
        { apply list_lookup_insert_eq. by eapply lookup_lt_Some. }
        exists r, q2, shs2, fl2, h2, lv2. simpl. rewrite He. qsimpl.
        split_and!; try done.
        rewrite Hlen2, length_app. unfold enqueues. simpl.
        rewrite Z.eqb_refl. simpl. lia.
      * edestruct (IH q1) as (r & q2 & shs2 & fl2 & h2 & lv2 & Hr & Hwf2 & Hl2 & Hr0 & Hlen2);
          [exact Hwf1 | by rewrite Hnum | | done |].
        { rewrite list_lookup_insert_ne by lia. exact Hvb. }
        exists r, q2, shs2, fl2, h2, lv2. simpl. rewrite He. qsimpl.
        split_and!; try done.
        rewrite Hlen2. unfold enqueues. simpl.
        by rewrite (proj2 (Z.eqb_neq s vb)) by done.
    + destruct (well_formed_lookup _ _ _ Hwf Hc) as (fl1 & h1 & lv1 & Hs & Hsh).
      pose proof (shard_nonempty _ _ _ _ _ Hsh) as Hne1.
      assert (∃ m q1 shs1 fl1' h1',
        DequeueSingleElement s q = Some (m, q1) ∧ well_formed q1 shs1 ∧
        length shs1 = length shs ∧
        shs1 !! Z.to_nat s = Some (fl1', h1', tl lv1) ∧
        (∀ i : nat, i ≠ Z.to_nat s → shs1 !! i = shs !! i))
        as (m & q1 & shs1 & fl1' & h1' & Hd & Hwf1 & Hlen1 & Hs1 & Hother).
      { destruct lv1 as [|[p m] lv1].
        - exists None, q, shs, fl1, h1. split_and!; try done.
          by eapply DequeueSingleElement_empty.
        - destruct (DequeueSingleElement_shard _ _ _ _ _ _ _ Hsh) as (q1 & Hd & Hsh1 & Hfr).
          exists m, q1, (<[Z.to_nat s := (fl1 ++ [h1], p, lv1)]> shs), (fl1 ++ [h1]), p.
          split_and!; try done.
          + eapply (well_formed_update q q1 shs (Z.to_nat s) (fl1, h1, (p, m) :: lv1) _ []);
              try done.
            * by rewrite Z2Nat.id by lia.
            * by intros a Ha%elem_of_nil.
            * by rewrite Z2Nat.id by lia.
            * intros a Ha. left. unfold chain in *. simpl in *.
              by rewrite <- app_assoc in Ha.
          + by rewrite length_insert.
          + apply list_lookup_insert_eq. by eapply lookup_lt_Some.
          + intros i Hi. by rewrite list_lookup_insert_ne. }
      pose proof Hwf1 as [Hlen1' _ _ _ _ _].
      assert (numVbuckets q1 = numVbuckets q) as Hnum by lia.
      destruct (decide (s = vb)) as [->|Hne].
      * rewrite Hvb in Hs. simplify_eq.
        edestruct (IH q1) as (r & q2 & shs2 & fl2 & h2 & lv2 & Hr & Hwf2 & Hl2 & Hr0 & Hlen2);
          [exact Hwf1 | by rewrite Hnum | exact Hs1 | done |].
        exists (Z.b2z (bool_decide (lv1 ≠ [])) + r), q2, shs2, fl2, h2, lv2.
        simpl. rewrite Hne1, Hd. qsimpl. rewrite Hr. qsimpl. rewrite Z.eqb_refl.
        split_and!; try done.
        { destruct (bool_decide (lv1 ≠ [])); simpl; lia. }
        rewrite Hlen2. unfold enqueues. simpl.
        destruct lv1; [rewrite bool_decide_false by (intros Hx; by apply Hx)
                      | rewrite bool_decide_true by done]; simpl; lia.
      * edestruct (IH q1) as (r & q2 & shs2 & fl2 & h2 & lv2 & Hr & Hwf2 & Hl2 & Hr0 & Hlen2);
          [exact Hwf1 | by rewrite Hnum | | done |].
        { rewrite Hother by lia. exact Hvb. }
        exists r, q2, shs2, fl2, h2, lv2.
        simpl. rewrite Hne1, Hd. qsimpl. rewrite Hr. qsimpl.
        rewrite (proj2 (Z.eqb_neq s vb)) by done.
        split_and!; try done.
Qed.


(** *** PeekTail, PeekHead *)

Lemma PeekTail_shard q vb fl h lv p m :
  shard q vb fl h (lv ++ [(p, m)]) → PeekTail vb q = Some m.
Proof.
  intros Hs. pose proof (shard_nonempty _ _ _ _ _ Hs) as Hne.
  pose proof Hs as [Hvb Hu16 Hnodup Hfree Hhead Htail Hlinked Hholds Hsize].
  rewrite bool_decide_true in Hne by (by destruct lv).
  unfold nonempty in Hne. rewrite Hhead, Htail in Hne. qsimpl.
  apply (inj Some), bool_decide_eq_true in Hne.
  unfold PeekTail. rewrite Hhead, Htail. qsimpl. rewrite decide_True by done.
  rewrite fmap_app. change ([(p, m)].*1) with [p]. rewrite last_last.
  unfold deref. qsimpl.
  specialize (Hholds (length lv) p m (list_lookup_middle _ _ _ _ eq_refl)).
  by destruct (heap q !! p) as [nd|]; simplify_eq/=.
Qed.

Lemma Peek_empty q vb fl h :
  shard q vb fl h [] → PeekTail vb q = Some None ∧ PeekHead vb q = Some None.
Proof.
  intros [Hvb Hu16 Hnodup Hfree Hhead Htail Hlinked Hholds Hsize].
  unfold PeekTail, PeekHead. rewrite Hhead, Htail. qsimpl.
  split; by rewrite decide_False by (intros Hx; by apply Hx).
Qed.

(** [PeekHead] reads the node that [head] points to, the one in front of
    the oldest queued mutation. *)
Lemma PeekHead_shard q vb fl h p m lv :
  shard q vb fl h ((p, m) :: lv) →
  PeekHead vb q = mutation <$> heap q !! h.
Proof.
  intros Hs. pose proof (shard_nonempty _ _ _ _ _ Hs) as Hne.
  pose proof Hs as [Hvb Hu16 Hnodup Hfree Hhead Htail Hlinked Hholds Hsize].
  rewrite bool_decide_true in Hne by done.
  unfold nonempty in Hne. rewrite Hhead, Htail in Hne. qsimpl.
  apply (inj Some), bool_decide_eq_true in Hne.
  unfold PeekHead. rewrite Hhead, Htail. qsimpl. rewrite decide_True by done.
  unfold deref. qsimpl. by destruct (heap q !! h).
Qed.

(** *** DequeueUptoSeqno *)

Lemma drain_body_below q vb fl h p m lv sq out cnt :
  shard q vb fl h ((p, Some m) :: lv) →
  seqno (meta m) < sq →
  ∃ q', drain_body vb sq
          {| dq := q; datach := out; dequeueCount := cnt; closed := false |}
        = Some {| dq := q'; datach := out ++ [m];
                  dequeueCount := bump cnt; closed := false |} ∧
        shard q' vb (fl ++ [h]) p lv.
Proof.
  intros Hs Hlt.
  destruct (shard_head_step _ _ _ _ _ _ _ Hs) as (nd & nx & Hnd & Hnext & Hnx & Hm).
  pose proof Hs as [Hvb Hu16 Hnodup Hfree Hhead Htail Hlinked Hholds Hsize].
  unfold drain_body. cbn [dq datach dequeueCount closed].
  rewrite Hhead. qsimpl. unfold deref. qsimpl. rewrite Hnd. qsimpl.
  rewrite Hnext. qsimpl. rewrite Hnx. qsimpl. rewrite Hm. qsimpl.
  rewrite (proj2 (Z.geb_le sq (seqno (meta m)))) by lia.
  erewrite assign_index by done. qsimpl.
  rewrite Hsize. qsimpl. erewrite assign_index by done. qsimpl.
  rewrite (proj2 (Z.leb_gt sq (seqno (meta m)))) by lia.
  eexists. split; [done|].
  eapply shard_advance; [done | done..| |]; qsimpl.
  - by eapply index_insert_eq.
  - erewrite index_insert_eq by done. rewrite int64_wrap_idemp_add.
    f_equal. f_equal. simpl. lia.
Qed.

Lemma iter_bump n : Nat.iter n bump 0 = int64_wrap (Z.of_nat n).
Proof.
  induction n as [|n IH]; [done|].
  rewrite Nat.iter_succ, IH. unfold bump. rewrite int64_wrap_idemp_add.
  f_equal. lia.
Qed.

Lemma drain_loop_below fuel q vb fl h lv sq out cnt :
  shard q vb fl h lv →
  Forall (below sq) lv →
  (length lv < fuel)%nat →
  ∃ q' fl' h' ms,
    drain_loop fuel vb sq
      {| dq := q; datach := out; dequeueCount := cnt; closed := false |}
    = Ret {| dq := q'; datach := out ++ ms;
             dequeueCount := Nat.iter (length lv) bump cnt;
             closed := false |} ∧
    shard q' vb fl' h' [] ∧ Some <$> ms = lv.*2 ∧ (lv = [] → q' = q).
Proof.
  revert q fl h lv out cnt.
  induction fuel as [|fuel IH]; intros q fl h lv out cnt Hs Hlv Hfuel; [lia|].
  simpl. cbn [dq]. rewrite (shard_nonempty _ _ _ _ _ Hs).
  destruct lv as [|[p om] lv].
  - rewrite bool_decide_false by (intros Hx; by apply Hx).
    exists q, fl, h, []. by rewrite app_nil_r.
  - rewrite bool_decide_true by done.
    apply Forall_cons in Hlv as [(m & Hm & Hlt) Hlv]. simpl in Hm. subst om.
    destruct (drain_body_below _ _ _ _ _ _ _ sq out cnt Hs Hlt) as (q1 & -> & Hs1).
    cbn [closed]. simpl in Hfuel.
    destruct (IH q1 _ _ lv (out ++ [m]) (bump cnt) Hs1 Hlv)
      as (q2 & fl2 & h2 & ms & -> & Hs2 & Hms & _); [lia|].
    exists q2, fl2, h2, (m :: ms). rewrite <- app_assoc.
    change (length ((p, Some m) :: lv)) with (S (length lv)).
    rewrite Nat.iter_succ_r. split_and!; try done.
    rewrite !fmap_cons. by f_equal.
Qed.

Lemma drained_stays fuel ticks q vb fl h sq out cnt :
  shard q vb fl h [] → cnt ≠ 0 → (0 < fuel)%nat →
  dequeueUptoSeqno ticks fuel vb sq
    {| dq := q; datach := out; dequeueCount := cnt; closed := false |}
  = Ret {| dq := q; datach := out; dequeueCount := cnt; closed := false |}.
Proof.
  intros Hs Hcnt Hfuel. induction ticks as [|ticks IH]; [done|].
  simpl. unfold on_tick.
  destruct (drain_loop_below fuel q vb fl h [] sq out cnt Hs)
    as (q' & fl' & h' & ms & -> & _ & Hms & Hq); [done | simpl; lia |].
  destruct ms; [|done]. rewrite (Hq eq_refl), app_nil_r. simpl.
  by rewrite (proj2 (Z.eqb_neq cnt 0)) by done.
Qed.

Lemma DequeueUptoSeqno_below fuel ticks q vb fl h lv sq :
  shard q vb fl h lv →
  Forall (below sq) lv →
  (length lv < fuel)%nat →
  Z.of_nat (length lv) < 2 ^ 63 →
  ∃ d, DequeueUptoSeqno (S ticks) fuel vb sq q = Ret d ∧
       Some <$> datach d = lv.*2 ∧
       nonempty vb (dq d) = Some false ∧
       closed d = bool_decide (lv = []).
Proof.
  intros Hs Hlv Hfuel Hlen. unfold DequeueUptoSeqno. simpl. unfold on_tick.
  destruct (drain_loop_below fuel q vb fl h lv sq [] 0 Hs Hlv Hfuel)
    as (q' & fl' & h' & ms & -> & Hs' & Hms & Hq).
  cbn [closed dequeueCount dq datach app].
  rewrite iter_bump, int64_wrap_small by lia.
  pose proof (shard_nonempty _ _ _ _ _ Hs') as Hne.
  rewrite bool_decide_false in Hne by (intros Hx; by apply Hx).
  destruct lv as [|pm lv].
  - simpl. eexists. split; [done|]. cbn [closed dequeueCount dq datach].
    split_and!; try done.
  - rewrite (proj2 (Z.eqb_neq _ 0)) by (simpl; lia). cbn [closed].
    erewrite drained_stays by (done || simpl; lia).
    eexists. split; [done|]. cbn [closed dequeueCount dq datach].
    split_and!; try done.
Qed.


Lemma reachable_shard q vb :
  reachable q → 0 ≤ vb < numVbuckets q → ∃ fl h lv, shard q vb fl h lv.
Proof.
  intros [shs Hwf]%reachable_well_formed Hvb.
  destruct (well_formed_lookup _ _ _ Hwf Hvb) as (fl & h & lv & _ & Hs). eauto.
Qed.

Lemma DequeueUptoSeqno_after_enqueues q vb ms sq ticks :
  reachable q → 0 ≤ vb < numVbuckets q → nonempty vb q = Some false →
  Forall (λ m, seqno (meta m) < sq) ms →
  Z.of_nat (length ms) < 2 ^ 63 →
  ∃ q1 d,
    enqueue_all (Some <$> ms) vb q = Some (None, q1) ∧
    DequeueUptoSeqno (S ticks) (S (length ms)) vb sq q1 = Ret d ∧
    datach d = ms ∧
    nonempty vb (dq d) = Some false ∧
    closed d = bool_decide (ms = []).
Proof.
  intros Hq Hvb Hempty Hms Hlen.
  destruct (reachable_shard q vb Hq Hvb) as (fl & h & lv & Hs).
  pose proof (shard_empty _ _ _ _ _ Hs Hempty) as ->.
  destruct (enqueue_all_shard _ _ _ _ _ (Some <$> ms) Hs)
    as (q1 & fl1 & lv1 & He & Hs1 & Hlv1).
  simpl in Hs1.
  assert (length lv1 = length ms) as Hl.
  { by rewrite <- (length_fmap snd lv1), Hlv1, length_fmap. }
  destruct (DequeueUptoSeqno_below (S (length ms)) ticks q1 vb fl1 h lv1 sq Hs1)
    as (d & Hd & Hout & Hne & Hcl); [| lia | lia |].
  { apply Forall_forall. intros [p om] Hin.
    assert (om ∈ lv1.*2) as Hom.
    { apply list_elem_of_fmap. by exists (p, om). }
    rewrite Hlv1 in Hom. apply list_elem_of_fmap in Hom as (m & -> & Hm).
    exists m. split; [done|]. by eapply (proj1 (Forall_forall _ _) Hms). }
  exists q1, d. split_and!; try done.
  - rewrite Hlv1 in Hout. by apply (inj (fmap Some)) in Hout.
  - rewrite Hcl. destruct lv1, ms; try done.
Qed.

(** C1. Strict FIFO per shard: on a shard with a valid id whose queue is
    empty, after the enqueues E1..En (and no dequeue in between), n
    successive calls of DequeueSingleElement return E1..En in that order. *)
Theorem fifo_per_shard q vb es :
  reachable q → 0 ≤ vb < numVbuckets q → nonempty vb q = Some false →
  ∃ q1 q2,
    enqueue_all es vb q = Some (None, q1) ∧
    dequeue_n (length es) vb q1 = Some (es, q2).
Proof.
  intros Hq Hvb Hempty.
  destruct (reachable_shard q vb Hq Hvb) as (fl & h & lv & Hs).
  pose proof (shard_empty _ _ _ _ _ Hs Hempty) as ->.
  apply (fifo_from_shard q vb fl h [] es Hs).
Qed.

Lemma fifo_per_shard_witness :
  ∃ q, NewAtomicMutationQueue 2 = Some q ∧
  ∃ q1 q2,
    enqueue_all [Some (mutation_at 1 "a"); None; Some (mutation_at 3 "c")] 1 q
    = Some (None, q1) ∧
    dequeue_n 3 1 q1
    = Some ([Some (mutation_at 1 "a"); None; Some (mutation_at 3 "c")], q2).
Proof.
  eexists. split; [vm_compute; reflexivity|].
  apply (fifo_per_shard _ 1
           [Some (mutation_at 1 "a"); None; Some (mutation_at 3 "c")]).
  - eapply (reachable_new 2); [lia | vm_compute; reflexivity].
  - simpl. lia.
  - vm_compute. reflexivity.
Defined.

(** C9. Size consistency: on a new queue, after any sequence of calls
    (on any shards) of which N are enqueues on the shard and M are
    dequeues on the shard that removed an element, GetSize of the shard
    returns N - M. *)
Theorem size_consistency N vb cs :
  0 ≤ vb < N → N < 2 ^ 16 → valid_calls N cs → enqueues vb cs < 2 ^ 63 →
  ∃ q0 removed q,
    NewAtomicMutationQueue N = Some q0 ∧
    run_calls cs vb q0 = Some (removed, q) ∧
    0 ≤ removed ≤ enqueues vb cs ∧
    GetSize vb q = Some (enqueues vb cs - removed).
Proof.
  intros Hvb HN Hcs Hlt.
  pose proof (fresh_queue_well_formed N ltac:(lia)) as Hwf.
  edestruct (run_calls_well_formed cs vb _ _ [] (Z.to_nat vb) [] Hwf)
    as (removed & q & shs & fl & h & lv & Hrun & Hwf' & Hlook & Hrem & Hlen);
    [done | | lia |].
  { rewrite list_lookup_fmap, lookup_seq_lt by lia. done. }
  eexists _, removed, q. split; [apply NewAtomicMutationQueue_fresh|].
  split; [done|]. simpl in Hlen. split; [lia|].
  pose proof (wf_shard _ _ Hwf' _ _ _ _ Hlook) as Hs.
  rewrite Z2Nat.id in Hs by lia.
  unfold GetSize. rewrite (shard_size _ _ _ _ _ Hs).
  f_equal. rewrite int64_wrap_small by lia. lia.
Qed.

Lemma size_consistency_witness :
  ∃ q0 removed q,
    NewAtomicMutationQueue 2 = Some q0 ∧
    run_calls [CallEnqueue 1 None; CallDequeue 0; CallEnqueue 0 None;
               CallDequeue 1; CallEnqueue 1 None] 1 q0 = Some (removed, q) ∧
    0 ≤ removed ≤ 2 ∧
    GetSize 1 q = Some (2 - removed).
Proof.
  apply (size_consistency 2 1
           [CallEnqueue 1 None; CallDequeue 0; CallEnqueue 0 None;
            CallDequeue 1; CallEnqueue 1 None]).
  - lia.
  - lia.
  - repeat constructor; simpl; lia.
  - vm_compute. reflexivity.
Defined.

(** C7 (the code departs from it). After Enqueue(A) on a new queue,
    PeekHead returns nil although DequeueSingleElement would return A;
    after Enqueue(A), Enqueue(B) and one dequeue, PeekHead returns A,
    which is gone, although the next dequeue returns B.  PeekTail returns
    the mutation enqueued last. *)
Theorem PeekHead_reads_the_node_in_front :
  ∃ q0 q1 q2 q3 q4,
    NewAtomicMutationQueue 1 = Some q0 ∧
    Enqueue (Some (mutation_at 1 "A")) 0 q0 = Some (None, q1) ∧
    PeekHead 0 q1 = Some None ∧
    PeekTail 0 q1 = Some (Some (mutation_at 1 "A")) ∧
    Enqueue (Some (mutation_at 2 "B")) 0 q1 = Some (None, q2) ∧
    DequeueSingleElement 0 q2 = Some (Some (mutation_at 1 "A"), q3) ∧
    PeekHead 0 q3 = Some (Some (mutation_at 1 "A")) ∧
    PeekTail 0 q3 = Some (Some (mutation_at 2 "B")) ∧
    DequeueSingleElement 0 q3 = Some (Some (mutation_at 2 "B"), q4).
Proof.
  do 5 eexists.
  repeat (split; [vm_compute; reflexivity|]). vm_compute. reflexivity.
Qed.

(** C2 (the code departs from it). With the mutations of sequence
    numbers 1, 2, 2, 3, 5 queued, DequeueUptoSeqno(shard, 2) sends the
    first two (1 and 2) and closes the channel: the second mutation of
    sequence number 2 stays in the queue, with 3 and 5. *)
Theorem DequeueUptoSeqno_stops_at_the_first_equal :
  ∃ q0 q d,
    NewAtomicMutationQueue 1 = Some q0 ∧
    enqueue_all
      (Some <$> [mutation_at 1 "a"; mutation_at 2 "b"; mutation_at 2 "c";
                 mutation_at 3 "d"; mutation_at 5 "e"]) 0 q0 = Some (None, q) ∧
    DequeueUptoSeqno 1 6 0 2 q = Ret d ∧
    datach d = [mutation_at 1 "a"; mutation_at 2 "b"] ∧
    closed d = true ∧
    fst <$> dequeue_n 3 0 (dq d)
    = Some (Some <$> [mutation_at 2 "c"; mutation_at 3 "d"; mutation_at 5 "e"]).
Proof.
  do 3 eexists.
  repeat (split; [vm_compute; reflexivity|]). vm_compute. reflexivity.
Qed.

(** C4 (as amended). With no further enqueue, on a shard whose queued
    mutations all have sequence numbers below the watermark: after any
    number of polls (one at least) all of them have been sent, the queue
    is empty, and the channel is closed if and only if nothing was sent;
    once a mutation has been sent the polling goes on without end. *)
Theorem DequeueUptoSeqno_closes_only_if_nothing_sent q vb ms sq ticks :
  reachable q → 0 ≤ vb < numVbuckets q → nonempty vb q = Some false →
  Forall (λ m, seqno (meta m) < sq) ms →
  Z.of_nat (length ms) < 2 ^ 63 →
  ∃ q1 d,
    enqueue_all (Some <$> ms) vb q = Some (None, q1) ∧
    DequeueUptoSeqno (S ticks) (S (length ms)) vb sq q1 = Ret d ∧
    datach d = ms ∧
    nonempty vb (dq d) = Some false ∧
    closed d = bool_decide (ms = []).
Proof. apply DequeueUptoSeqno_after_enqueues. Qed.

Lemma DequeueUptoSeqno_closes_only_if_nothing_sent_witness :
  ∃ q, NewAtomicMutationQueue 1 = Some q ∧
  ∃ q1 d,
    enqueue_all (Some <$> [mutation_at 1 "a"; mutation_at 3 "b"]) 0 q
    = Some (None, q1) ∧
    DequeueUptoSeqno 7 3 0 5 q1 = Ret d ∧
    datach d = [mutation_at 1 "a"; mutation_at 3 "b"] ∧
    nonempty 0 (dq d) = Some false ∧
    closed d = false.
Proof.
  eexists. split; [vm_compute; reflexivity|].
  apply (DequeueUptoSeqno_closes_only_if_nothing_sent _ 0
           [mutation_at 1 "a"; mutation_at 3 "b"] 5 6).
  - eapply (reachable_new 1); [lia | vm_compute; reflexivity].
  - simpl. lia.
  - vm_compute. reflexivity.
  - repeat constructor; simpl; lia.
  - simpl. lia.
Defined.

(** C4 (as stated, refuted). One mutation of sequence number 1 is queued
    and the watermark is 5: the first poll sends it and empties the
    queue, the watermark has not been reached, no enqueue follows, and
    the channel is closed after no number of polls. *)
Lemma DequeueUptoSeqno_polls_forever :
  ∃ q0 q1,
    NewAtomicMutationQueue 1 = Some q0 ∧
    enqueue_all [Some (mutation_at 1 "a")] 0 q0 = Some (None, q1) ∧
    (∃ d, DequeueUptoSeqno 1 2 0 5 q1 = Ret d ∧
          datach d = [mutation_at 1 "a"] ∧
          nonempty 0 (dq d) = Some false) ∧
    ¬ ∃ ticks d, DequeueUptoSeqno ticks 2 0 5 q1 = Ret d ∧ closed d = true.
Proof.
  do 2 eexists. split; [vm_compute; reflexivity|].
  split; [vm_compute; reflexivity|].
  split.
  { eexists. repeat (split; [vm_compute; reflexivity|]).
    vm_compute. reflexivity. }
  intros (ticks & d & Hd & Hclosed).
  destruct ticks as [|ticks].
  { vm_compute in Hd. by simplify_eq. }
  edestruct (DequeueUptoSeqno_after_enqueues (fresh_queue 1 1 1) 0
               [mutation_at 1 "a"] 5 ticks)
    as (q1 & d' & He & Hd' & _ & _ & Hcl).
  - eapply (reachable_new 1); [lia | vm_compute; reflexivity].
  - simpl. lia.
  - vm_compute. reflexivity.
  - repeat constructor; simpl; lia.
  - simpl. lia.
  - vm_compute in He. simplify_eq.
    change (S (length [mutation_at 1 "a"])) with 2%nat in Hd'.
    rewrite Hd in Hd'. simplify_eq. by rewrite Hcl in Hclosed.
Qed.

End MutationQueueFacts.

(** ** Facts about the snapshot info container *)
Module SnapshotLedgerFacts.
Import SnapshotLedger.
Import container_list.

(** *** Identities of elements *)

Lemma distinct_New : distinct New.
Proof. split; simpl; [apply NoDup_nil_2 | constructor]. Qed.

Lemma distinct_PushBack v l : distinct l → distinct (PushBack v l).
Proof.
  intros [Hnd Hlt]. split; simpl.
  - rewrite fmap_app. apply NoDup_app. split; [done|]. split; [|apply NoDup_singleton].
    intros x Hx ->%list_elem_of_singleton.
    apply list_elem_of_fmap in Hx as (e & He & Hin).
    apply (proj1 (Forall_forall _ _) Hlt) in Hin. simpl in *. lia.
  - apply Forall_app. split; [|by repeat constructor].
    eapply Forall_impl; [done|]. simpl. lia.
Qed.

Lemma distinct_PushFront v l : distinct l → distinct (PushFront v l).
Proof.
  intros [Hnd Hlt]. split; simpl.
  - apply NoDup_cons. split; [|done].
    intros (e & He & Hin)%list_elem_of_fmap.
    apply (proj1 (Forall_forall _ _) Hlt) in Hin. simpl in *. lia.
  - constructor; [simpl; lia|]. eapply Forall_impl; [done|]. simpl. lia.
Qed.

Lemma distinct_Remove e l : distinct l → distinct (Remove e l).
Proof.
  intros [Hnd Hlt]. split; simpl.
  - induction (elems l) as [|x xs IH]; simpl; [done|].
    apply NoDup_cons in Hnd as [Hx Hnd]. apply Forall_cons in Hlt as [_ Hlt].
    destruct (negb (eid x =? eid e)%nat); [|by apply IH].
    rewrite fmap_cons. apply NoDup_cons. split; [|by apply IH].
    intros (y & Hy & Hin)%list_elem_of_fmap. apply Hx.
    apply list_elem_of_fmap. exists y. split; [done|].
    apply list_elem_of_In, filter_In in Hin as [Hin _]. by apply list_elem_of_In.
  - apply Forall_forall. intros x Hin.
    apply list_elem_of_In, filter_In in Hin as [Hin _].
    apply (proj1 (Forall_forall _ _) Hlt). by apply list_elem_of_In.
Qed.

Lemma distinct_RemoveRecentThanTS_from fuel ts e l :
  distinct l → distinct (RemoveRecentThanTS_from fuel ts e l).
Proof.
  revert e l. induction fuel as [|fuel IH]; intros e l Hl; [by destruct e|].
  destruct e as [e|]; [|done]. simpl. apply IH.
  destruct (GreaterThan _ _); [by apply distinct_Remove | done].
Qed.

Lemma built_distinct sc : built sc → distinct (snapshotList sc).
Proof.
  induction 1 as [infos | s sc _ IH | sc _ IH | ts sc _ IH | sc _ IH].
  - unfold NewSnapshotInfoContainer. cbn [snapshotList].
    generalize New distinct_New.
    induction infos as [|i infos IH]; intros l Hl; simpl; [done|].
    apply IH. by apply distinct_PushBack.
  - by apply distinct_PushFront.
  - unfold RemoveOldest. destruct (Back (snapshotList sc)); simpl; [|done].
    by apply distinct_Remove.
  - by apply distinct_RemoveRecentThanTS_from.
  - split; simpl; [apply NoDup_nil_2 | constructor].
Qed.

Lemma Remove_back es e fr :
  NoDup (eid <$> es ++ [e]) →
  Remove e {| elems := es ++ [e]; fresh := fr |} = {| elems := es; fresh := fr |}.
Proof.
  intros Hnd. unfold Remove. simpl. f_equal.
  rewrite fmap_app in Hnd. apply NoDup_app in Hnd as (_ & Hnd & _).
  rewrite List.filter_app. simpl. rewrite Nat.eqb_refl. simpl. rewrite app_nil_r.
  induction es as [|x es IH]; simpl; [done|].
  assert (eid x ≠ eid e) as Hne.
  { intros Heq. apply (Hnd (eid x)); [by left | rewrite Heq; by left]. }
  rewrite (proj2 (Nat.eqb_neq _ _) Hne). simpl. f_equal. apply IH.
  intros y Hy. apply Hnd. by right.
Qed.

(** C10. RemoveOldest never returns an error; on an empty ledger it
    changes nothing; on any other ledger it removes the back (oldest)
    entry and no other. *)
Theorem RemoveOldest_removes_the_back sc :
  built sc →
  (RemoveOldest sc).1 = None ∧
  (SnapshotLedger.Len sc = O → (RemoveOldest sc).2 = sc) ∧
  (∀ es e, elems (snapshotList sc) = es ++ [e] →
           elems (snapshotList (RemoveOldest sc).2) = es ∧
           SnapshotLedger.List (RemoveOldest sc).2 = Value <$> es).
Proof.
  intros [Hnd _]%built_distinct. destruct sc as [[es fr]]. simpl in *.
  split; [done|]. split.
  - unfold SnapshotLedger.Len, Len, RemoveOldest, Back. simpl.
    intros Hlen. by destruct es.
  - intros es' e ->. unfold RemoveOldest, Back, SnapshotLedger.List.
    cbn [snapshotList elems]. rewrite last_snoc. cbn [snd snapshotList].
    by rewrite Remove_back.
Qed.

Lemma RemoveOldest_removes_the_back_witness :
  (RemoveOldest ledger321).1 = None ∧
  SnapshotLedger.List (RemoveOldest ledger321).2 = [snapshot_at T3; snapshot_at T2].
Proof.
  destruct (RemoveOldest_removes_the_back ledger321) as (Herr & _ & Hback).
  - apply built_new.
  - split; [exact Herr|].
    exact (proj2 (Hback [ {| eid := 0; Value := snapshot_at T3 |};
                          {| eid := 1; Value := snapshot_at T2 |} ]
                        {| eid := 2; Value := snapshot_at T1 |} eq_refl)).
Defined.

(** C5 (the code departs from it). With the entries of T3, T2, T1 held
    newest first, GetOlderThanTS(T2) looks at the front entry (T3) only
    and returns nil, not the entry of T2, which GetEqualToTS finds. *)
Theorem GetOlderThanTS_looks_at_the_front_only :
  SnapshotLedger.List ledger321 = [snapshot_at T3; snapshot_at T2; snapshot_at T1] ∧
  GetOlderThanTS T2 ledger321 = None ∧
  GetEqualToTS T2 ledger321 = Some (snapshot_at T2) ∧
  GetOlderThanTS T3 ledger321 = Some (snapshot_at T3).
Proof.
  repeat (split; [vm_compute; reflexivity|]). vm_compute. reflexivity.
Qed.

(** C6 (the code departs from it). On the ledger of T3, T2, T1,
    RemoveRecentThanTS(T1) removes the entry of T3 and stops there: the
    element it has removed has no next element.  The entry of T2, newer
    than T1, stays. *)
Theorem RemoveRecentThanTS_stops_at_the_first_removal :
  SnapshotLedger.List ledger321 = [snapshot_at T3; snapshot_at T2; snapshot_at T1] ∧
  GreaterThan (getStabilityTSFromTsVbuuid T2) (getStabilityTSFromTsVbuuid T1)
  = true ∧
  (RemoveRecentThanTS T1 ledger321).1 = None ∧
  SnapshotLedger.List (RemoveRecentThanTS T1 ledger321).2 = [snapshot_at T2; snapshot_at T1].
Proof.
  repeat (split; [vm_compute; reflexivity|]). vm_compute. reflexivity.
Qed.

End SnapshotLedgerFacts.

(** ** Facts about the KV sender *)
Module KVSenderFacts.
Import KVSender.
Local Close Scope Z_scope.

Section Sender.

Context `{TsVbuuidMethods}.
Variable handoff : nat → error → error.
Variable k : cluster.

(** *** The retry helper *)

Lemma attempts_length {V} (fn : nat → error → V → error * V) budget r prev s :
  (length (attempts handoff fn budget r prev s).1 ≤ budget)%nat.
Proof.
  revert r prev s. induction budget as [|b IH]; intros r prev s; simpl; [lia|].
  destruct (fn r (handoff r prev) s) as [[e|] s']; simpl; [|lia].
  specialize (IH (S r) (Some e) s').
  destruct (attempts handoff fn b (S r) (Some e) s'). simpl in *. lia.
Qed.

(** An attempt that is logged returned what the function gives for the
    error it was handed (functions without variables of their own). *)
Lemma attempts_lookup (fn : nat → error → unit → error * unit)
    budget r prev i given e :
  (attempts handoff fn budget r prev tt).1 !! i = Some (given, e) →
  (fn (r + i)%nat given tt).1 = e.
Proof.
  revert r prev i. induction budget as [|b IH]; intros r prev i; simpl; [done|].
  destruct (fn r (handoff r prev) tt) as [[e'|] []] eqn:Hfn; simpl.
  - specialize (IH (S r) (Some e')).
    destruct (attempts handoff fn b (S r) (Some e') tt) as [log []]. simpl in *.
    destruct i as [|i]; simpl.
    + intros [= <- <-]. by rewrite Nat.add_0_r, Hfn.
    + intros Hi. replace (r + S i)%nat with (S r + i)%nat by lia. by eapply IH.
  - destruct i as [|i]; simpl; [|done].
    intros [= <- <-]. by rewrite Nat.add_0_r, Hfn.
Qed.

(** When every attempt fails, the whole budget is used and the last
    attempt's error is the result. *)
Lemma attempts_all_fail (fn : nat → error → unit → error * unit) budget r prev :
  (∀ i given, (i < budget)%nat → is_Some (fn (r + i)%nat given tt).1) →
  length (attempts handoff fn budget r prev tt).1 = budget ∧
  (budget ≠ O →
   ∃ given e, last (attempts handoff fn budget r prev tt).1 = Some (given, Some e)).
Proof.
  revert r prev. induction budget as [|b IH]; intros r prev Hfail; simpl; [done|].
  destruct (Hfail O (handoff r prev) ltac:(lia)) as [e He].
  rewrite Nat.add_0_r in He.
  destruct (fn r (handoff r prev) tt) as [e' []]. simpl in He. subst e'.
  destruct (IH (S r) (Some e)) as [Hlen Hlast].
  { intros i given Hi. replace (S r + i)%nat with (r + S i)%nat by lia.
    apply Hfail. lia. }
  destruct (attempts handoff fn b (S r) (Some e) tt) as [log []]. simpl in *.
  split; [by rewrite Hlen|]. intros _.
  destruct b as [|b].
  - destruct log; [|done]. simpl. eauto.
  - destruct Hlast as (given & e2 & Hl); [done|].
    exists given, e2. rewrite <- Hl. destruct log; [done|]. done.
Qed.

Lemma fanOut_Done fn addrs :
  getAllProjectorAddrs k = Done addrs →
  let log := (attempts handoff (fn addrs) MAX_KV_REQUEST_RETRY 0 None tt).1 in
  rounds (fanOut handoff k fn) = log ∧
  response (fanOut handoff k fn)
  = match from_option snd None (last log) with
    | Some e => fatal e
    | None => MsgSuccess
    end.
Proof.
  intros Haddrs. unfold fanOut, Run. rewrite Haddrs.
  by destruct (attempts handoff (fn addrs) MAX_KV_REQUEST_RETRY 0 None tt) as [log []].
Qed.

(** *** Missing topics *)

Lemma removeFn_only_topic_missing send addrs r err :
  onlyTopicMissing k send addrs r →
  (removeFn k send addrs r err tt).1 = err.
Proof.
  unfold removeFn, onlyTopicMissing. simpl.
  induction addrs as [|addr addrs IH]; intros Honly; [done|]. simpl.
  rewrite <- IH at 2.
  - f_equal. unfold execWithStopCh.
    destruct (stopped k r addr) eqn:Hstop; [done|].
    destruct (send r addr) as [ret|] eqn:Hsend; [|done].
    by rewrite (Honly addr ret) by (done || by left).
  - intros a ret Ha. apply Honly. by right.
Qed.

Lemma addFn_keeps_error addrs r e :
  is_Some (addFn k addrs r (Some e) tt).1.
Proof.
  unfold addFn. simpl. revert e.
  induction addrs as [|addr addrs IH]; intros e; simpl; [by eexists|].
  unfold execWithStopCh at 2.
  destruct (stopped k r addr); [apply IH|].
  destruct (sendAddInstancesRequest k r addr); apply IH.
Qed.




(** *** Rollback *)



Lemma openRequest_rollback bucket r addrs s :
  rollbackTs (fold_left (λ s addr, openRequest k bucket r addr s) addrs s).2
  = fold_left (rollStep k bucket r) addrs (rollbackTs s.2).
Proof.
  revert s. induction addrs as [|addr addrs IH]; intros [err v]; [done|].
  simpl. rewrite IH. f_equal. unfold openRequest, execWithStopCh, rollStep.
  destruct (stopped k r addr); [done|].
  by destruct (sendMutationTopicRequest k r addr).
Qed.



Lemma openFn_rollback bucket vbnos addrs r err v :
  rollbackTs v = None →
  rollbackTs (openFn k bucket vbnos addrs r err v).2
  = unionedRollback k bucket addrs r ∧
  (is_Some (unionedRollback k bucket addrs r) →
   (openFn k bucket vbnos addrs r err v).1 = None).
Proof.
  intros Hv. unfold openFn.
  pose proof (openRequest_rollback bucket r addrs (err, v)) as Hfold.
  destruct (fold_left (λ s addr, openRequest k bucket r addr s) addrs (err, v))
    as [err' v'].
  simpl in Hfold. rewrite Hv in Hfold. fold (unionedRollback k bucket addrs r) in Hfold.
  rewrite <- Hfold.
  destruct (rollbackTs v') as [ts|] eqn:Hts; simpl; [by rewrite Hts|].
  split; [|by intros [x Hx]].
  destruct err' as [e|]; simpl; [done|].
  by destruct (match activeTs v' with
               | Some a => negb (Len a =? Z.of_nat (length vbnos))%Z
               | None => true
               end).
Qed.




End Sender.




End KVSenderFacts.

(** ** More facts about the mutation queue *)
Module MutationQueueMore.
Import MutationQueue MutationQueueFacts MutationQueueStream.

(** *** Lengths of the per-shard slices *)

Lemma assign_length {A} (s s' : list A) vb x :
  assign s vb x = Some s' → length s' = length s.
Proof.
  unfold assign. destruct (vb <? 0); [done|].
  destruct (decide _); [|done]. intros [= <-]. by rewrite length_insert.
Qed.

Lemma store_slices p nd q q' :
  store p nd q = Some q' →
  head q' = head q ∧ tail q' = tail q ∧ free q' = free q ∧ size q' = size q ∧
  numVbuckets q' = numVbuckets q.
Proof.
  unfold store. destruct p as [a|]; [|done]. simpl.
  destruct (decide _); [|done]. by intros [= <-].
Qed.

Lemma store_mutation_slices p m q q' :
  store_mutation p m q = Some q' →
  head q' = head q ∧ tail q' = tail q ∧ free q' = free q ∧ size q' = size q ∧
  numVbuckets q' = numVbuckets q.
Proof.
  unfold store_mutation. destruct (deref q p); [|done]. apply store_slices.
Qed.

Lemma store_next_slices p n q q' :
  store_next p n q = Some q' →
  head q' = head q ∧ tail q' = tail q ∧ free q' = free q ∧ size q' = size q ∧
  numVbuckets q' = numVbuckets q.
Proof.
  unfold store_next. destruct (deref q p); [|done]. apply store_slices.
Qed.

Lemma allocNode_slices vb q n q' :
  allocNode vb q = Some (n, q') →
  head q' = head q ∧ tail q' = tail q ∧ size q' = size q ∧
  numVbuckets q' = numVbuckets q.
Proof.
  unfold allocNode, popFreeList.
  destruct (index (free q) vb) as [f|]; [|done]. qsimpl.
  destruct (index (head q) vb) as [h|]; [|done]. qsimpl.
  destruct (decide (f ≠ h)); [|by intros [= <- <-]].
  destruct (deref q f) as [fn|]; [|done]. qsimpl.
  destruct (assign (free q) vb (next fn)) as [fl|]; [|done]. qsimpl.
  destruct (store_mutation f None _) as [q1|] eqn:H1; [|done]. qsimpl.
  destruct (store_next f None q1) as [q2|] eqn:H2; [|done]. qsimpl.
  intros [= <- <-].
  apply store_mutation_slices in H1 as (Ha1 & Hb1 & _ & Hc1 & Hd1).
  apply store_next_slices in H2 as (Ha2 & Hb2 & _ & Hc2 & Hd2).
  rewrite Ha2, Hb2, Hc2, Hd2, Ha1, Hb1, Hc1, Hd1. done.
Qed.

Lemma Enqueue_slices m vb q err q' :
  Enqueue m vb q = Some (err, q') →
  length (head q') = length (head q) ∧ length (tail q') = length (tail q) ∧
  length (size q') = length (size q).
Proof.
  unfold Enqueue.
  destruct ((vb <? 0) || (vb >? Vbucket_wrap (numVbuckets q - 1)));
    [by intros [= <- <-]|].
  destruct (allocNode vb q) as [[n q1]|] eqn:H1; [|done]. qsimpl.
  destruct (store_mutation n m q1) as [q2|] eqn:H2; [|done]. qsimpl.
  destruct (store_next n None q2) as [q3|] eqn:H3; [|done]. qsimpl.
  destruct (index (tail q3) vb) as [tl|]; [|done]. qsimpl.
  destruct (store_next tl n q3) as [q4|] eqn:H4; [|done]. qsimpl.
  destruct (deref q4 tl) as [tnd|]; [|done]. qsimpl.
  destruct (assign (tail q4) vb (next tnd)) as [t|] eqn:Ht; [|done]. qsimpl.
  destruct (index (size q4) vb) as [sz|]; [|done]. qsimpl.
  destruct (assign (size q4) vb (int64_wrap (sz + 1))) as [s|] eqn:Hs; [|done].
  qsimpl. intros [= <- <-]. qsimpl.
  apply assign_length in Ht, Hs. rewrite Ht, Hs.
  apply allocNode_slices in H1 as (Ha1 & Hb1 & Hc1 & _).
  apply store_mutation_slices in H2 as (Ha2 & Hb2 & _ & Hc2 & _).
  apply store_next_slices in H3 as (Ha3 & Hb3 & _ & Hc3 & _).
  apply store_next_slices in H4 as (Ha4 & Hb4 & _ & Hc4 & _).
  rewrite Ha4, Hb4, Hc4, Ha3, Hb3, Hc3, Ha2, Hb2, Hc2, Ha1, Hb1, Hc1. done.
Qed.

Lemma DequeueSingleElement_slices vb q m q' :
  DequeueSingleElement vb q = Some (m, q') →
  length (head q') = length (head q) ∧ tail q' = tail q ∧
  length (size q') = length (size q) ∧ numVbuckets q' = numVbuckets q.
Proof.
  unfold DequeueSingleElement.
  destruct (index (head q) vb) as [h|]; [|done]. qsimpl.
  destruct (index (tail q) vb) as [t|]; [|done]. qsimpl.
  destruct (decide (h ≠ t)); [|by intros [= <- <-]].
  destruct (deref q h) as [hd|]; [|done]. qsimpl.
  destruct (deref q (next hd)) as [nx|]; [|done]. qsimpl.
  destruct (assign (head q) vb (next hd)) as [hs|] eqn:Hh; [|done]. qsimpl.
  destruct (index (size q) vb) as [sz|]; [|done]. qsimpl.
  destruct (assign (size q) vb (int64_wrap (sz + -1))) as [s|] eqn:Hs; [|done].
  qsimpl. intros [= <- <-]. qsimpl.
  apply assign_length in Hh, Hs. by rewrite Hh, Hs.
Qed.

Lemma slices_DequeueSingleElement vb q m q' :
  slices q → DequeueSingleElement vb q = Some (m, q') → slices q'.
Proof.
  intros [Ht Hs] (Hh' & Ht' & Hs' & _)%DequeueSingleElement_slices.
  split; congruence.
Qed.

Lemma slices_drain_loop fuel vb sq d d' :
  slices (dq d) → drain_loop fuel vb sq d = Ret d' → slices (dq d').
Proof.
  revert d. induction fuel as [|fuel IH]; intros d Hsl; simpl; [done|].
  destruct (nonempty vb (dq d)) as [[]|] eqn:Hne; [| by intros [= <-] | done].
  destruct (drain_body vb sq d) as [d1|] eqn:Hbody; [|done].
  assert (slices (dq d1)) as Hsl1.
  { destruct (drain_body_dequeues vb sq d d1 Hne Hbody) as [->|[m Hm]]; [done|].
    by eapply slices_DequeueSingleElement. }
  destruct (closed d1); [by intros [= <-] | by apply IH].
Qed.

Lemma slices_dequeueUptoSeqno ticks fuel vb sq d d' :
  slices (dq d) → dequeueUptoSeqno ticks fuel vb sq d = Ret d' → slices (dq d').
Proof.
  revert d. induction ticks as [|ticks IH]; intros d Hsl; simpl.
  { by intros [= <-]. }
  unfold on_tick.
  destruct (drain_loop fuel vb sq d) as [| |d1] eqn:Hloop; [done..|].
  pose proof (slices_drain_loop fuel vb sq d d1 Hsl Hloop) as Hsl1.
  destruct (closed d1) eqn:Hc1.
  { rewrite Hc1. by intros [= <-]. }
  destruct (dequeueCount d1 =? 0); cbn [closed].
  { by intros [= <-]. }
  rewrite Hc1. by apply IH.
Qed.

Lemma reachable_slices q : reachable q → slices q.
Proof.
  induction 1 as [n q Hn Hnew | q m vb err q' _ IH He
                 | q vb m q' _ IH Hd | q ticks fuel vb sq d _ IH Hd].
  - rewrite NewAtomicMutationQueue_fresh in Hnew. simplify_eq.
    split; simpl; rewrite ?Nat.sub_diag; simpl;
      by rewrite ?app_nil_r, ?length_fmap, ?length_seq, ?length_replicate.
  - destruct IH as [Ht Hs].
    apply Enqueue_slices in He as (Hh' & Ht' & Hs'). split; congruence.
  - by eapply slices_DequeueSingleElement.
  - unfold DequeueUptoSeqno in Hd. by eapply slices_dequeueUptoSeqno in Hd.
Qed.

Lemma reachable_lengths q :
  reachable q →
  numVbuckets q < 2 ^ 16 ∧
  Z.of_nat (length (head q)) = numVbuckets q ∧
  Z.of_nat (length (tail q)) = numVbuckets q ∧
  Z.of_nat (length (size q)) = numVbuckets q.
Proof.
  intros Hq. destruct (reachable_slices q Hq) as [Ht Hs].
  destruct (reachable_well_formed q Hq) as [shs [Hlen Hu16 Hhead _ _ _]].
  rewrite Ht, Hs, Hhead. done.
Qed.

Lemma index_out_of_range {A} (s : list A) vb n :
  Z.of_nat (length s) = n → ¬ (0 ≤ vb < n) → index s vb = None.
Proof.
  intros Hlen Hvb. unfold index. destruct (Z.ltb_spec vb 0); [done|].
  apply lookup_ge_None_2. lia.
Qed.

(** *** The queues of the examples *)

Lemma reachable_enqueue_all q ms vb err q' :
  reachable q → enqueue_all ms vb q = Some (err, q') → reachable q'.
Proof.
  revert q. induction ms as [|m ms IH]; intros q Hq; simpl.
  { by intros [= <- <-]. }
  destruct (Enqueue m vb q) as [[e q1]|] eqn:He; [|done]. qsimpl.
  pose proof (reachable_enqueue _ _ _ _ _ Hq He) as Hq1.
  destruct e; [by intros [= <- <-] | by apply IH].
Qed.

Lemma queue_ab_reachable : reachable queue_ab.
Proof.
  apply (reachable_enqueue_all (fresh_queue 1 1 1)
           [Some (mutation_at 1 "a"); Some (mutation_at 2 "b")] 0 None).
  - apply (reachable_new 1); [lia | reflexivity].
  - vm_compute. reflexivity.
Qed.

(** *** The new queue *)

(** X1. A new queue of n shards (n a uint16) has n shards, all empty:
    on every shard GetSize is 0, PeekHead, PeekTail and
    DequeueSingleElement return nil, and the dequeue changes nothing. *)
Theorem NewAtomicMutationQueue_is_empty n :
  0 ≤ n < 2 ^ 16 →
  ∃ q, NewAtomicMutationQueue n = Some q ∧
       GetNumVbuckets q = n ∧
       ∀ vb, 0 ≤ vb < n →
         GetSize vb q = Some 0 ∧
         PeekHead vb q = Some None ∧
         PeekTail vb q = Some None ∧
         DequeueSingleElement vb q = Some (None, q).
Proof.
  intros Hn. eexists. split; [apply NewAtomicMutationQueue_fresh|].
  split; [done|]. intros vb Hvb.
  pose proof (fresh_queue_shard n vb Hvb ltac:(lia)) as Hs.
  destruct (Peek_empty _ _ _ _ Hs) as [Ht Hh].
  split_and!; [| done | done | by eapply DequeueSingleElement_empty].
  unfold GetSize. by rewrite (shard_size _ _ _ _ _ Hs).
Qed.

Lemma NewAtomicMutationQueue_is_empty_witness :
  ∃ q, NewAtomicMutationQueue 3 = Some q ∧
       GetNumVbuckets q = 3 ∧
       ∀ vb, 0 ≤ vb < 3 →
         GetSize vb q = Some 0 ∧
         PeekHead vb q = Some None ∧
         PeekTail vb q = Some None ∧
         DequeueSingleElement vb q = Some (None, q).
Proof. apply (NewAtomicMutationQueue_is_empty 3). lia. Defined.

(** *** Shard ids out of range *)

(** X2. On a queue with at least one shard, Enqueue returns the error
    "vbucket out of range", and leaves the queue as it is, exactly when the
    shard id is not below numVbuckets; for every other shard id it returns
    nil (it does not panic). *)
Theorem Enqueue_rejects_shards_out_of_range q m vb :
  reachable q → 0 < numVbuckets q →
  (0 ≤ vb < numVbuckets q → ∃ q', Enqueue m vb q = Some (None, q')) ∧
  (¬ (0 ≤ vb < numVbuckets q) →
   Enqueue m vb q = Some (Some "vbucket out of range"%string, q)).
Proof.
  intros Hq Hn. destruct (reachable_lengths q Hq) as (Hu16 & _). split.
  - intros Hvb. destruct (reachable_shard q vb Hq Hvb) as (fl & h & lv & Hs).
    destruct (Enqueue_shard _ _ _ _ _ m Hs) as (q' & _ & _ & He & _). eauto.
  - intros Hvb. unfold Enqueue, Vbucket_wrap. rewrite Z.mod_small by lia.
    destruct (Z.ltb_spec vb 0); [done|].
    rewrite Z.gtb_ltb. destruct (Z.ltb_spec (numVbuckets q - 1) vb); [done|lia].
Qed.

Lemma Enqueue_rejects_shards_out_of_range_witness :
  (∃ q', Enqueue None 1 (fresh_queue 2 2 2) = Some (None, q')) ∧
  Enqueue None 2 (fresh_queue 2 2 2)
  = Some (Some "vbucket out of range"%string, fresh_queue 2 2 2).
Proof.
  destruct (Enqueue_rejects_shards_out_of_range (fresh_queue 2 2 2) None 1
              (reachable_new 2 _ ltac:(lia) eq_refl) ltac:(simpl; lia))
    as [Hin _].
  destruct (Enqueue_rejects_shards_out_of_range (fresh_queue 2 2 2) None 2
              (reachable_new 2 _ ltac:(lia) eq_refl) ltac:(simpl; lia))
    as [_ Hout].
  split; [apply Hin | apply Hout]; simpl; lia.
Defined.

Lemma DequeueSingleElement_out_of_range q vb :
  reachable q → ¬ (0 ≤ vb < numVbuckets q) → DequeueSingleElement vb q = None.
Proof.
  intros Hq Hvb. destruct (reachable_lengths q Hq) as (_ & Hh & _).
  unfold DequeueSingleElement. by rewrite (index_out_of_range _ _ _ Hh Hvb).
Qed.

Lemma GetSize_out_of_range q vb :
  reachable q → ¬ (0 ≤ vb < numVbuckets q) → GetSize vb q = None.
Proof.
  intros Hq Hvb. destruct (reachable_lengths q Hq) as (_ & _ & _ & Hs).
  unfold GetSize. apply (index_out_of_range _ _ _ Hs Hvb).
Qed.

(** X3. The other calls do not check the shard id: with a shard id that
    is not below numVbuckets, DequeueSingleElement, PeekHead, PeekTail,
    GetSize, DequeueUptoSeqno (at its first poll) and dequeue panic on the
    index out of range. *)
Theorem shard_out_of_range_panics q vb :
  reachable q → ¬ (0 ≤ vb < numVbuckets q) →
  DequeueSingleElement vb q = None ∧
  PeekHead vb q = None ∧
  PeekTail vb q = None ∧
  GetSize vb q = None ∧
  (∀ ticks fuel sq, DequeueUptoSeqno (S ticks) (S fuel) vb sq q = Panic) ∧
  (∀ fuel out, dequeue (S fuel) vb q out = Panic).
Proof.
  intros Hq Hvb. destruct (reachable_lengths q Hq) as (_ & Hh & _).
  pose proof (index_out_of_range _ _ _ Hh Hvb) as Hhead.
  pose proof (DequeueSingleElement_out_of_range q vb Hq Hvb) as Hd.
  split_and!; try done.
  - unfold PeekHead. by rewrite Hhead.
  - unfold PeekTail. by rewrite Hhead.
  - by apply GetSize_out_of_range.
  - intros ticks fuel sq. unfold DequeueUptoSeqno. simpl. unfold on_tick. simpl.
    unfold nonempty. by rewrite Hhead.
  - intros fuel out. simpl. by rewrite Hd.
Qed.

Lemma shard_out_of_range_panics_witness :
  DequeueSingleElement 2 (fresh_queue 2 2 2) = None ∧
  PeekHead 2 (fresh_queue 2 2 2) = None ∧
  PeekTail 2 (fresh_queue 2 2 2) = None ∧
  GetSize 2 (fresh_queue 2 2 2) = None ∧
  (∀ ticks fuel sq,
     DequeueUptoSeqno (S ticks) (S fuel) 2 sq (fresh_queue 2 2 2) = Panic) ∧
  (∀ fuel out, dequeue (S fuel) 2 (fresh_queue 2 2 2) out = Panic).
Proof.
  apply (shard_out_of_range_panics (fresh_queue 2 2 2) 2).
  - apply (reachable_new 2); [lia | reflexivity].
  - simpl. lia.
Defined.

(** *** What the interface shows of a shard *)

Lemma dequeue_n_shard_any q vb fl h lv n :
  shard q vb fl h lv →
  ∃ q' fl' h',
    dequeue_n n vb q
    = Some (take n (lv.*2) ++ replicate (n - length lv) None, q') ∧
    shard q' vb fl' h' (drop n lv).
Proof.
  revert q fl h lv. induction n as [|n IH]; intros q fl h lv Hs.
  - exists q, fl, h. by rewrite take_0, drop_0.
  - destruct lv as [|[p m] lv].
    + destruct (IH _ _ _ _ Hs) as (q' & fl' & h' & Hd & Hs').
      exists q', fl', h'. simpl.
      rewrite (DequeueSingleElement_empty _ _ _ _ Hs). qsimpl. rewrite Hd.
      simpl. rewrite drop_nil in Hs'. split; [|done].
      by rewrite take_nil, Nat.sub_0_r.
    + destruct (DequeueSingleElement_shard _ _ _ _ _ _ _ Hs) as (q1 & Hd & Hs1 & _).
      destruct (IH _ _ _ _ Hs1) as (q' & fl' & h' & Hd' & Hs').
      exists q', fl', h'. simpl. rewrite Hd. qsimpl. rewrite Hd'. done.
Qed.

Lemma PeekTail_last q vb fl h lv :
  shard q vb fl h lv → PeekTail vb q = Some (from_option snd None (last lv)).
Proof.
  intros Hs. destruct lv as [|[p m] lv _] using rev_ind.
  - by destruct (Peek_empty _ _ _ _ Hs).
  - rewrite last_snoc. by eapply PeekTail_shard.
Qed.

Lemma shard_shows q q' vb fl h lv :
  shard q vb fl h lv → shard q' vb fl h lv → heap q' !! h = heap q !! h →
  same_shard vb q q'.
Proof.
  intros Hs Hs' Hh. split_and!.
  - unfold GetSize. by rewrite (shard_size _ _ _ _ _ Hs), (shard_size _ _ _ _ _ Hs').
  - destruct lv as [|[p m] lv].
    + destruct (Peek_empty _ _ _ _ Hs) as [_ ->].
      by destruct (Peek_empty _ _ _ _ Hs') as [_ ->].
    + by rewrite (PeekHead_shard _ _ _ _ _ _ _ Hs), (PeekHead_shard _ _ _ _ _ _ _ Hs'), Hh.
  - by rewrite (PeekTail_last _ _ _ _ _ Hs), (PeekTail_last _ _ _ _ _ Hs').
  - intros n.
    destruct (dequeue_n_shard_any _ _ _ _ _ n Hs) as (q1 & ? & ? & -> & _).
    by destruct (dequeue_n_shard_any _ _ _ _ _ n Hs') as (q2 & ? & ? & -> & _).
Qed.

Lemma same_shard_refl vb q : same_shard vb q q.
Proof. by split_and!. Qed.

Lemma same_shard_trans vb q1 q2 q3 :
  same_shard vb q1 q2 → same_shard vb q2 q3 → same_shard vb q1 q3.
Proof.
  intros (Ha & Hb & Hc & Hd) (Ha' & Hb' & Hc' & Hd').
  split_and!; [congruence..|]. intros n. by rewrite Hd', Hd.
Qed.

Lemma frame_shows q q' shs vb vb' c :
  well_formed q shs → 0 ≤ vb < numVbuckets q → 0 ≤ vb' < numVbuckets q →
  vb ≠ vb' →
  frame q q' vb c →
  (∀ fl h lv, shs !! Z.to_nat vb = Some (fl, h, lv) →
              ∀ a, a ∈ c → a ∈ fl ++ h :: lv.*1) →
  same_shard vb' q q'.
Proof.
  intros Hwf Hvb Hvb' Hne Hframe Hc.
  destruct (well_formed_lookup _ _ _ Hwf Hvb) as (fl & h & lv & Hl & Hs).
  destruct (well_formed_lookup _ _ _ Hwf Hvb') as (fl' & h' & lv' & Hl' & Hs').
  assert (∀ a, a ∈ fl' ++ h' :: lv'.*1 → a ∉ c) as Hdisj.
  { intros a Ha Hac.
    apply (wf_disjoint _ _ Hwf (Z.to_nat vb') (Z.to_nat vb) _ _ a Hl' Hl);
      [lia | done | by eapply Hc]. }
  eapply shard_shows; [done | by eapply shard_frame |].
  assert (h' ∈ fl' ++ h' :: lv'.*1) as Hin by (apply elem_of_app; right; by left).
  destruct (linked_elem _ _ _ (shard_linked _ _ _ _ _ Hs') Hin) as [nd Hnd].
  rewrite Hnd. destruct Hframe as (_ & _ & _ & _ & Hheap).
  apply Hheap; [done | by apply Hdisj].
Qed.

Lemma DequeueSingleElement_shows q shs vb vb' m q' :
  well_formed q shs → 0 ≤ vb' < numVbuckets q → vb ≠ vb' →
  DequeueSingleElement vb q = Some (m, q') →
  same_shard vb' q q'.
Proof.
  intros Hwf Hvb' Hne Hd.
  destruct (decide (0 ≤ vb < numVbuckets q)) as [Hvb|Hvb].
  - destruct (well_formed_lookup _ _ _ Hwf Hvb) as (fl & h & [|[p x] lv] & Hl & Hs).
    + rewrite (DequeueSingleElement_empty _ _ _ _ Hs) in Hd. simplify_eq.
      apply same_shard_refl.
    + destruct (DequeueSingleElement_shard _ _ _ _ _ _ _ Hs) as (q2 & Hd2 & _ & Hfr).
      rewrite Hd2 in Hd. simplify_eq.
      eapply (frame_shows q q' shs vb vb' []); try done.
      by intros ? ? ? _ a Ha%elem_of_nil.
  - exfalso. pose proof Hwf as [Hlen _ Hhead _ _ _].
    unfold DequeueSingleElement in Hd.
    rewrite (index_out_of_range (head q) vb (numVbuckets q)) in Hd by (done || lia).
    done.
Qed.

Lemma Enqueue_shows q shs vb vb' m err q' :
  well_formed q shs → 0 ≤ vb' < numVbuckets q → vb ≠ vb' →
  Enqueue m vb q = Some (err, q') →
  same_shard vb' q q'.
Proof.
  intros Hwf Hvb' Hne He. pose proof Hwf as [_ Hu16 _ _ _ _].
  destruct (decide (0 ≤ vb < numVbuckets q)) as [Hvb|Hvb].
  - destruct (well_formed_lookup _ _ _ Hwf Hvb) as (fl & h & lv & Hl & Hs).
    destruct (Enqueue_shard _ _ _ _ _ m Hs) as (q2 & fl2 & p & He2 & _ & Hfr & _).
    rewrite He2 in He. simplify_eq.
    eapply (frame_shows q q' shs vb vb'); try done.
    intros ? ? ? Hl2. by simplify_eq.
  - unfold Enqueue, Vbucket_wrap in He. rewrite Z.mod_small in He by lia.
    destruct (Z.ltb_spec vb 0); simpl in He.
    { simplify_eq. apply same_shard_refl. }
    rewrite Z.gtb_ltb in He.
    destruct (Z.ltb_spec (numVbuckets q - 1) vb); [|lia].
    simplify_eq. apply same_shard_refl.
Qed.

Lemma drain_loop_shows fuel vb vb' sq d d' :
  (∃ shs, well_formed (dq d) shs) → 0 ≤ vb' < numVbuckets (dq d) → vb ≠ vb' →
  drain_loop fuel vb sq d = Ret d' →
  same_shard vb' (dq d) (dq d') ∧ numVbuckets (dq d') = numVbuckets (dq d) ∧
  ∃ shs', well_formed (dq d') shs'.
Proof.
  revert d. induction fuel as [|fuel IH]; intros d Hwf Hvb' Hne; simpl; [done|].
  destruct (nonempty vb (dq d)) as [[]|] eqn:Hnonempty; [| | done].
  2:{ intros [= <-]. split; [apply same_shard_refl | done]. }
  destruct (drain_body vb sq d) as [d1|] eqn:Hbody; [|done].
  assert (same_shard vb' (dq d) (dq d1) ∧ numVbuckets (dq d1) = numVbuckets (dq d) ∧
          ∃ shs, well_formed (dq d1) shs) as (Hsame & Hnum & Hwf1).
  { destruct (drain_body_dequeues vb sq d d1 Hnonempty Hbody) as [->|[m Hm]].
    - split; [apply same_shard_refl | done].
    - destruct Hwf as [shs Hwf]. split_and!.
      + by eapply DequeueSingleElement_shows.
      + by apply DequeueSingleElement_slices in Hm as (_ & _ & _ & ?).
      + by eapply DequeueSingleElement_preserves. }
  destruct (closed d1).
  { by intros [= <-]. }
  intros Hloop. destruct (IH d1 Hwf1 ltac:(by rewrite Hnum) Hne Hloop)
    as (Hsame' & Hnum' & Hwf').
  split_and!; [by eapply same_shard_trans | congruence | done].
Qed.

Lemma dequeueUptoSeqno_shows ticks fuel vb vb' sq d d' :
  (∃ shs, well_formed (dq d) shs) → 0 ≤ vb' < numVbuckets (dq d) → vb ≠ vb' →
  dequeueUptoSeqno ticks fuel vb sq d = Ret d' →
  same_shard vb' (dq d) (dq d').
Proof.
  revert d. induction ticks as [|ticks IH]; intros d Hwf Hvb' Hne; simpl.
  { intros [= <-]. apply same_shard_refl. }
  unfold on_tick.
  destruct (drain_loop fuel vb sq d) as [| |d1] eqn:Hloop; [done..|].
  destruct (drain_loop_shows fuel vb vb' sq d d1 Hwf Hvb' Hne Hloop)
    as (Hsame & Hnum & Hwf1).
  destruct (closed d1) eqn:Hc1.
  { rewrite Hc1. by intros [= <-]. }
  destruct (dequeueCount d1 =? 0); cbn [closed].
  { by intros [= <-]. }
  rewrite Hc1. intros Hrest.
  eapply same_shard_trans; [exact Hsame|].
  apply (IH d1); by rewrite ?Hnum.
Qed.

(** X4. The shards are independent: a call of Enqueue,
    DequeueSingleElement or DequeueUptoSeqno on one shard changes nothing
    of what the interface shows of another shard (GetSize, PeekHead,
    PeekTail, and what any number of dequeues return). *)
Theorem other_shards_are_left_alone q q' vb vb' :
  reachable q → 0 ≤ vb' < numVbuckets q → vb ≠ vb' →
  call_on vb q q' →
  same_shard vb' q q'.
Proof.
  intros [shs Hwf]%reachable_well_formed Hvb' Hne [m err He | m Hd | ticks fuel sq d Hd ->].
  - by eapply Enqueue_shows.
  - by eapply DequeueSingleElement_shows.
  - unfold DequeueUptoSeqno in Hd.
    apply (dequeueUptoSeqno_shows ticks fuel vb vb' sq
             {| dq := q; datach := []; dequeueCount := 0; closed := false |} d);
      eauto.
Qed.

Lemma other_shards_are_left_alone_witness :
  ∃ q', Enqueue (Some (mutation_at 1 "a")) 0 (fresh_queue 2 2 2) = Some (None, q') ∧
        same_shard 1 (fresh_queue 2 2 2) q'.
Proof.
  eexists. split; [vm_compute; reflexivity|].
  apply (other_shards_are_left_alone _ _ 0 1).
  - apply (reachable_new 2); [lia | reflexivity].
  - simpl. lia.
  - lia.
  - eapply on_enqueue. vm_compute. reflexivity.
Defined.

(** *** Enqueue and the ends of the queue *)

(** X5. After Enqueue(m, shard) has returned nil, the shard is not
    empty, PeekTail returns m and GetSize has gone up by one (on an
    int64). *)
Theorem PeekTail_after_Enqueue q m vb q' sz :
  reachable q → Enqueue m vb q = Some (None, q') → GetSize vb q = Some sz →
  nonempty vb q' = Some true ∧
  PeekTail vb q' = Some m ∧
  GetSize vb q' = Some (int64_wrap (sz + 1)).
Proof.
  intros Hq He Hsz.
  assert (0 ≤ vb < numVbuckets q) as Hvb.
  { destruct (decide (0 ≤ vb < numVbuckets q)) as [|Hvb]; [done|].
    pose proof (GetSize_out_of_range q vb Hq Hvb). congruence. }
  destruct (reachable_shard q vb Hq Hvb) as (fl & h & lv & Hs).
  destruct (Enqueue_shard _ _ _ _ _ m Hs) as (q2 & fl2 & p & He2 & Hs2 & _).
  rewrite He2 in He. simplify_eq. split_and!.
  - rewrite (shard_nonempty _ _ _ _ _ Hs2). f_equal.
    apply bool_decide_true. by destruct lv.
  - by eapply PeekTail_shard.
  - unfold GetSize in *. rewrite (shard_size _ _ _ _ _ Hs2).
    rewrite (shard_size _ _ _ _ _ Hs) in Hsz. simplify_eq.
    rewrite int64_wrap_idemp_add, length_app. simpl. do 2 f_equal. lia.
Qed.

Lemma PeekTail_after_Enqueue_witness :
  ∃ q', Enqueue (Some (mutation_at 7 "a")) 1 (fresh_queue 2 2 2) = Some (None, q') ∧
        nonempty 1 q' = Some true ∧
        PeekTail 1 q' = Some (Some (mutation_at 7 "a")) ∧
        GetSize 1 q' = Some (int64_wrap (0 + 1)).
Proof.
  eexists. split; [vm_compute; reflexivity|].
  apply (PeekTail_after_Enqueue (fresh_queue 2 2 2) _ 1 _ 0).
  - apply (reachable_new 2); [lia | reflexivity].
  - vm_compute. reflexivity.
  - reflexivity.
Defined.

(** X6. PeekHead reads the node that the last dequeue has left behind:
    when DequeueSingleElement has returned m and the shard is not empty
    afterwards, PeekHead returns m, the mutation that is gone, not the
    one the next dequeue returns. *)
Theorem PeekHead_after_dequeue q vb m q' :
  reachable q → DequeueSingleElement vb q = Some (m, q') →
  nonempty vb q' = Some true →
  PeekHead vb q' = Some m.
Proof.
  intros Hq Hd Hne.
  assert (0 ≤ vb < numVbuckets q) as Hvb.
  { destruct (decide (0 ≤ vb < numVbuckets q)) as [|Hvb]; [done|].
    pose proof (DequeueSingleElement_out_of_range q vb Hq Hvb). congruence. }
  destruct (reachable_shard q vb Hq Hvb) as (fl & h & [|[p x] lv] & Hs).
  - rewrite (DequeueSingleElement_empty _ _ _ _ Hs) in Hd. simplify_eq.
    rewrite (shard_nonempty _ _ _ _ _ Hs) in Hne.
    by rewrite bool_decide_false in Hne by (intros Hx; by apply Hx).
  - destruct (shard_head_step _ _ _ _ _ _ _ Hs) as (nd & nx & _ & _ & Hnx & Hm).
    destruct (DequeueSingleElement_shard _ _ _ _ _ _ _ Hs) as (q2 & Hd2 & Hs2 & Hfr).
    rewrite Hd2 in Hd. simplify_eq.
    destruct lv as [|[p2 m2] lv].
    { rewrite (shard_nonempty _ _ _ _ _ Hs2) in Hne.
      by rewrite bool_decide_false in Hne by (intros Hx; by apply Hx). }
    rewrite (PeekHead_shard _ _ _ _ _ _ _ Hs2).
    destruct Hfr as (_ & _ & _ & _ & Hheap).
    rewrite (Hheap p nx Hnx) by (by intros ?%elem_of_nil). done.
Qed.

Lemma PeekHead_after_dequeue_witness :
  ∃ q', DequeueSingleElement 0 queue_ab = Some (Some (mutation_at 1 "a"), q') ∧
        PeekHead 0 q' = Some (Some (mutation_at 1 "a")).
Proof.
  eexists. split; [vm_compute; reflexivity|].
  apply (PeekHead_after_dequeue queue_ab 0 _ _ queue_ab_reachable);
    vm_compute; reflexivity.
Defined.

(** *** The free list *)

(** X7. Nodes are used again: an Enqueue that follows a dequeue of the
    same shard that removed an element takes its node from the free list
    and allocates none (the heap keeps its size). *)
Theorem Enqueue_after_dequeue_allocates_nothing q vb x q1 m q2 :
  reachable q → nonempty vb q = Some true →
  DequeueSingleElement vb q = Some (x, q1) →
  Enqueue m vb q1 = Some (None, q2) →
  length (heap q2) = length (heap q1).
Proof.
  intros Hq Hne Hd He.
  assert (0 ≤ vb < numVbuckets q) as Hvb.
  { destruct (decide (0 ≤ vb < numVbuckets q)) as [|Hvb]; [done|].
    pose proof (DequeueSingleElement_out_of_range q vb Hq Hvb). congruence. }
  destruct (reachable_shard q vb Hq Hvb) as (fl & h & [|[p y] lv] & Hs).
  { rewrite (shard_nonempty _ _ _ _ _ Hs) in Hne.
    by rewrite bool_decide_false in Hne by (intros Hx; by apply Hx). }
  destruct (DequeueSingleElement_shard _ _ _ _ _ _ _ Hs) as (q' & Hd' & Hs1 & _).
  rewrite Hd' in Hd. simplify_eq.
  assert (∃ f fl', fl ++ [h] = f :: fl') as (f & fl' & Hfl).
  { destruct fl as [|f fl]; simpl; eauto. }
  rewrite Hfl in Hs1.
  pose proof Hs1 as [Hvb1 Hu16 Hnodup Hfree Hhead Htail Hlinked Hholds Hsize].
  set (t := List.last (lv.*1) p) in *.
  assert (t ∈ p :: lv.*1) as Ht by (by eapply shard_tail_in).
  assert (t ∈ (f :: fl') ++ p :: lv.*1) as Ht' by (apply elem_of_app; by right).
  destruct (linked_elem _ _ _ Hlinked Ht') as [nd Hnd].
  assert (t ≠ f) as Htf.
  { apply NoDup_cons in Hnodup as [Hf _]. intros Heq. apply Hf.
    rewrite <- Heq. apply elem_of_app. by right. }
  assert (f < length (heap q1))%nat as Hf.
  { destruct (linked_elem _ _ f Hlinked) as [y' Hy]; [by left|].
    by eapply lookup_lt_Some. }
  pose proof (Enqueue_link m vb q1
                (set_heap (<[f := empty_node]> (heap q1))
                   (set_free (<[Z.to_nat vb := Some (hd p fl')]> (free q1)) q1))
                f empty_node t nd (int64_wrap (Z.of_nat (length lv)))
                Hvb1 Hu16 (allocNode_reuse _ _ _ _ _ _ Hs1))
    as Hlink.
  rewrite Hlink in He.
  - injection He as <-. qsimpl. by rewrite !length_insert.
  - qsimpl. by apply list_lookup_insert_eq.
  - done.
  - done.
  - qsimpl. by rewrite list_lookup_insert_ne.
  - exact Hsize.
Qed.

Lemma Enqueue_after_dequeue_allocates_nothing_witness :
  ∃ q1 q2,
    DequeueSingleElement 0 queue_ab = Some (Some (mutation_at 1 "a"), q1) ∧
    Enqueue (Some (mutation_at 3 "c")) 0 q1 = Some (None, q2) ∧
    length (heap q2) = length (heap q1).
Proof.
  do 2 eexists. do 2 (split; [vm_compute; reflexivity|]).
  apply (Enqueue_after_dequeue_allocates_nothing queue_ab 0
           (Some (mutation_at 1 "a")) _ (Some (mutation_at 3 "c")) _
           queue_ab_reachable);
    vm_compute; reflexivity.
Defined.

(** *** Queues with given contents *)

(** The nodes of a shard whose mutations are [ms ++ rest]. *)
Lemma contents_split (lv : list (ptr * option MutationKeys)) ms rest :
  lv.*2 = ms ++ rest →
  ∃ pre suf, lv = pre ++ suf ∧ pre.*2 = ms ∧ suf.*2 = rest.
Proof.
  intros (pre & suf & -> & -> & ->)%fmap_app_inv. by exists pre, suf.
Qed.

Lemma enqueue_all_contents q vb ms :
  reachable q → 0 ≤ vb < numVbuckets q → nonempty vb q = Some false →
  ∃ q1 fl h lv,
    enqueue_all ms vb q = Some (None, q1) ∧ shard q1 vb fl h lv ∧ lv.*2 = ms.
Proof.
  intros Hq Hvb Hempty.
  destruct (reachable_shard q vb Hq Hvb) as (fl & h & lv & Hs).
  pose proof (shard_empty _ _ _ _ _ Hs Hempty) as ->.
  destruct (enqueue_all_shard _ _ _ _ _ ms Hs) as (q1 & fl1 & lv1 & He & Hs1 & Hlv1).
  by exists q1, fl1, h, lv1.
Qed.

Lemma dequeue_n_contents q vb fl h lv :
  shard q vb fl h lv →
  fst <$> dequeue_n (length lv) vb q = Some (lv.*2).
Proof.
  intros Hs. by destruct (dequeue_n_shard _ _ _ _ _ Hs) as (q' & ? & ? & -> & _).
Qed.

(** *** DequeueUptoSeqno *)

(** The loop sends the mutations below the watermark that are in front. *)
Lemma drain_loop_skip fuel q vb fl h pre suf sq out cnt :
  shard q vb fl h (pre ++ suf) →
  Forall (below sq) pre →
  ∃ q' fl' h' ms cnt',
    Some <$> ms = pre.*2 ∧
    shard q' vb fl' h' suf ∧
    drain_loop (length pre + fuel) vb sq
      {| dq := q; datach := out; dequeueCount := cnt; closed := false |}
    = drain_loop fuel vb sq
        {| dq := q'; datach := out ++ ms; dequeueCount := cnt'; closed := false |}.
Proof.
  revert q fl h out cnt. induction pre as [|[p om] pre IH];
    intros q fl h out cnt Hs Hpre.
  - exists q, fl, h, [], cnt. by rewrite app_nil_r.
  - apply Forall_cons in Hpre as [(m & Hm & Hlt) Hpre]. simpl in Hm. subst om.
    destruct (drain_body_below _ _ _ _ _ _ _ sq out cnt Hs Hlt) as (q1 & Hbody & Hs1).
    destruct (IH q1 _ _ (out ++ [m]) (bump cnt) Hs1 Hpre)
      as (q2 & fl2 & h2 & ms & cnt' & Hms & Hs2 & Hloop).
    exists q2, fl2, h2, (m :: ms), cnt'. split_and!.
    + rewrite !fmap_cons. by f_equal.
    + done.
    + change (length ((p, Some m) :: pre) + fuel)%nat
        with (S (length pre + fuel)).
      cbn [drain_loop dq]. rewrite (shard_nonempty _ _ _ _ _ Hs).
      rewrite bool_decide_true by done. rewrite Hbody. cbn [closed].
      rewrite Hloop. by rewrite <- app_assoc.
Qed.

(** The body of the loop at a mutation that has reached the watermark. *)
Lemma drain_body_reached q vb fl h p m lv sq out cnt :
  shard q vb fl h ((p, Some m) :: lv) →
  sq ≤ seqno (meta m) →
  ∃ q' fl' h' cnt',
    drain_body vb sq
      {| dq := q; datach := out; dequeueCount := cnt; closed := false |}
    = Some {| dq := q';
              datach := out ++ (if seqno (meta m) =? sq then [m] else []);
              dequeueCount := cnt'; closed := true |} ∧
    shard q' vb fl' h' (if seqno (meta m) =? sq then lv else (p, Some m) :: lv).
Proof.
  intros Hs Hle.
  destruct (shard_head_step _ _ _ _ _ _ _ Hs) as (nd & nx & Hnd & Hnext & Hnx & Hm).
  pose proof Hs as [Hvb Hu16 Hnodup Hfree Hhead Htail Hlinked Hholds Hsize].
  unfold drain_body. cbn [dq datach dequeueCount closed].
  rewrite Hhead. qsimpl. unfold deref. qsimpl. rewrite Hnd. qsimpl.
  rewrite Hnext. qsimpl. rewrite Hnx. qsimpl. rewrite Hm. qsimpl.
  rewrite (proj2 (Z.leb_le sq (seqno (meta m)))) by lia.
  destruct (Z.eqb_spec (seqno (meta m)) sq) as [Heq|Hneq].
  - rewrite (proj2 (Z.geb_le sq (seqno (meta m)))) by lia.
    erewrite assign_index by done. qsimpl.
    rewrite Hsize. qsimpl. erewrite assign_index by done. qsimpl.
    cbn [dq datach dequeueCount closed].
    eexists _, _, _, _. split; [done|].
    eapply shard_advance; [done | done..| |]; qsimpl.
    + by eapply index_insert_eq.
    + erewrite index_insert_eq by done. rewrite int64_wrap_idemp_add.
      f_equal. f_equal. simpl. lia.
  - assert ((sq >=? seqno (meta m)) = false) as ->.
    { rewrite Z.geb_leb. apply Z.leb_gt. lia. }
    qsimpl. cbn [dq datach dequeueCount closed].
    exists q, fl, h, cnt. by rewrite app_nil_r.
Qed.

(** X8. DequeueUptoSeqno stops at the first mutation that has reached
    the watermark: with, in front of the queue, mutations below the
    watermark and then a mutation m at or above it, the first poll sends
    the mutations below, sends m as well if its sequence number is the
    watermark, and closes the channel; whatever is behind m (mutations of
    the same sequence number too) stays in the queue, and so does m when
    it is above the watermark. *)
Theorem DequeueUptoSeqno_stops_at_the_watermark q vb pre m rest sq ticks :
  reachable q → 0 ≤ vb < numVbuckets q → nonempty vb q = Some false →
  Forall (λ x, seqno (meta x) < sq) pre → sq ≤ seqno (meta m) →
  let sent := if (seqno (meta m) =? sq) then [m] else [] in
  let left := if (seqno (meta m) =? sq) then rest else Some m :: rest in
  ∃ q1 d,
    enqueue_all ((Some <$> pre) ++ Some m :: rest) vb q = Some (None, q1) ∧
    DequeueUptoSeqno (S ticks) (S (length pre)) vb sq q1 = Ret d ∧
    datach d = pre ++ sent ∧
    closed d = true ∧
    fst <$> dequeue_n (length left) vb (dq d) = Some left.
Proof.
  intros Hq Hvb Hempty Hpre Hle sent left.
  destruct (enqueue_all_contents q vb ((Some <$> pre) ++ Some m :: rest) Hq Hvb Hempty)
    as (q1 & fl & h & lv & He & Hs & Hlv).
  apply contents_split in Hlv as (lpre & lsuf & -> & Hlpre & Hlsuf).
  destruct lsuf as [|[p om] lsuf]; [done|].
  rewrite fmap_cons in Hlsuf. simpl in Hlsuf.
  injection Hlsuf as -> Hrest.
  assert (Forall (below sq) lpre) as Hbelow.
  { apply Forall_forall. intros [a oa] Hin.
    assert (oa ∈ lpre.*2) as Hoa.
    { apply list_elem_of_fmap. by exists (a, oa). }
    rewrite Hlpre in Hoa. apply list_elem_of_fmap in Hoa as (y & -> & Hy).
    exists y. split; [done|]. by eapply (proj1 (Forall_forall _ _) Hpre). }
  assert (length lpre = length pre) as Hlen.
  { by rewrite <- (length_fmap snd lpre), Hlpre, length_fmap. }
  destruct (drain_loop_skip 1 q1 vb fl h lpre ((p, Some m) :: lsuf) sq [] 0 Hs Hbelow)
    as (q2 & fl2 & h2 & ms & cnt & Hms & Hs2 & Hloop).
  destruct (drain_body_reached _ _ _ _ _ _ _ sq ([] ++ ms) cnt Hs2 Hle)
    as (q3 & fl3 & h3 & cnt3 & Hbody & Hs3).
  rewrite Hlpre in Hms. apply (inj (fmap Some)) in Hms. subst ms.
  exists q1, {| dq := q3; datach := pre ++ sent; dequeueCount := cnt3; closed := true |}.
  split; [done|]. split.
  - unfold DequeueUptoSeqno. cbn [dequeueUptoSeqno]. unfold on_tick.
    replace (S (length pre)) with (length lpre + 1)%nat by lia.
    rewrite Hloop. cbn [drain_loop dq].
    rewrite (shard_nonempty _ _ _ _ _ Hs2), bool_decide_true by done.
    rewrite Hbody. done.
  - cbn [datach closed dq]. split_and!; [done..|].
    subst left. destruct (seqno (meta m) =? sq).
    + rewrite <- Hrest, length_fmap. by eapply dequeue_n_contents.
    + rewrite <- Hrest.
      change (Some m :: lsuf.*2) with (((p, Some m) :: lsuf).*2).
      rewrite length_fmap. by eapply dequeue_n_contents.
Qed.

Lemma DequeueUptoSeqno_stops_at_the_watermark_witness :
  ∃ q1 d,
    enqueue_all
      ((Some <$> [mutation_at 1 "a"]) ++
       Some (mutation_at 3 "b") :: [Some (mutation_at 3 "c")]) 0 (fresh_queue 1 1 1)
    = Some (None, q1) ∧
    DequeueUptoSeqno 1 2 0 3 q1 = Ret d ∧
    datach d = [mutation_at 1 "a"; mutation_at 3 "b"] ∧
    closed d = true ∧
    fst <$> dequeue_n 1 0 (dq d) = Some [Some (mutation_at 3 "c")].
Proof.
  apply (DequeueUptoSeqno_stops_at_the_watermark (fresh_queue 1 1 1) 0
           [mutation_at 1 "a"] (mutation_at 3 "b") [Some (mutation_at 3 "c")] 3 0).
  - apply (reachable_new 1); [lia | reflexivity].
  - simpl. lia.
  - reflexivity.
  - repeat constructor; simpl; lia.
  - simpl. lia.
Defined.

(** X9. Enqueue takes a nil mutation, DequeueUptoSeqno does not: when
    the poll comes to a nil mutation (the mutations in front of it being
    below the watermark), reading its sequence number panics. *)
Theorem DequeueUptoSeqno_panics_on_nil q vb pre rest sq ticks fuel :
  reachable q → 0 ≤ vb < numVbuckets q → nonempty vb q = Some false →
  Forall (λ x, seqno (meta x) < sq) pre →
  ∃ q1,
    enqueue_all ((Some <$> pre) ++ None :: rest) vb q = Some (None, q1) ∧
    DequeueUptoSeqno (S ticks) (length pre + S fuel) vb sq q1 = Panic.
Proof.
  intros Hq Hvb Hempty Hpre.
  destruct (enqueue_all_contents q vb ((Some <$> pre) ++ None :: rest) Hq Hvb Hempty)
    as (q1 & fl & h & lv & He & Hs & Hlv).
  apply contents_split in Hlv as (lpre & lsuf & -> & Hlpre & Hlsuf).
  destruct lsuf as [|[p om] lsuf]; [done|].
  rewrite fmap_cons in Hlsuf. simpl in Hlsuf.
  injection Hlsuf as -> Hrest.
  assert (Forall (below sq) lpre) as Hbelow.
  { apply Forall_forall. intros [a oa] Hin.
    assert (oa ∈ lpre.*2) as Hoa.
    { apply list_elem_of_fmap. by exists (a, oa). }
    rewrite Hlpre in Hoa. apply list_elem_of_fmap in Hoa as (y & -> & Hy).
    exists y. split; [done|]. by eapply (proj1 (Forall_forall _ _) Hpre). }
  assert (length lpre = length pre) as Hlen.
  { by rewrite <- (length_fmap snd lpre), Hlpre, length_fmap. }
  destruct (drain_loop_skip (S fuel) q1 vb fl h lpre ((p, None) :: lsuf) sq [] 0 Hs Hbelow)
    as (q2 & fl2 & h2 & ms & cnt & Hms & Hs2 & Hloop).
  exists q1. split; [done|].
  unfold DequeueUptoSeqno. cbn [dequeueUptoSeqno]. unfold on_tick.
  rewrite <- Hlen, Hloop. cbn [drain_loop dq].
  rewrite (shard_nonempty _ _ _ _ _ Hs2), bool_decide_true by done.
  destruct (shard_head_step _ _ _ _ _ _ _ Hs2) as (nd & nx & Hnd & Hnext & Hnx & Hm).
  unfold drain_body. cbn [dq]. rewrite (shard_head _ _ _ _ _ Hs2). qsimpl.
  unfold deref. qsimpl. rewrite Hnd. qsimpl. rewrite Hnext. qsimpl.
  rewrite Hnx. qsimpl. rewrite Hm. done.
Qed.

Lemma DequeueUptoSeqno_panics_on_nil_witness :
  ∃ q1,
    enqueue_all ((Some <$> [mutation_at 1 "a"]) ++ None :: []) 0 (fresh_queue 1 1 1)
    = Some (None, q1) ∧
    DequeueUptoSeqno 1 (1 + 1) 0 5 q1 = Panic.
Proof.
  apply (DequeueUptoSeqno_panics_on_nil (fresh_queue 1 1 1) 0
           [mutation_at 1 "a"] [] 5 0 0).
  - apply (reachable_new 1); [lia | reflexivity].
  - simpl. lia.
  - reflexivity.
  - repeat constructor; simpl; lia.
Defined.

(** *** dequeue and Dequeue *)

Lemma dequeue_skip fuel q vb fl h pre suf ms out :
  shard q vb fl h (pre ++ suf) → pre.*2 = Some <$> ms →
  ∃ q' fl' h',
    shard q' vb fl' h' suf ∧
    dequeue (length ms + fuel) vb q out = dequeue fuel vb q' (out ++ ms).
Proof.
  revert q fl h pre out. induction ms as [|m ms IH]; intros q fl h pre out Hs Hpre.
  - destruct pre; [|done]. exists q, fl, h. by rewrite app_nil_r.
  - destruct pre as [|[p om] pre]; [done|].
    rewrite !fmap_cons in Hpre. simpl in Hpre. injection Hpre as -> Hpre.
    destruct (DequeueSingleElement_shard _ _ _ _ _ _ _ Hs) as (q1 & Hd & Hs1 & _).
    destruct (IH q1 _ _ pre (out ++ [m]) Hs1 Hpre) as (q2 & fl2 & h2 & Hs2 & Hloop).
    exists q2, fl2, h2. split; [done|].
    change (length (m :: ms) + fuel)%nat with (S (length ms + fuel)).
    cbn [dequeue]. rewrite Hd, Hloop. by rewrite <- app_assoc.
Qed.

(** X10. dequeue sends the mutations in front of the queue, in order,
    until the queue is empty or a nil mutation comes: the nil is taken off
    the queue, nothing is sent for it, and what is behind it stays for the
    next poll. *)
Theorem dequeue_sends_up_to_a_nil q vb ms behind out :
  reachable q → 0 ≤ vb < numVbuckets q → nonempty vb q = Some false →
  let rest := match behind with Some r => None :: r | None => [] end in
  let left := default [] behind in
  ∃ q1 q2,
    enqueue_all ((Some <$> ms) ++ rest) vb q = Some (None, q1) ∧
    dequeue (S (length ms)) vb q1 out = Ret (q2, out ++ ms) ∧
    fst <$> dequeue_n (length left) vb q2 = Some left ∧
    GetSize vb q2 = Some (int64_wrap (Z.of_nat (length left))).
Proof.
  intros Hq Hvb Hempty rest left.
  destruct (enqueue_all_contents q vb ((Some <$> ms) ++ rest) Hq Hvb Hempty)
    as (q1 & fl & h & lv & He & Hs & Hlv).
  apply contents_split in Hlv as (lpre & lsuf & -> & Hlpre & Hlsuf).
  destruct (dequeue_skip 1 q1 vb fl h lpre lsuf ms out Hs Hlpre)
    as (q2 & fl2 & h2 & Hs2 & Hloop).
  replace (S (length ms)) with (length ms + 1)%nat by lia.
  subst rest left. destruct behind as [r|]; simpl in *.
  - destruct lsuf as [|[p om] lsuf]; [done|].
    rewrite fmap_cons in Hlsuf. simpl in Hlsuf. injection Hlsuf as -> <-.
    destruct (DequeueSingleElement_shard _ _ _ _ _ _ _ Hs2) as (q3 & Hd & Hs3 & _).
    exists q1, q3. rewrite Hloop. cbn [dequeue]. rewrite Hd.
    split_and!; [done | done | |].
    + rewrite length_fmap. by eapply dequeue_n_contents.
    + rewrite length_fmap. unfold GetSize. by rewrite (shard_size _ _ _ _ _ Hs3).
  - destruct lsuf; [|done].
    exists q1, q2. rewrite Hloop. cbn [dequeue].
    rewrite (DequeueSingleElement_empty _ _ _ _ Hs2).
    split_and!; [done | done | done |].
    unfold GetSize. by rewrite (shard_size _ _ _ _ _ Hs2).
Qed.

Lemma dequeue_sends_up_to_a_nil_witness :
  ∃ q1 q2,
    enqueue_all ((Some <$> [mutation_at 1 "a"; mutation_at 2 "b"]) ++
                 [None; Some (mutation_at 3 "c")]) 0 (fresh_queue 1 1 1)
    = Some (None, q1) ∧
    dequeue 3 0 q1 [] = Ret (q2, [mutation_at 1 "a"; mutation_at 2 "b"]) ∧
    fst <$> dequeue_n 1 0 q2 = Some [Some (mutation_at 3 "c")] ∧
    GetSize 0 q2 = Some (int64_wrap 1).
Proof.
  apply (dequeue_sends_up_to_a_nil (fresh_queue 1 1 1) 0
           [mutation_at 1 "a"; mutation_at 2 "b"]
           (Some [Some (mutation_at 3 "c")]) []).
  - apply (reachable_new 1); [lia | reflexivity].
  - simpl. lia.
  - reflexivity.
Defined.

Lemma dequeue_empty fuel q vb fl h out :
  shard q vb fl h [] → dequeue (S fuel) vb q out = Ret (q, out).
Proof. intros Hs. simpl. by rewrite (DequeueSingleElement_empty _ _ _ _ Hs). Qed.

Lemma Dequeue_loop_drained evs fuel q vb fl h out :
  shard q vb fl h [] →
  Dequeue_loop evs (S fuel) vb {| fq := q; fdatach := out; fclosed := false |}
  = Ret {| fq := q; fdatach := out; fclosed := bool_decide (Stop ∈ evs) |}.
Proof.
  intros Hs. induction evs as [|[] evs IH].
  - by rewrite bool_decide_false by (by intros ?%elem_of_nil).
  - cbn [Dequeue_loop fq fdatach fclosed].
    rewrite (dequeue_empty _ _ _ _ _ _ Hs), IH.
    do 2 f_equal. apply bool_decide_ext. rewrite elem_of_cons.
    split; [by right | by intros [?|?]].
  - cbn [Dequeue_loop fq fdatach fclosed].
    by rewrite bool_decide_true by (by left).
Qed.

(** X11. The goroutine of Dequeue: with mutations queued and no enqueue
    going on, the first ticker event sends all of them, in order, and
    empties the queue; the ticker events after it send nothing; the
    channel is closed when, and only when, the stop signal comes, and
    after it nothing is sent: a stop that comes before the first ticker
    event leaves every mutation in the queue. *)
Theorem Dequeue_sends_all_until_stopped q vb ms evs :
  reachable q → 0 ≤ vb < numVbuckets q → nonempty vb q = Some false →
  ∃ q1 f,
    enqueue_all (Some <$> ms) vb q = Some (None, q1) ∧
    Dequeue evs (S (length ms)) vb q1 = Ret f ∧
    fclosed f = bool_decide (Stop ∈ evs) ∧
    match evs with
    | Tick :: _ => fdatach f = ms ∧ nonempty vb (fq f) = Some false
    | _ => fdatach f = [] ∧ fq f = q1
    end.
Proof.
  intros Hq Hvb Hempty.
  destruct (enqueue_all_contents q vb (Some <$> ms) Hq Hvb Hempty)
    as (q1 & fl & h & lv & He & Hs & Hlv).
  exists q1. destruct evs as [|[] evs].
  - eexists. split; [done|]. split; [done|]. cbn [fclosed fdatach fq].
    split; [|done]. symmetry. apply bool_decide_false. by intros ?%elem_of_nil.
  - destruct (dequeue_skip 1 q1 vb fl h lv [] ms [] ltac:(by rewrite app_nil_r) Hlv)
      as (q2 & fl2 & h2 & Hs2 & Hloop).
    eexists. split; [done|].
    unfold Dequeue. cbn [Dequeue_loop fq fdatach fclosed].
    replace (S (length ms)) with (length ms + 1)%nat by lia.
    rewrite Hloop. rewrite (dequeue_empty _ _ _ _ _ _ Hs2).
    replace (length ms + 1)%nat with (S (length ms)) by lia.
    rewrite (Dequeue_loop_drained _ _ _ _ _ _ _ Hs2).
    split; [done|]. cbn [fclosed fdatach fq]. split_and!.
    + apply bool_decide_ext. rewrite elem_of_cons.
      split; [by right | by intros [?|?]].
    + by rewrite app_nil_l.
    + rewrite (shard_nonempty _ _ _ _ _ Hs2).
      by rewrite bool_decide_false by (intros Hx; by apply Hx).
  - eexists. split; [done|]. split; [done|]. cbn [fclosed fdatach fq].
    split; [|done]. symmetry. apply bool_decide_true. by left.
Qed.

Lemma Dequeue_sends_all_until_stopped_witness :
  ∃ q1 f,
    enqueue_all (Some <$> [mutation_at 1 "a"; mutation_at 2 "b"]) 0
      (fresh_queue 1 1 1) = Some (None, q1) ∧
    Dequeue [Tick; Tick; Stop; Tick] 3 0 q1 = Ret f ∧
    fclosed f = true ∧
    fdatach f = [mutation_at 1 "a"; mutation_at 2 "b"] ∧
    nonempty 0 (fq f) = Some false.
Proof.
  destruct (Dequeue_sends_all_until_stopped (fresh_queue 1 1 1) 0
              [mutation_at 1 "a"; mutation_at 2 "b"] [Tick; Tick; Stop; Tick])
    as (q1 & f & He & Hd & Hc & Hout & Hq).
  - apply (reachable_new 1); [lia | reflexivity].
  - simpl. lia.
  - reflexivity.
  - exists q1, f. split_and!; done.
Defined.

(** *** Any sequence of calls *)

Lemma DequeueSingleElement_step q shs s :
  well_formed q shs → 0 ≤ s < numVbuckets q →
  ∃ fl h lv m q1 shs1 fl' h',
    shs !! Z.to_nat s = Some (fl, h, lv) ∧
    nonempty s q = Some (bool_decide (lv ≠ [])) ∧
    DequeueSingleElement s q = Some (m, q1) ∧
    (lv ≠ [] → hd_error (lv.*2) = Some m) ∧
    well_formed q1 shs1 ∧
    numVbuckets q1 = numVbuckets q ∧
    shs1 !! Z.to_nat s = Some (fl', h', List.tl lv) ∧
    (∀ i : nat, i ≠ Z.to_nat s → shs1 !! i = shs !! i).
Proof.
  intros Hwf Hs.
  destruct (well_formed_lookup _ _ _ Hwf Hs) as (fl & h & lv & Hl & Hsh).
  pose proof (shard_nonempty _ _ _ _ _ Hsh) as Hne.
  exists fl, h, lv. destruct lv as [|[p m] lv].
  - exists None, q, shs, fl, h. split_and!; try done.
    by eapply DequeueSingleElement_empty.
  - destruct (DequeueSingleElement_shard _ _ _ _ _ _ _ Hsh) as (q1 & Hd & Hsh1 & Hfr).
    exists m, q1, (<[Z.to_nat s := (fl ++ [h], p, lv)]> shs), (fl ++ [h]), p.
    split_and!; try done.
    + eapply (well_formed_update q q1 shs (Z.to_nat s) (fl, h, (p, m) :: lv) _ []);
        try done.
      * by rewrite Z2Nat.id by lia.
      * by intros a Ha%elem_of_nil.
      * by rewrite Z2Nat.id by lia.
      * intros a Ha. left. unfold chain in *. simpl in *.
        by rewrite <- app_assoc in Ha.
    + by destruct Hfr as (? & _).
    + apply list_lookup_insert_eq. by eapply lookup_lt_Some.
    + intros i Hi. by rewrite list_lookup_insert_ne.
Qed.

Lemma run_trace_well_formed cs vb q shs fl h lv :
  well_formed q shs →
  valid_calls (numVbuckets q) cs →
  shs !! Z.to_nat vb = Some (fl, h, lv) →
  0 ≤ vb →
  ∃ tr q' shs' fl' h' lv',
    run_trace cs vb q = Some (tr, q') ∧
    well_formed q' shs' ∧
    shs' !! Z.to_nat vb = Some (fl', h', lv') ∧
    lv.*2 ++ enqueued vb cs = tr ++ lv'.*2.
Proof.
  revert q shs fl h lv.
  induction cs as [|c cs IH]; intros q shs fl h lv Hwf Hcs Hvb Hvb0.
  - exists [], q, shs, fl, h, lv. simpl. by rewrite app_nil_r.
  - apply Forall_cons in Hcs as [Hc Hcs].
    destruct c as [s m|s]; simpl in Hc.
    + destruct (Enqueue_well_formed q shs m s Hwf Hc)
        as (q1 & fl1 & h1 & lv1 & fl1' & p & Hs & He & Hwf1).
      pose proof Hwf as [Hlen _ _ _ _ _]. pose proof Hwf1 as [Hlen1 _ _ _ _ _].
      rewrite length_insert in Hlen1.
      assert (numVbuckets q1 = numVbuckets q) as Hnum by lia.
      destruct (decide (s = vb)) as [->|Hne].
      * rewrite Hvb in Hs. simplify_eq.
        edestruct (IH q1) as (tr & q2 & shs2 & fl2 & h2 & lv2 & Hr & Hwf2 & Hl2 & Heq);
          [exact Hwf1 | by rewrite Hnum | | done |].
        { apply list_lookup_insert_eq. by eapply lookup_lt_Some. }
        exists tr, q2, shs2, fl2, h2, lv2. simpl. rewrite He. qsimpl.
        split_and!; try done.
        rewrite Z.eqb_refl. rewrite <- Heq, fmap_app. simpl.
        by rewrite <- app_assoc.
      * edestruct (IH q1) as (tr & q2 & shs2 & fl2 & h2 & lv2 & Hr & Hwf2 & Hl2 & Heq);
          [exact Hwf1 | by rewrite Hnum | | done |].
        { rewrite list_lookup_insert_ne by lia. exact Hvb. }
        exists tr, q2, shs2, fl2, h2, lv2. simpl. rewrite He. qsimpl.
        split_and!; try done.
        by rewrite (proj2 (Z.eqb_neq s vb)) by done.
    + destruct (DequeueSingleElement_step q shs s Hwf Hc)
        as (fl1 & h1 & lv1 & m & q1 & shs1 & fl1' & h1' &
            Hs & Hne1 & Hd & Hm & Hwf1 & Hnum & Hs1 & Hother).
      destruct (decide (s = vb)) as [->|Hne].
      * rewrite Hvb in Hs. simplify_eq.
        edestruct (IH q1) as (tr & q2 & shs2 & fl2 & h2 & lv2 & Hr & Hwf2 & Hl2 & Heq);
          [exact Hwf1 | by rewrite Hnum | exact Hs1 | done |].
        exists ((if bool_decide (lv1 ≠ []) then [m] else []) ++ tr), q2, shs2, fl2, h2, lv2.
        simpl. rewrite Hne1, Hd. qsimpl. rewrite Hr. qsimpl. rewrite Z.eqb_refl.
        split_and!; try done. rewrite <- app_assoc, <- Heq.
        destruct lv1 as [|[p x] lv1].
        -- by rewrite bool_decide_false by (intros Hx; by apply Hx).
        -- rewrite bool_decide_true by done.
           specialize (Hm ltac:(done)). simpl in Hm. by simplify_eq.
      * edestruct (IH q1) as (tr & q2 & shs2 & fl2 & h2 & lv2 & Hr & Hwf2 & Hl2 & Heq);
          [exact Hwf1 | by rewrite Hnum | | done |].
        { rewrite Hother by lia. exact Hvb. }
        exists tr, q2, shs2, fl2, h2, lv2.
        simpl. rewrite Hne1, Hd. qsimpl. rewrite Hr. qsimpl.
        rewrite (proj2 (Z.eqb_neq s vb)) by done.
        split_and!; try done.
Qed.

(** X27. First in, first out under any interleaving: on a new queue,
    after any sequence of Enqueue and DequeueSingleElement calls on any
    shards, the mutations that the dequeues have removed from a shard are,
    in order, the first of those enqueued on it, and the others are still
    in the queue, in the order of their enqueue. *)
Theorem fifo_under_any_interleaving N vb cs :
  0 ≤ vb < N → N < 2 ^ 16 → valid_calls N cs →
  ∃ q0 removed left q,
    NewAtomicMutationQueue N = Some q0 ∧
    run_trace cs vb q0 = Some (removed, q) ∧
    enqueued vb cs = removed ++ left ∧
    fst <$> dequeue_n (length left) vb q = Some left.
Proof.
  intros Hvb HN Hcs.
  pose proof (fresh_queue_well_formed N ltac:(lia)) as Hwf.
  edestruct (run_trace_well_formed cs vb _ _ [] (Z.to_nat vb) [] Hwf)
    as (tr & q & shs & fl & h & lv & Hrun & Hwf' & Hlook & Heq);
    [done | | lia |].
  { rewrite list_lookup_fmap, lookup_seq_lt by lia. done. }
  eexists _, tr, (lv.*2), q. split; [apply NewAtomicMutationQueue_fresh|].
  split_and!; [done | done |].
  pose proof (wf_shard _ _ Hwf' _ _ _ _ Hlook) as Hs.
  rewrite Z2Nat.id in Hs by lia.
  rewrite length_fmap. by eapply dequeue_n_contents.
Qed.

Lemma fifo_under_any_interleaving_witness :
  ∃ q0 removed left q,
    NewAtomicMutationQueue 2 = Some q0 ∧
    run_trace [CallEnqueue 1 (Some (mutation_at 1 "a")); CallDequeue 0;
               CallEnqueue 1 (Some (mutation_at 2 "b")); CallDequeue 1;
               CallEnqueue 0 None; CallEnqueue 1 (Some (mutation_at 3 "c"))] 1 q0
    = Some (removed, q) ∧
    [Some (mutation_at 1 "a"); Some (mutation_at 2 "b"); Some (mutation_at 3 "c")]
    = removed ++ left ∧
    fst <$> dequeue_n (length left) 1 q = Some left.
Proof.
  apply (fifo_under_any_interleaving 2 1
           [CallEnqueue 1 (Some (mutation_at 1 "a")); CallDequeue 0;
            CallEnqueue 1 (Some (mutation_at 2 "b")); CallDequeue 1;
            CallEnqueue 0 None; CallEnqueue 1 (Some (mutation_at 3 "c"))]).
  - lia.
  - lia.
  - repeat constructor; simpl; lia.
Defined.

End MutationQueueMore.

(** ** More facts about the snapshot info container *)
Module SnapshotLedgerMore.
Import SnapshotLedger.
Import container_list.
Import SnapshotLedgerFacts.
Import SnapshotTraversal.
Local Close Scope Z_scope.

(** *** Walking a list by Front and Next *)

Lemma next_of_absent id es : id ∉ eid <$> es → next_of id es = None.
Proof.
  induction es as [|x es IH]; [done|]. rewrite fmap_cons, not_elem_of_cons.
  intros [Hne Hid]. simpl. rewrite (proj2 (Nat.eqb_neq _ _)) by done. by apply IH.
Qed.

Lemma next_of_middle pre e post :
  NoDup (eid <$> pre ++ e :: post) →
  next_of (eid e) (pre ++ e :: post) = head post.
Proof.
  induction pre as [|x pre IH]; simpl.
  - intros _. by rewrite Nat.eqb_refl.
  - intros [Hx Hnd]%NoDup_cons.
    rewrite (proj2 (Nat.eqb_neq _ _)); [by apply IH|].
    intros Heq. apply Hx. rewrite Heq, fmap_app, fmap_cons.
    apply elem_of_app. right. by left.
Qed.

Lemma filter_absent id (es : list Element) :
  id ∉ eid <$> es → List.filter (λ x, negb (eid x =? id)) es = es.
Proof.
  induction es as [|x es IH]; [done|]. rewrite fmap_cons, not_elem_of_cons.
  intros [Hne Hid]. simpl. rewrite (proj2 (Nat.eqb_neq _ _)) by done. simpl.
  f_equal. by apply IH.
Qed.

Lemma Remove_middle pre e post fr :
  NoDup (eid <$> pre ++ e :: post) →
  Remove e {| elems := pre ++ e :: post; fresh := fr |}
  = {| elems := pre ++ post; fresh := fr |}.
Proof.
  intros Hnd. unfold Remove. simpl. f_equal.
  rewrite fmap_app, fmap_cons in Hnd.
  apply NoDup_app in Hnd as (_ & Hpre & [He _]%NoDup_cons).
  rewrite List.filter_app. simpl. rewrite Nat.eqb_refl. simpl.
  rewrite !filter_absent; [done | done |].
  intros Hin. apply (Hpre _ Hin). by left.
Qed.

Lemma List_from_elems fuel pre suf fr infos :
  NoDup (eid <$> pre ++ suf) → length suf < fuel →
  List_from fuel (head suf) {| elems := pre ++ suf; fresh := fr |} infos
  = infos ++ (Value <$> suf).
Proof.
  revert fuel pre infos. induction suf as [|e suf IH]; intros fuel pre infos Hnd Hfuel.
  - destruct fuel; simpl; by rewrite app_nil_r.
  - destruct fuel as [|fuel]; [simpl in Hfuel; lia|]. simpl.
    unfold Next. cbn [elems]. rewrite next_of_middle by done.
    replace (pre ++ e :: suf) with ((pre ++ [e]) ++ suf) in * by (by rewrite <- app_assoc).
    rewrite IH; [by rewrite <- app_assoc | done | simpl in Hfuel; lia].
Qed.

Lemma List_elems sc :
  distinct (snapshotList sc) →
  SnapshotTraversal.List sc = Value <$> elems (snapshotList sc).
Proof.
  intros [Hnd _]. destruct sc as [[es fr]]. unfold SnapshotTraversal.List, Front, Len.
  cbn [snapshotList elems]. apply (List_from_elems _ [] es fr []); [done|lia].
Qed.

Lemma NewSnapshotInfoContainer_elems infos :
  Value <$> elems (snapshotList (NewSnapshotInfoContainer infos)) = infos.
Proof.
  unfold NewSnapshotInfoContainer. cbn [snapshotList].
  assert (∀ l, Value <$> elems (fold_left (λ l info, PushBack info l) infos l)
               = (Value <$> elems l) ++ infos) as Hfold.
  { induction infos as [|i infos IH]; intros l; simpl; [by rewrite app_nil_r|].
    rewrite IH. simpl. rewrite fmap_app. simpl. by rewrite <- app_assoc. }
  by rewrite Hfold.
Qed.

(** X12. A container made from a slice of entries holds these entries in
    the order of the slice: List, which walks the list from Front by Next,
    returns them all, in that order; Len is their number and GetLatest the
    first of them (nil for an empty slice). *)
Theorem NewSnapshotInfoContainer_lists_its_entries infos :
  SnapshotTraversal.List (NewSnapshotInfoContainer infos) = infos ∧
  SnapshotLedger.Len (NewSnapshotInfoContainer infos) = length infos ∧
  GetLatest (NewSnapshotInfoContainer infos) = head infos.
Proof.
  pose proof (NewSnapshotInfoContainer_elems infos) as Hel.
  split_and!.
  - rewrite List_elems; [done|]. apply built_distinct, built_new.
  - unfold SnapshotLedger.Len, Len. by rewrite <- (length_fmap Value), Hel.
  - unfold GetLatest, Front.
    destruct (NewSnapshotInfoContainer infos) as [[es fr]]. simpl in *.
    subst infos. by destruct es.
Qed.

(** X13. Add puts the entry in front: after Add(s), List returns s and
    then the entries that were there, GetLatest returns s and Len has
    gone up by one; RemoveOldest then takes the entry at the other end
    away (s itself when the container was empty). *)
Theorem Add_puts_the_entry_in_front sc s :
  built sc →
  SnapshotTraversal.List (Add s sc) = s :: SnapshotTraversal.List sc ∧
  GetLatest (Add s sc) = Some s ∧
  SnapshotLedger.Len (Add s sc) = S (SnapshotLedger.Len sc) ∧
  SnapshotTraversal.List (RemoveOldest (Add s sc)).2
  = removelast (s :: SnapshotTraversal.List sc).
Proof.
  intros Hsc.
  pose proof (built_distinct _ Hsc) as Hd.
  pose proof (built_distinct _ (built_add s _ Hsc)) as Hd1.
  pose proof (built_distinct _ (built_remove_oldest _ (built_add s _ Hsc))) as Hd2.
  rewrite !List_elems by done. split_and!; [done..|].
  destruct Hd1 as [Hnd _]. clear Hd Hd2 Hsc.
  destruct sc as [[es fr]]. unfold RemoveOldest, Add, PushFront, Back in *.
  cbn [snapshotList elems fresh snd] in *.
  set (new := {| eid := fr; Value := s |}) in *.
  destruct es as [|e es _] using rev_ind.
  - simpl. unfold Remove. simpl. by rewrite Nat.eqb_refl.
  - rewrite app_comm_cons, last_snoc. cbn [snapshotList].
    rewrite Remove_back by done. cbn [elems].
    rewrite fmap_app, fmap_cons. simpl.
    rewrite removelast_last. by destruct (Value <$> es).
Qed.

Lemma Add_puts_the_entry_in_front_witness :
  SnapshotTraversal.List (Add (snapshot_at T3) (NewSnapshotInfoContainer [snapshot_at T2; snapshot_at T1]))
  = snapshot_at T3
    :: SnapshotTraversal.List (NewSnapshotInfoContainer [snapshot_at T2; snapshot_at T1]) ∧
  SnapshotTraversal.List
    (RemoveOldest (Add (snapshot_at T3)
                     (NewSnapshotInfoContainer [snapshot_at T2; snapshot_at T1]))).2
  = [snapshot_at T3; snapshot_at T2].
Proof.
  destruct (Add_puts_the_entry_in_front
              (NewSnapshotInfoContainer [snapshot_at T2; snapshot_at T1])
              (snapshot_at T3) (built_new _)) as (Hl & _ & _ & Hr).
  split; [exact Hl | exact Hr].
Defined.

(** *** GetEqualToTS *)

Lemma GetEqualToTS_from_find fuel pre suf fr ts :
  NoDup (eid <$> pre ++ suf) → length suf < fuel →
  GetEqualToTS_from fuel ts (head suf) {| elems := pre ++ suf; fresh := fr |}
  = List.find (λ s, Equals ts (stability s)) (Value <$> suf).
Proof.
  revert fuel pre. induction suf as [|e suf IH]; intros fuel pre Hnd Hfuel.
  - by destruct fuel.
  - destruct fuel as [|fuel]; [simpl in Hfuel; lia|]. simpl.
    unfold stability at 1.
    destruct (Equals ts (getStabilityTSFromTsVbuuid (Timestamp (Value e)))); [done|].
    unfold Next. cbn [elems]. rewrite next_of_middle by done.
    replace (pre ++ e :: suf) with ((pre ++ [e]) ++ suf) in * by (by rewrite <- app_assoc).
    apply IH; [done | simpl in Hfuel; lia].
Qed.

(** X14. GetEqualToTS returns the first entry, from the front, whose
    stability timestamp Equals that of the given timestamp, and nil when
    no entry has such a timestamp. *)
Theorem GetEqualToTS_finds_the_first_equal sc tsVbuuid :
  built sc →
  GetEqualToTS tsVbuuid sc
  = List.find (λ s, Equals (getStabilityTSFromTsVbuuid tsVbuuid) (stability s))
      (SnapshotTraversal.List sc).
Proof.
  intros Hd%built_distinct. rewrite List_elems by done. destruct Hd as [Hnd _].
  destruct sc as [[es fr]]. unfold GetEqualToTS, Front, Len.
  cbn [snapshotList elems].
  apply (GetEqualToTS_from_find _ [] es fr); [done | lia].
Qed.

Lemma GetEqualToTS_finds_the_first_equal_witness :
  GetEqualToTS T1 ledger321 = Some (snapshot_at T1) ∧
  GetEqualToTS (ts_at 15) ledger321 = None.
Proof.
  rewrite !(GetEqualToTS_finds_the_first_equal ledger321 _ (built_new _)).
  split; reflexivity.
Defined.

(** *** RemoveRecentThanTS *)

Lemma RemoveRecentThanTS_from_first fuel pre suf fr ts :
  NoDup (eid <$> pre ++ suf) → length suf < fuel →
  RemoveRecentThanTS_from fuel ts (head suf) {| elems := pre ++ suf; fresh := fr |}
  = {| elems := pre ++ without_first (λ e, GreaterThan (stability (Value e)) ts) suf;
       fresh := fr |}.
Proof.
  revert fuel pre. induction suf as [|e suf IH]; intros fuel pre Hnd Hfuel.
  - by destruct fuel.
  - destruct fuel as [|fuel]; [simpl in Hfuel; lia|]. simpl.
    unfold stability at 1.
    destruct (GreaterThan (getStabilityTSFromTsVbuuid (Timestamp (Value e))) ts).
    + rewrite Remove_middle by done. unfold Next. cbn [elems].
      rewrite next_of_absent; [by destruct fuel|].
      rewrite fmap_app, fmap_cons in Hnd.
      apply NoDup_app in Hnd as (_ & Hpre & [He _]%NoDup_cons).
      rewrite fmap_app. intros [Hin|Hin]%elem_of_app; [|done].
      apply (Hpre _ Hin). by left.
    + unfold Next. cbn [elems]. rewrite next_of_middle by done.
      replace (pre ++ e :: suf) with ((pre ++ [e]) ++ suf) in *
        by (by rewrite <- app_assoc).
      rewrite IH; [by rewrite <- app_assoc | done | simpl in Hfuel; lia].
Qed.

Lemma without_first_fmap {A B} (f : A → B) (p : B → bool) (l : list A) :
  f <$> without_first (λ x, p (f x)) l = without_first p (f <$> l).
Proof.
  induction l as [|x l IH]; [done|]. simpl.
  destruct (p (f x)); [done|]. rewrite fmap_cons. by f_equal.
Qed.

(** X15. RemoveRecentThanTS returns nil and removes one entry at most:
    the first entry, from the front, whose stability timestamp is greater
    than the given one; the entries behind it stay, those that are greater
    than the given timestamp too. *)
Theorem RemoveRecentThanTS_removes_the_first_newer sc tsVbuuid :
  built sc →
  (RemoveRecentThanTS tsVbuuid sc).1 = None ∧
  SnapshotTraversal.List (RemoveRecentThanTS tsVbuuid sc).2
  = without_first
      (λ s, GreaterThan (stability s) (getStabilityTSFromTsVbuuid tsVbuuid))
      (SnapshotTraversal.List sc).
Proof.
  intros Hsc. split; [done|].
  pose proof (built_distinct _ Hsc) as Hd.
  pose proof (built_distinct _ (built_remove_recent tsVbuuid _ Hsc)) as Hd1.
  rewrite !List_elems by done. destruct Hd as [Hnd _]. clear Hd1 Hsc.
  destruct sc as [[es fr]]. unfold RemoveRecentThanTS, Front, Len.
  cbn [snapshotList elems snd].
  rewrite (RemoveRecentThanTS_from_first _ [] es fr) by (done || lia).
  cbn [elems app].
  apply (without_first_fmap Value
           (λ s, GreaterThan (stability s) (getStabilityTSFromTsVbuuid tsVbuuid))).
Qed.

Lemma RemoveRecentThanTS_removes_the_first_newer_witness :
  (RemoveRecentThanTS T1 ledger321).1 = None ∧
  SnapshotTraversal.List (RemoveRecentThanTS T1 ledger321).2
  = [snapshot_at T2; snapshot_at T1].
Proof.
  destruct (RemoveRecentThanTS_removes_the_first_newer ledger321 T1 (built_new _))
    as [Herr Hl].
  split; [exact Herr|]. rewrite Hl. reflexivity.
Defined.

End SnapshotLedgerMore.

(** ** More facts about the KV sender *)
Module KVSenderMore.
Import KVSender KVSenderFacts KVSenderViews.
Local Close Scope Z_scope.

Section Sender.

Context `{TsVbuuidMethods}.
Variable handoff : nat → error → error.
Variable k : cluster.

(** *** Rollback, the other way round *)

Lemma updateTs_None_inv bucket l :
  is_Some (updateTs bucket None l) →
  ∃ ts, Some ts ∈ l ∧ IsEmpty ts = false ∧ GetBucket (Some ts) = bucket.
Proof.
  unfold updateTs. induction l as [|t l IH]; cbn [fold_left].
  { by intros [x Hx]. }
  unfold updateTsStep at 2. destruct t as [t|].
  - destruct (negb (IsEmpty t) && String.eqb (GetBucket (Some t)) bucket) eqn:Hc.
    + intros _. apply andb_true_iff in Hc as [He Hb].
      apply negb_true_iff in He. apply String.eqb_eq in Hb.
      exists t. split; [by left | done].
    + intros (ts & Hin & Hts)%IH. exists ts. split; [by right | done].
  - intros (ts & Hin & Hts)%IH. exists ts. split; [by right | done].
Qed.

Lemma rollStep_None_inv bucket r addrs :
  is_Some (fold_left (rollStep k bucket r) addrs None) →
  ∃ res, answered k addrs r res ∧ rollsBack bucket res.
Proof.
  induction addrs as [|addr addrs IH]; cbn [fold_left].
  { by intros [x Hx]. }
  assert ((∃ res, answered k addrs r res ∧ rollsBack bucket res) →
          ∃ res, answered k (addr :: addrs) r res ∧ rollsBack bucket res) as Hweak.
  { intros (res & (a & Hin & Ha) & Hroll). exists res. split; [|done].
    exists a. split; [by right | done]. }
  unfold rollStep at 2. destruct (stopped k r addr) eqn:Hstop.
  { intros Hs. by apply Hweak, IH. }
  destruct (sendMutationTopicRequest k r addr) as [|res] eqn:Hsend.
  { intros Hs. by apply Hweak, IH. }
  destruct (updateRollbackTsFromResponse bucket None res) as [a|] eqn:Hupd.
  - intros _. exists res. split.
    + exists addr. split; [by left | done].
    + apply updateTs_None_inv. unfold updateRollbackTsFromResponse in Hupd.
      by rewrite Hupd.
  - intros Hs. by apply Hweak, IH.
Qed.

Lemma attempts_rollback_inv bucket vbnos addrs budget r0 prev v :
  rollbackTs v = None →
  is_Some (rollbackTs (attempts handoff (openFn k bucket vbnos addrs) budget r0 prev v).2) →
  ∃ r res,
    (r0 ≤ r < r0 + length (attempts handoff (openFn k bucket vbnos addrs) budget r0 prev v).1) ∧
    answered k addrs r res ∧ rollsBack bucket res.
Proof.
  revert r0 prev v. induction budget as [|b IH]; intros r0 prev v Hv; simpl.
  { rewrite Hv. by intros [x Hx]. }
  destruct (openFn_rollback k bucket vbnos addrs r0 (handoff r0 prev) v Hv)
    as [Hroll0 Hnone].
  destruct (openFn k bucket vbnos addrs r0 (handoff r0 prev) v) as [[e|] v'];
    simpl in *.
  - assert (rollbackTs v' = None) as Hv'.
    { destruct (rollbackTs v') as [ts|] eqn:Hts; [|done].
      rewrite <- Hroll0 in Hnone. by specialize (Hnone (mk_is_Some _ _ eq_refl)). }
    specialize (IH (S r0) (Some e) v' Hv').
    destruct (attempts handoff (openFn k bucket vbnos addrs) b (S r0) (Some e) v')
      as [log v'']. simpl in *.
    intros (r & res & Hr & Hans)%IH. exists r, res. split; [lia | done].
  - rewrite Hroll0. intros (res & Hans)%rollStep_None_inv.
    exists r0, res. split; [lia | done].
Qed.

(** X16. No rollback out of nothing: when openMutationStream reports
    MsgRollback, it does so for its own stream and the bucket of the first
    index, and in one of the attempts made a producer to which a request
    was made has answered with a non-empty rollback timestamp of that
    bucket. *)
Theorem rollback_only_if_a_producer_rolled_back streamId indexInstList
    restartTs sid b ts :
  response (openMutationStream handoff k streamId indexInstList restartTs)
  = MsgRollback sid b ts →
  ∃ inst insts addrs r res,
    indexInstList = inst :: insts ∧
    getAllProjectorAddrs k = Done addrs ∧
    sid = streamId ∧ b = DefnBucket (Defn inst) ∧
    r < length (rounds (openMutationStream handoff k streamId indexInstList
                          restartTs)) ∧
    answered k addrs r res ∧ rollsBack b res.
Proof.
  unfold openMutationStream, Run.
  destruct indexInstList as [|inst insts]; [done|].
  destruct (getAllVbucketsInCluster k (DefnBucket (Defn inst))) as [|vbnos]; [done|].
  destruct (makeRestartTsForVbs k (DefnBucket (Defn inst)) restartTs vbnos)
    as [|rts]; [done|].
  destruct (getAllProjectorAddrs k) as [|addrs]; [done|].
  set (v0 := {| rollbackTs := None; activeTs := None |}).
  pose proof (attempts_rollback_inv (DefnBucket (Defn inst)) vbnos addrs
                MAX_KV_REQUEST_RETRY 0 None v0 eq_refl) as Hinv.
  destruct (attempts handoff (openFn k (DefnBucket (Defn inst)) vbnos addrs)
              MAX_KV_REQUEST_RETRY 0 None v0) as [log v].
  cbn [response rounds fst snd] in *.
  destruct (rollbackTs v) as [t|].
  - intros [= <- <- <-].
    destruct Hinv as (r & res & Hr & Hans & Hroll); [done|].
    exists inst, insts, addrs, r, res. split_and!; try done. lia.
  - by destruct (from_option snd None (last log)).
Qed.

(** *** Stop signals *)









(** *** Errors other than a missing topic *)

Lemma removeFn_keeps_other send addrs r e :
  isTopicMissing e = false →
  ∃ e', (removeFn k send addrs r (Some e) tt).1 = Some e' ∧
        isTopicMissing e' = false.
Proof.
  unfold removeFn. simpl. revert e.
  induction addrs as [|addr addrs IH]; intros e He; simpl; [by exists e|].
  unfold execWithStopCh at 2.
  destruct (stopped k r addr); [by apply IH|].
  destruct (send r addr) as [ret|]; [|by apply IH].
  destruct (isTopicMissing ret) eqn:Hret; by apply IH.
Qed.

Lemma removeFn_other_error send addrs r err :
  someOtherError k send addrs r →
  ∃ e, (removeFn k send addrs r err tt).1 = Some e ∧ isTopicMissing e = false.
Proof.
  intros (addr & ret & Hin & Hstop & Hsend & Hret). revert err.
  induction addrs as [|a addrs IH]; intros err; [by apply elem_of_nil in Hin|].
  apply elem_of_cons in Hin as [<-|Hin].
  - unfold removeFn. simpl. unfold execWithStopCh at 2.
    rewrite Hstop, Hsend, Hret.
    apply (removeFn_keeps_other send addrs r ret Hret).
  - apply (IH Hin).
Qed.

Lemma remove_other_error send addrs :
  getAllProjectorAddrs k = Done addrs →
  (∀ r, r < MAX_KV_REQUEST_RETRY → someOtherError k send addrs r) →
  length (rounds (fanOut handoff k (removeFn k send))) = MAX_KV_REQUEST_RETRY ∧
  ∃ cause, response (fanOut handoff k (removeFn k send)) = fatal cause ∧
           isTopicMissing cause = false.
Proof.
  intros Haddrs Hother.
  destruct (fanOut_Done handoff k (removeFn k send) addrs Haddrs) as [-> ->].
  destruct (attempts_all_fail handoff (removeFn k send addrs) MAX_KV_REQUEST_RETRY 0 None)
    as [Hlen Hlast].
  { intros i given Hi. rewrite Nat.add_0_l.
    destruct (removeFn_other_error send addrs i given (Hother i Hi)) as (e & He & _).
    rewrite He. by eexists. }
  split; [done|]. destruct Hlast as (given & e & Hl); [done|].
  rewrite Hl. exists e. split; [done|].
  apply last_Some in Hl as [log' Hlog].
  pose proof (attempts_lookup handoff (removeFn k send addrs) MAX_KV_REQUEST_RETRY
                0 None (length log') given (Some e)) as Hlook.
  rewrite Hlog, list_lookup_middle in Hlook by done.
  specialize (Hlook eq_refl). rewrite Nat.add_0_l in Hlook.
  destruct (removeFn_other_error send addrs (length log') given) as (e' & He' & Hgen).
  - apply Hother. rewrite <- Hlen, Hlog, length_app. simpl. lia.
  - rewrite He' in Hlook. by simplify_eq.
Qed.

(** X19. Only a missing topic is forgiven: when in every attempt of
    deleteIndexesFromStream, deleteBucketsFromStream or
    closeMutationStream a request fails with an error other than a
    missing topic, every attempt of the budget is made and the operation
    reports a Fatal MsgError whose cause is not a missing topic. *)
Theorem other_errors_fail_the_removal streamId indexInstList buckets addrs :
  getAllProjectorAddrs k = Done addrs →
  let fails send o :=
    (∀ r, r < MAX_KV_REQUEST_RETRY → someOtherError k send addrs r) →
    length (rounds o) = MAX_KV_REQUEST_RETRY ∧
    ∃ cause, response o = fatal cause ∧ isTopicMissing cause = false in
  fails (sendDelInstancesRequest k)
    (deleteIndexesFromStream handoff k streamId indexInstList) ∧
  fails (sendDelBucketsRequest k)
    (deleteBucketsFromStream handoff k streamId buckets) ∧
  fails (sendShutdownTopic k) (closeMutationStream handoff k streamId).
Proof.
  intros Haddrs. cbv zeta. split; [|split]; by apply remove_other_error.
Qed.

(** *** Coverage *)



Lemma attempts_S {V} (fn : nat → error → V → error * V) b r prev s :
  attempts handoff fn (S b) r prev s
  = match fn r (handoff r prev) s with
    | (None, s') => ([(handoff r prev, None)], s')
    | (Some e, s') =>
        let '(log, s'') := attempts handoff fn b (S r) (Some e) s' in
        ((handoff r prev, Some e) :: log, s'')
    end.
Proof. simpl. by destruct (fn r (handoff r prev) s) as [[e|] s']. Qed.


(** *** The error handed from attempt to attempt *)

Lemma remove_handed send addrs log given e :
  getAllProjectorAddrs k = Done addrs →
  rounds (fanOut handoff k (removeFn k send)) = (log ++ [(given, e)])%list →
  onlyTopicMissing k send addrs (length log) →
  e = given ∧
  response (fanOut handoff k (removeFn k send))
  = match given with Some cause => fatal cause | None => MsgSuccess end.
Proof.
  intros Haddrs Hlog Honly.
  destruct (fanOut_Done handoff k (removeFn k send) addrs Haddrs) as [Hrounds ->].
  rewrite Hrounds in Hlog.
  pose proof (attempts_lookup handoff (removeFn k send addrs) MAX_KV_REQUEST_RETRY
                0 None (length log) given e) as Hlast.
  rewrite Hlog, list_lookup_middle in Hlast by done.
  specialize (Hlast eq_refl). rewrite Nat.add_0_l in Hlast.
  rewrite removeFn_only_topic_missing in Hlast by done. subst e.
  by rewrite Hlog, last_snoc.
Qed.

(** X28. A missing topic is never the cause of a failed removal: when
    no request of the last attempt of deleteIndexesFromStream,
    deleteBucketsFromStream or closeMutationStream failed but with a
    missing topic, that attempt returned the error it was handed, and the
    operation reports MsgSuccess if it was handed none and a Fatal
    MsgError with the error it was handed otherwise. *)
Theorem removal_reports_what_its_last_attempt_was_handed streamId indexInstList
    buckets addrs :
  getAllProjectorAddrs k = Done addrs →
  let handed send o :=
    ∀ log given e,
      rounds o = (log ++ [(given, e)])%list →
      onlyTopicMissing k send addrs (length log) →
      e = given ∧
      response o
      = match given with Some cause => fatal cause | None => MsgSuccess end in
  handed (sendDelInstancesRequest k)
    (deleteIndexesFromStream handoff k streamId indexInstList) ∧
  handed (sendDelBucketsRequest k)
    (deleteBucketsFromStream handoff k streamId buckets) ∧
  handed (sendShutdownTopic k) (closeMutationStream handoff k streamId).
Proof.
  intros Haddrs. cbv zeta.
  split; [|split]; intros log given e; by apply remove_handed.
Qed.

Lemma removeFn_keeps_error send addrs r e :
  is_Some (removeFn k send addrs r (Some e) tt).1.
Proof.
  unfold removeFn. simpl. revert e.
  induction addrs as [|addr addrs IH]; intros e; simpl; [by eexists|].
  unfold execWithStopCh at 2.
  destruct (stopped k r addr); [apply IH|].
  destruct (send r addr) as [ret|]; [|apply IH].
  destruct (isTopicMissing ret); apply IH.
Qed.

Lemma attempts_stay_failed (fn : nat → error → unit → error * unit) budget r e :
  (∀ r e, is_Some (handoff r (Some e))) →
  (∀ r e, is_Some (fn r (Some e) tt).1) →
  length (attempts handoff fn budget r (Some e) tt).1 = budget ∧
  ∀ given e', last (attempts handoff fn budget r (Some e) tt).1 = Some (given, e') →
              is_Some given ∧ is_Some e'.
Proof.
  intros Hhand Hfn. revert r e.
  induction budget as [|b IH]; intros r e; [done|].
  rewrite attempts_S.
  destruct (Hhand r e) as [g Hg]. rewrite Hg.
  destruct (Hfn r g) as [e1 He1].
  destruct (fn r (Some g) tt) as [e1' []]. simpl in He1. subst e1'.
  destruct (IH (S r) e1) as [Hlen Hlast].
  destruct (attempts handoff fn b (S r) (Some e1) tt) as [log []]. simpl in *.
  split; [by rewrite Hlen|]. intros given e'.
  destruct log as [|x log]; simpl.
  - intros [= <- <-]. by split.
  - apply Hlast.
Qed.

Lemma fanOut_stays_failed fn addrs :
  getAllProjectorAddrs k = Done addrs →
  (∀ r e, is_Some (handoff r (Some e))) →
  (∀ r e, is_Some (fn addrs r (Some e) tt).1) →
  (∃ given e, head (rounds (fanOut handoff k fn)) = Some (given, Some e)) →
  length (rounds (fanOut handoff k fn)) = MAX_KV_REQUEST_RETRY ∧
  ∃ cause, response (fanOut handoff k fn) = fatal cause.
Proof.
  intros Haddrs Hhand Hfn.
  destruct (fanOut_Done handoff k fn addrs Haddrs) as [-> ->].
  unfold MAX_KV_REQUEST_RETRY. rewrite attempts_S.
  destruct (fn addrs 0 (handoff 0 None) tt) as [[e1|] []].
  2: { intros (g & e & [=]). }
  intros _.
  destruct (attempts_stay_failed (fn addrs) 2 1 e1 Hhand Hfn) as [Hlen Hlast].
  destruct (attempts handoff (fn addrs) 2 1 (Some e1) tt) as [log []].
  cbn [fst length] in *.
  split; [by rewrite Hlen|].
  destruct log as [|x log]; [done|].
  destruct (last (x :: log)) as [[g e']|] eqn:Hl.
  - destruct (Hlast g e') as [_ [c ->]]; [done|].
    rewrite last_cons, Hl. simpl. by exists c.
  - by apply last_None in Hl.
Qed.

(** X29. With a retry helper that hands an error to the attempt that
    follows a failed one, a failed first attempt is not made good: the
    closures of addIndexForExistingBucket, deleteIndexesFromStream,
    deleteBucketsFromStream and closeMutationStream return an error
    whenever they are handed one, so every attempt of the budget is made
    and the operation reports a Fatal MsgError, whatever the projectors
    answer in the later attempts. *)
Theorem a_failed_attempt_is_not_made_good streamId indexInstList buckets addrs :
  getAllProjectorAddrs k = Done addrs →
  (∀ r e, is_Some (handoff r (Some e))) →
  let lost o :=
    (∃ given e, head (rounds o) = Some (given, Some e)) →
    length (rounds o) = MAX_KV_REQUEST_RETRY ∧ ∃ cause, response o = fatal cause in
  lost (addIndexForExistingBucket handoff k streamId indexInstList) ∧
  lost (deleteIndexesFromStream handoff k streamId indexInstList) ∧
  lost (deleteBucketsFromStream handoff k streamId buckets) ∧
  lost (closeMutationStream handoff k streamId).
Proof.
  intros Haddrs Hhand. cbv zeta. split; [|split; [|split]].
  - apply (fanOut_stays_failed (addFn k) addrs); try done.
    intros r e. apply addFn_keeps_error.
  - apply (fanOut_stays_failed (removeFn k _) addrs); try done.
    intros r e. apply removeFn_keeps_error.
  - apply (fanOut_stays_failed (removeFn k _) addrs); try done.
    intros r e. apply removeFn_keeps_error.
  - apply (fanOut_stays_failed (removeFn k _) addrs); try done.
    intros r e. apply removeFn_keeps_error.
Qed.

Lemma openRequest_keeps_error bucket r addrs g v :
  ∃ g' v',
    fold_left (λ s addr, openRequest k bucket r addr s) addrs
      (@pair error openVars (Some g) v)
    = (Some g', v').
Proof.
  revert g v. induction addrs as [|addr addrs IH]; intros g v; [by eexists _, _|].
  cbn [fold_left]. unfold openRequest at 2, execWithStopCh.
  destruct (stopped k r addr); [apply IH|].
  destruct (sendMutationTopicRequest k r addr); apply IH.
Qed.

Lemma openFn_handed_error bucket vbnos addrs r g v :
  is_Some (openFn k bucket vbnos addrs r (Some g) v).1 ∨
  is_Some (rollbackTs (openFn k bucket vbnos addrs r (Some g) v).2).
Proof.
  unfold openFn.
  destruct (openRequest_keeps_error bucket r addrs g v) as (g' & v' & ->).
  destruct (rollbackTs v') as [ts|] eqn:Hts; simpl.
  - right. by rewrite Hts.
  - left. by eexists.
Qed.

Lemma attempts_open_stay_failed bucket vbnos addrs budget r e v :
  (∀ r e, is_Some (handoff r (Some e))) →
  budget ≠ O →
  let res := attempts handoff (openFn k bucket vbnos addrs) budget r (Some e) v in
  is_Some (from_option snd None (last res.1)) ∨ is_Some (rollbackTs res.2).
Proof.
  intros Hhand. revert r e v.
  induction budget as [|b IH]; intros r e v Hb; [done|]. cbv zeta.
  rewrite attempts_S. destruct (Hhand r e) as [g ->].
  pose proof (openFn_handed_error bucket vbnos addrs r g v) as Hfn.
  destruct (openFn k bucket vbnos addrs r (Some g) v) as [[e1|] v1];
    cbn [fst snd] in Hfn.
  - destruct b as [|b].
    { simpl. left. by eexists. }
    specialize (IH (S r) e1 v1 ltac:(done)). cbv zeta in IH.
    destruct (attempts handoff (openFn k bucket vbnos addrs) (S b) (S r)
                (Some e1) v1) as [log v2] eqn:Hatt.
    cbn [fst snd] in *.
    destruct log as [|x log]; [|by rewrite last_cons_cons].
    rewrite attempts_S in Hatt.
    destruct (openFn k bucket vbnos addrs (S r) (handoff (S r) (Some e1)) v1)
      as [[e2|] v3]; [|done].
    by destruct (attempts handoff (openFn k bucket vbnos addrs) b (S (S r))
                   (Some e2) v3).
  - destruct Hfn as [[? [=]]|Hfn]. by right.
Qed.

(** X30. With such a retry helper openMutationStream does not report
    MsgSuccess once its first attempt has failed: an attempt that is
    handed an error returns nil only for a rollback, so the operation
    ends with MsgRollback or with a Fatal MsgError. *)
Theorem open_does_not_succeed_after_a_failed_attempt streamId indexInstList
    restartTs given e :
  (∀ r e, is_Some (handoff r (Some e))) →
  head (rounds (openMutationStream handoff k streamId indexInstList restartTs))
  = Some (given, Some e) →
  response (openMutationStream handoff k streamId indexInstList restartTs)
  ≠ MsgSuccess.
Proof.
  intros Hhand. unfold openMutationStream, Run.
  destruct indexInstList as [|inst insts]; [done|].
  destruct (getAllVbucketsInCluster k (DefnBucket (Defn inst))) as [|vbnos];
    [done|].
  destruct (makeRestartTsForVbs k (DefnBucket (Defn inst)) restartTs vbnos);
    [done|].
  destruct (getAllProjectorAddrs k) as [|addrs]; [done|].
  unfold MAX_KV_REQUEST_RETRY. rewrite attempts_S.
  destruct (openFn k (DefnBucket (Defn inst)) vbnos addrs 0 (handoff 0 None)
              {| rollbackTs := None; activeTs := None |}) as [[e1|] v1]; [|done].
  pose proof (attempts_open_stay_failed (DefnBucket (Defn inst)) vbnos addrs
                2 1 e1 v1 Hhand ltac:(done)) as Hres. cbv zeta in Hres.
  destruct (attempts handoff (openFn k (DefnBucket (Defn inst)) vbnos addrs)
              2 1 (Some e1) v1) as [log v2] eqn:Hatt.
  cbn [fst snd rounds response] in *. intros _.
  destruct (rollbackTs v2) as [ts|]; [done|].
  destruct Hres as [Hres|[? [=]]].
  assert (log ≠ []) as Hlog.
  { intros ->. by destruct Hres. }
  destruct log as [|x log]; [done|]. rewrite last_cons_cons.
  by destruct Hres as [c ->].
Qed.

End Sender.

Lemma rollback_only_if_a_producer_rolled_back_witness :
  ∃ r res,
    r < length (rounds (openMutationStream (H := plainMethods) lastError
                          exampleCluster 0 [exampleIndex] None)) ∧
    answered exampleCluster ["a"; "b"]%string r res ∧
    rollsBack (H := plainMethods) "default" res.
Proof.
  destruct (rollback_only_if_a_producer_rolled_back (H := plainMethods) lastError
              exampleCluster 0 [exampleIndex] None 0 "default"%string
              (@ToTsVbuuid plainMethods (tsOf [0] [5])%Z 2%Z) eq_refl)
    as (inst & insts & addrs & r & res & _ & Haddrs & _ & _ & Hr & Hans & Hroll).
  injection Haddrs as <-. by exists r, res.
Defined.



Lemma other_errors_fail_the_removal_witness :
  length (rounds (closeMutationStream lastError
                    (clusterWith false halves (Some "boom"%string)) 0)) = 3 ∧
  ∃ cause,
    response (closeMutationStream lastError
                (clusterWith false halves (Some "boom"%string)) 0) = fatal cause ∧
    isTopicMissing cause = false.
Proof.
  destruct (other_errors_fail_the_removal lastError
              (clusterWith false halves (Some "boom"%string)) 0 [exampleIndex]
              ["default"%string] ["a"; "b"]%string eq_refl)
    as (_ & _ & Hclose).
  apply Hclose. intros r _. exists "a"%string, "boom"%string.
  split; [by left | by split_and!].
Defined.


Lemma removal_reports_what_its_last_attempt_was_handed_witness :
  response (closeMutationStream lastError flakyCluster 0)
  = fatal "connection refused".
Proof.
  destruct (removal_reports_what_its_last_attempt_was_handed lastError
              flakyCluster 0 [exampleIndex] ["default"%string] ["a"; "b"]%string
              eq_refl) as (_ & _ & Hclose).
  destruct (Hclose [(None, Some "connection refused"%string);
                    (Some "connection refused"%string,
                     Some "connection refused"%string)]
              (Some "connection refused"%string)
              (Some "connection refused"%string) eq_refl) as [_ Hresp].
  - intros addr ret _ _ [= <-]. reflexivity.
  - exact Hresp.
Defined.

Lemma a_failed_attempt_is_not_made_good_witness :
  length (rounds (deleteIndexesFromStream lastError flakyCluster 0
                    [exampleIndex])) = 3 ∧
  ∃ cause,
    response (deleteIndexesFromStream lastError flakyCluster 0 [exampleIndex])
    = fatal cause.
Proof.
  destruct (a_failed_attempt_is_not_made_good lastError flakyCluster 0
              [exampleIndex] ["default"%string] ["a"; "b"]%string eq_refl)
    as (_ & Hdel & _).
  - intros r e. by exists e.
  - apply Hdel. by exists None, "connection refused"%string.
Defined.

Lemma open_does_not_succeed_after_a_failed_attempt_witness :
  response (openMutationStream (H := plainMethods) lastError
              (clusterWith true halves None) 0 [exampleIndex] None)
  ≠ MsgSuccess.
Proof.
  apply (open_does_not_succeed_after_a_failed_attempt (H := plainMethods)
           lastError (clusterWith true halves None) 0 [exampleIndex] None
           None "ErrPartialVbStart"%string).
  - intros r e. by exists e.
  - reflexivity.
Defined.

End KVSenderMore.

(** ** Facts about the cluster lookups and the restart of vbuckets *)
Module KVSenderClusterFacts.
Import KVSender KVSenderCluster.
Local Close Scope Z_scope.

(** *** Lookups in the cluster info cache *)

Lemma vbuckets_of_nodes_all cinfo bucket (vbsOf : NodeId → list Z) nodes vbs :
  Forall (λ n, GetVBuckets cinfo n bucket = Done (vbsOf n)) nodes →
  vbuckets_of_nodes cinfo bucket nodes vbs
  = Done (vbs ++ concat (vbsOf <$> nodes)).
Proof.
  revert vbs. induction nodes as [|n nodes IH]; intros vbs Hall; simpl.
  { by rewrite app_nil_r. }
  apply Forall_cons in Hall as [-> Hall]. rewrite IH by done.
  by rewrite app_assoc.
Qed.

Lemma vbuckets_of_nodes_fails cinfo bucket (vbsOf : NodeId → list Z) pre n post
    err vbs :
  Forall (λ n, GetVBuckets cinfo n bucket = Done (vbsOf n)) pre →
  GetVBuckets cinfo n bucket = Failed err →
  vbuckets_of_nodes cinfo bucket (pre ++ n :: post) vbs = Failed err.
Proof.
  revert vbs. induction pre as [|x pre IH]; intros vbs Hall Hn; simpl.
  { by rewrite Hn. }
  apply Forall_cons in Hall as [-> Hall]. by apply IH.
Qed.

(** X21. getAllVbucketsInCluster returns the vbuckets of the nodes of
    the bucket, node after node (a vbucket that two nodes list comes
    twice); the first node whose vbuckets cannot be fetched fails the
    lookup with its error, and then no vbucket at all is returned. *)
Theorem getAllVbucketsInCluster_concatenates cinfo bucket nodes
    (vbsOf : NodeId → list Z) :
  Fetch cinfo = None →
  GetNodesByBucket cinfo bucket = Done nodes →
  (Forall (λ n, GetVBuckets cinfo n bucket = Done (vbsOf n)) nodes →
   getAllVbucketsInCluster cinfo bucket = Done (concat (vbsOf <$> nodes))) ∧
  (∀ pre n post err,
     nodes = pre ++ n :: post →
     Forall (λ n, GetVBuckets cinfo n bucket = Done (vbsOf n)) pre →
     GetVBuckets cinfo n bucket = Failed err →
     getAllVbucketsInCluster cinfo bucket = Failed err).
Proof.
  intros Hfetch Hnodes. unfold getAllVbucketsInCluster. rewrite Hfetch, Hnodes.
  split.
  - intros Hall. by erewrite vbuckets_of_nodes_all.
  - intros pre n post err -> Hpre Hn. by eapply vbuckets_of_nodes_fails.
Qed.

Lemma proj_addrs_of_nodes_filter cinfo bucket vbnos
    (vbsOf : NodeId → list Z) (addrOf : NodeId → string) nodes addrList :
  Forall (λ n, GetVBuckets cinfo n bucket = Done (vbsOf n)) nodes →
  Forall (λ n, found (vbsOf n) vbnos = true →
               GetServiceAddress cinfo n "projector" = Done (addrOf n)) nodes →
  proj_addrs_of_nodes cinfo bucket vbnos nodes addrList
  = Done (addrList
          ++ (addrOf <$> List.filter (λ n, found (vbsOf n) vbnos) nodes))%list.
Proof.
  revert addrList. induction nodes as [|n nodes IH]; intros addrList Hvbs Haddr; simpl.
  { by rewrite app_nil_r. }
  apply Forall_cons in Hvbs as [-> Hvbs]. apply Forall_cons in Haddr as [Hn Haddr].
  destruct (found (vbsOf n) vbnos) eqn:Hfound.
  - rewrite Hn by done. rewrite IH by done. simpl. by rewrite <- app_assoc.
  - by apply IH.
Qed.

Lemma found_spec vbs vbnos : found vbs vbnos = true ↔ ∃ vb, vb ∈ vbs ∧ vb ∈ vbnos.
Proof.
  unfold found. rewrite existsb_exists. split.
  - intros (vb & Hin & (vbc & Hin' & Heq%Z.eqb_eq)%existsb_exists). subst vbc.
    exists vb. by rewrite !list_elem_of_In.
  - intros (vb & Hin & Hin'). exists vb. rewrite <- list_elem_of_In.
    split; [done|]. apply existsb_exists. exists vb.
    rewrite <- list_elem_of_In. split; [done | by apply Z.eqb_eq].
Qed.

Lemma found_nil vbs : found vbs [] = false.
Proof. unfold found. by induction vbs. Qed.

(** X22. getProjAddrsForVbuckets returns, in the order of the projector
    nodes, the addresses of those nodes that hold one at least of the
    given vbuckets; the address of a node that holds none of them is not
    looked up; for an empty list of vbuckets the list of addresses is
    empty. *)
Theorem getProjAddrsForVbuckets_filters cinfo bucket vbnos
    (vbsOf : NodeId → list Z) (addrOf : NodeId → string) :
  Fetch cinfo = None →
  Forall (λ n, GetVBuckets cinfo n bucket = Done (vbsOf n))
    (GetNodesByServiceType cinfo "projector") →
  Forall (λ n, (∃ vb, vb ∈ vbsOf n ∧ vb ∈ vbnos) →
               GetServiceAddress cinfo n "projector" = Done (addrOf n))
    (GetNodesByServiceType cinfo "projector") →
  getProjAddrsForVbuckets cinfo bucket vbnos
  = Done (addrOf <$> List.filter (λ n, found (vbsOf n) vbnos)
                       (GetNodesByServiceType cinfo "projector")) ∧
  (∀ addr, addr ∈ (addrOf <$> List.filter (λ n, found (vbsOf n) vbnos)
                                (GetNodesByServiceType cinfo "projector")) ↔
           ∃ n vb, n ∈ GetNodesByServiceType cinfo "projector" ∧
                   vb ∈ vbsOf n ∧ vb ∈ vbnos ∧ addr = addrOf n) ∧
  (vbnos = [] → getProjAddrsForVbuckets cinfo bucket vbnos = Done []).
Proof.
  intros Hfetch Hvbs Haddr.
  assert (getProjAddrsForVbuckets cinfo bucket vbnos
          = Done (addrOf <$> List.filter (λ n, found (vbsOf n) vbnos)
                               (GetNodesByServiceType cinfo "projector"))) as Hres.
  { unfold getProjAddrsForVbuckets. rewrite Hfetch.
    rewrite (proj_addrs_of_nodes_filter cinfo bucket vbnos vbsOf addrOf); [done..|].
    eapply Forall_impl; [exact Haddr|]. intros n Hn Hf. by apply Hn, found_spec. }
  split_and!; [done | |].
  - intros addr. rewrite list_elem_of_fmap. split.
    + intros (n & -> & Hin). apply list_elem_of_In, filter_In in Hin as [Hin Hf].
      apply found_spec in Hf as (vb & Hvb & Hvb').
      exists n, vb. by rewrite list_elem_of_In.
    + intros (n & vb & Hin & Hvb & Hvb' & ->). exists n. split; [done|].
      apply list_elem_of_In, filter_In. split; [by apply list_elem_of_In|].
      apply found_spec. eauto.
  - intros ->. rewrite Hres. f_equal.
    assert (∀ ns, List.filter (λ n, found (vbsOf n) []) ns = []) as ->; [|done].
    intros ns. induction ns as [|n ns IH]; [done|].
    cbn [List.filter]. by rewrite found_nil.
Qed.

Lemma getAllVbucketsInCluster_concatenates_witness :
  getAllVbucketsInCluster exampleCache "default" = Done [0; 1; 2; 3]%Z.
Proof.
  apply (proj1 (getAllVbucketsInCluster_concatenates exampleCache "default" [1; 2]%Z
                  (λ n, if (n =? 1)%Z then [0; 1]%Z else [2; 3]%Z)
                  eq_refl eq_refl)).
  repeat constructor.
Defined.

Lemma getProjAddrsForVbuckets_filters_witness :
  getProjAddrsForVbuckets exampleCache "default" [3]%Z = Done ["b"%string].
Proof.
  apply (getProjAddrsForVbuckets_filters exampleCache "default" [3]%Z
           (λ n, if (n =? 1)%Z then [0; 1]%Z else if (n =? 2)%Z then [2; 3]%Z else [])
           (λ n, if (n =? 1)%Z then "a" else if (n =? 2)%Z then "b" else "c")%string).
  - reflexivity.
  - repeat constructor.
  - repeat constructor.
Defined.

(** *** getFailoverLogs *)

Section FailoverLogs.

Context {FailoverLogResponse : Type}.
Variable GetFailoverLogs : string → option FailoverLogResponse * error.

Lemma failover_loop_failed pre rest res err asked :
  Forall (λ x, is_Some (GetFailoverLogs x).2) pre →
  failover_loop GetFailoverLogs (pre ++ rest) res err asked
  = failover_loop GetFailoverLogs rest
      (from_option (λ x, (GetFailoverLogs x).1) res (last pre))
      (from_option (λ x, (GetFailoverLogs x).2) err (last pre))
      (asked ++ pre).
Proof.
  revert res err asked. induction pre as [|x pre IH]; intros res err asked Hpre.
  { by rewrite app_nil_r. }
  apply Forall_cons in Hpre as [[e He] Hpre]. simpl.
  destruct (GetFailoverLogs x) as [res' err'] eqn:Hx. simpl in He. subst err'.
  rewrite IH by done. rewrite <- app_assoc.
  destruct pre as [|y pre']; [simpl; by rewrite Hx|].
  cbn [app]. rewrite last_cons_cons.
  destruct (last (y :: pre')) as [z|] eqn:Hl; [done|].
  by apply last_None in Hl.
Qed.

(** X23. getFailoverLogs asks the projectors in turn until one answers
    without error: it returns that answer, and no projector behind it is
    asked; when every projector fails it returns what the last one
    returned, its error included; when there is no projector it returns
    nil and no error. *)
Theorem getFailoverLogs_asks_until_one_answers cinfo addrs :
  getAllProjectorAddrs cinfo = Done addrs →
  (addrs = [] → getFailoverLogs GetFailoverLogs cinfo = (None, None, [])) ∧
  (∀ pre a post res,
     addrs = pre ++ a :: post →
     Forall (λ x, is_Some (GetFailoverLogs x).2) pre →
     GetFailoverLogs a = (res, None) →
     getFailoverLogs GetFailoverLogs cinfo = (res, None, pre ++ [a])) ∧
  (∀ pre a,
     addrs = pre ++ [a] →
     Forall (λ x, is_Some (GetFailoverLogs x).2) addrs →
     getFailoverLogs GetFailoverLogs cinfo
     = ((GetFailoverLogs a).1, (GetFailoverLogs a).2, addrs)).
Proof.
  intros Haddrs. unfold getFailoverLogs. rewrite Haddrs. split_and!.
  - by intros ->.
  - intros pre a post res -> Hpre Ha.
    rewrite failover_loop_failed by done. simpl. by rewrite Ha.
  - intros pre a -> Hall.
    rewrite <- (app_nil_r (pre ++ [a])) at 1.
    rewrite failover_loop_failed by done. simpl. by rewrite last_snoc.
Qed.

End FailoverLogs.

Lemma getFailoverLogs_asks_until_one_answers_witness :
  getFailoverLogs (λ addr, if String.eqb addr "b" then (Some 7%Z, None)
                           else (None, Some "down"%string))
    exampleCache
  = (Some 7%Z, None, ["a"; "b"]%string).
Proof.
  destruct (getFailoverLogs_asks_until_one_answers
              (λ addr, if String.eqb addr "b" then (Some 7%Z, None)
                       else (None, Some "down"%string))
              exampleCache ["a"; "b"; "c"]%string eq_refl)
    as (_ & Hfirst & _).
  apply (Hfirst ["a"%string] "b"%string ["c"%string] (Some 7%Z) eq_refl).
  - repeat constructor. by eexists.
  - reflexivity.
Defined.

(** *** compareIfActiveTsEqual *)

Lemma compare_from_drop i vbnosOrig vbnosComp :
  compare_from i vbnosOrig vbnosComp = compare_from 0 vbnosOrig (drop i vbnosComp).
Proof.
  revert i vbnosComp. induction vbnosOrig as [|vb orig IH]; intros i comp; [done|].
  simpl. rewrite lookup_drop, Nat.add_0_r.
  destruct (comp !! i) as [c|]; [|done]. simpl.
  destruct (decide (c ≠ vb)); [done|].
  rewrite (IH (S i) comp), (IH 1 (drop i comp)). by rewrite drop_drop, Nat.add_1_r.
Qed.

Lemma compare_from_prefix vbnosOrig vbnosComp :
  (compare_from 0 vbnosOrig vbnosComp = Some true ↔
   vbnosOrig `prefix_of` vbnosComp) ∧
  (compare_from 0 vbnosOrig vbnosComp = None ↔
   vbnosComp `prefix_of` vbnosOrig ∧ length vbnosComp < length vbnosOrig).
Proof.
  revert vbnosComp. induction vbnosOrig as [|vb orig IH]; intros comp.
  - simpl. split; [split; [intros _; apply prefix_nil | done]|].
    split; [done | intros [_ ?]; lia].
  - destruct comp as [|c comp]; simpl.
    + split; [split; [done | by intros ?%prefix_nil_not]|].
      split; [intros _; split; [apply prefix_nil | lia] | done].
    + destruct (decide (c ≠ vb)) as [Hne|Heq].
      * split; split; try done.
        -- intros Hp. by apply prefix_cons_inv_1 in Hp.
        -- intros [Hp _]. by apply prefix_cons_inv_1 in Hp.
      * apply dec_stable in Heq. subst c.
        rewrite compare_from_drop. simpl. rewrite drop_0.
        destruct (IH comp) as [IH1 IH2]. split.
        -- rewrite IH1. split; [apply prefix_cons | apply prefix_cons_inv_2].
        -- rewrite IH2. split.
           ++ intros [Hp Hl]. split; [by apply prefix_cons | lia].
           ++ intros [Hp Hl]. split; [by apply prefix_cons_inv_2 in Hp | lia].
Qed.

Section Compare.

Variable GetVbnos16 : Common.TsVbuuid → list Z.

(** X24. compareIfActiveTsEqual is no test of equality: it returns true
    exactly when the vbuckets of the first timestamp are the first
    vbuckets of the second one (for a first timestamp without vbuckets,
    always), and it panics, on an index out of range, exactly when the
    second timestamp has fewer vbuckets than the first and these are the
    first vbuckets of the first. *)
Theorem compareIfActiveTsEqual_tests_a_prefix origTs compTs :
  (compareIfActiveTsEqual GetVbnos16 origTs compTs = Some true ↔
   GetVbnos16 origTs `prefix_of` GetVbnos16 compTs) ∧
  (compareIfActiveTsEqual GetVbnos16 origTs compTs = None ↔
   GetVbnos16 compTs `prefix_of` GetVbnos16 origTs ∧
   length (GetVbnos16 compTs) < length (GetVbnos16 origTs)).
Proof. apply compare_from_prefix. Qed.

End Compare.

(** *** restartVbuckets *)

Section Restart.

Context `{TsVbuuidMethods}.
Variable handoff : nat → error → error.
Variable cinfo : ClusterInfoCache.
Variable numVbuckets : Z.
Variable GetVbnos16 : Common.TsVbuuid → list Z.
Variable FromTsVbuuid : Common.TsVbuuid → Z → option TsVbuuid.
Variable Contains : TsVbuuid → Z → bool.
Variable ShutdownVbuckets : nat → string → error.
Variable RestartVbuckets : nat → string → result TopicResponse.

Local Notation sendRestartVbuckets := (sendRestartVbuckets ShutdownVbuckets RestartVbuckets).
Local Notation restartRequest := (restartRequest ShutdownVbuckets RestartVbuckets).
Local Notation restartFn := (restartFn Contains ShutdownVbuckets RestartVbuckets).
Local Notation restartUnion := (restartUnion ShutdownVbuckets RestartVbuckets).
Local Notation restartVbuckets :=
  (restartVbuckets handoff cinfo numVbuckets GetVbnos16 FromTsVbuuid Contains
     ShutdownVbuckets RestartVbuckets).

Lemma sendRestartVbuckets_restart r addr :
  sendRestartVbuckets r addr = RestartVbuckets r addr.
Proof. unfold KVSenderCluster.sendRestartVbuckets. by destruct (ShutdownVbuckets r addr). Qed.

(** The rollback timestamp of a round does not depend on the error. *)
Lemma restartRequest_rollback bucket r addrs err rts :
  (fold_left (restartRequest bucket r) addrs (err, rts)).2
  = (fold_left (restartRequest bucket r) addrs (None, rts)).2.
Proof.
  revert err rts. generalize (@None string).
  induction addrs as [|addr addrs IH]; intros e0 err rts; [done|]. simpl.
  rewrite sendRestartVbuckets_restart.
  destruct (RestartVbuckets r addr) as [ret|res]; apply IH.
Qed.

Lemma restartRequest_no_rollback bucket r addrs err :
  (∀ addr res, addr ∈ addrs → RestartVbuckets r addr = Done res →
               ¬ rollsBack bucket res) →
  (fold_left (restartRequest bucket r) addrs (err, None)).2 = None.
Proof.
  revert err. induction addrs as [|addr addrs IH]; intros err Hno; [done|]. simpl.
  rewrite sendRestartVbuckets_restart.
  assert (∀ a res, a ∈ addrs → RestartVbuckets r a = Done res →
                   ¬ rollsBack bucket res) as Hno'.
  { intros a res Ha. apply Hno. by right. }
  destruct (RestartVbuckets r addr) as [ret|res] eqn:Hsend; [by apply IH|].
  assert (updateRollbackTsFromResponse bucket None res = None) as ->.
  { destruct (updateRollbackTsFromResponse bucket None res) as [a|] eqn:Hupd; [|done].
    destruct (Hno addr res ltac:(by left) Hsend).
    apply KVSenderMore.updateTs_None_inv. unfold updateRollbackTsFromResponse in Hupd.
    by rewrite Hupd. }
  by apply IH.
Qed.

Lemma restartRequest_last_fails bucket r pre a ret s :
  RestartVbuckets r a = Failed ret →
  (fold_left (restartRequest bucket r) (pre ++ [a]) s).1 = Some ret.
Proof.
  intros Ha. rewrite fold_left_app. simpl.
  destruct (fold_left (restartRequest bucket r) pre s) as [err rts]. simpl.
  by rewrite sendRestartVbuckets_restart, Ha.
Qed.

Lemma attempts_same_failure {V} (fn : nat → error → V → error * V) e0 v0
    budget r0 prev :
  (∀ r given, r0 ≤ r < r0 + budget → fn r given v0 = (Some e0, v0)) →
  (attempts handoff fn budget r0 prev v0).2 = v0 ∧
  length (attempts handoff fn budget r0 prev v0).1 = budget ∧
  (budget ≠ 0 →
   from_option snd None (last (attempts handoff fn budget r0 prev v0).1) = Some e0).
Proof.
  revert r0 prev. induction budget as [|b IH]; intros r0 prev Hfn; simpl; [done|].
  rewrite Hfn by lia.
  destruct (IH (S r0) (Some e0)) as (Hv & Hlen & Hlast).
  { intros r given Hr. apply Hfn. lia. }
  destruct (attempts handoff fn b (S r0) (Some e0) v0) as [log v]. simpl in *.
  split_and!; [done | by rewrite Hlen |]. intros _.
  destruct b as [|b].
  - by destruct log.
  - rewrite <- Hlast by done. by destruct log.
Qed.

(** X25. A missing topic asks for a repair: when, in every attempt, the
    restart request to the last projector fails with a missing topic and
    no projector answers with a rollback timestamp of the bucket,
    restartVbuckets uses up its attempts and reports MsgKVStreamRepair
    for the stream and the bucket, not a Fatal MsgError. *)
Theorem restart_with_a_missing_topic_asks_for_repair streamId restartTs pre a :
  getProjAddrsForVbuckets cinfo (Common.Bucket restartTs) (GetVbnos16 restartTs)
  = Done (pre ++ [a]) →
  (∀ r, r < MAX_KV_REQUEST_RETRY →
        RestartVbuckets r a = Failed ErrorTopicMissing) →
  (∀ r addr res, r < MAX_KV_REQUEST_RETRY → addr ∈ pre ++ [a] →
                 RestartVbuckets r addr = Done res →
                 ¬ rollsBack (Common.Bucket restartTs) res) →
  ∃ log,
    restartVbuckets streamId restartTs
    = Some {| response := MsgKVStreamRepair streamId (Common.Bucket restartTs);
              rounds := log |} ∧
    length log = MAX_KV_REQUEST_RETRY.
Proof.
  intros Haddrs Hmissing Hno. unfold KVSenderCluster.restartVbuckets, Run.
  rewrite Haddrs.
  set (v0 := {| restartRollbackTs := None; rollback := false |}).
  set (fn := restartFn (Common.Bucket restartTs)
               (FromTsVbuuid restartTs numVbuckets) (pre ++ [a])).
  destruct (attempts_same_failure fn ErrorTopicMissing v0 MAX_KV_REQUEST_RETRY 0 None)
    as (Hv & Hlen & Hlast).
  { intros r given Hr. unfold fn, v0, KVSenderCluster.restartFn.
    cbn [restartRollbackTs rollback].
    pose proof (restartRequest_no_rollback (Common.Bucket restartTs) r (pre ++ [a])
                  given (λ addr res, Hno r addr res ltac:(lia))) as Hroll.
    pose proof (restartRequest_last_fails (Common.Bucket restartTs) r pre a
                  ErrorTopicMissing (given, None) (Hmissing r ltac:(lia))) as Herr.
    destruct (fold_left _ (pre ++ [a]) (given, None)) as [err rts].
    simpl in Hroll, Herr. by subst rts err. }
  destruct (attempts handoff fn MAX_KV_REQUEST_RETRY 0 None v0) as [log v].
  simpl in Hv, Hlen, Hlast. subst v. rewrite Hlast by done. cbn [rollback].
  exists log. split; [done|]. done.
Qed.

Lemma restartFn_eq bucket proto addrs r err v :
  restartFn bucket proto addrs r err v
  = let s := fold_left (restartRequest bucket r) addrs (err, restartRollbackTs v) in
    match s.2 with
    | Some ts =>
        if checkVbListInTS Contains (GetVbnos proto) ts
        then (None, {| restartRollbackTs := s.2; rollback := true |})
        else (s.1, {| restartRollbackTs := s.2; rollback := rollback v |})
    | None => (s.1, {| restartRollbackTs := s.2; rollback := rollback v |})
    end.
Proof.
  unfold KVSenderCluster.restartFn. cbv zeta.
  by destruct (fold_left _ addrs (err, restartRollbackTs v)) as [e [ts|]].
Qed.

(** X26. A rollback is reported for the vbuckets asked for only: when the
    answers of the first attempt add up to a rollback timestamp of the
    bucket that contains one of the vbuckets of the restart timestamp,
    restartVbuckets makes no second attempt and reports MsgRollback with
    that timestamp and no bucket name, whatever requests failed; when the
    timestamp contains none of them, no request fails and the attempt was
    handed no error, it reports MsgSuccess. *)
Theorem restart_reports_the_rollback_of_its_vbuckets streamId restartTs addrs ts :
  getProjAddrsForVbuckets cinfo (Common.Bucket restartTs) (GetVbnos16 restartTs)
  = Done addrs →
  restartUnion (Common.Bucket restartTs) addrs 0 = Some ts →
  let asked_for :=
    checkVbListInTS Contains (GetVbnos (FromTsVbuuid restartTs numVbuckets)) ts in
  (asked_for = true →
   restartVbuckets streamId restartTs
   = Some {| response := MsgRollback streamId "" (ToTsVbuuid ts numVbuckets);
             rounds := [(handoff 0 None, None)] |}) ∧
  (asked_for = false → handoff 0 None = None →
   (∀ addr ret, addr ∈ addrs → RestartVbuckets 0 addr ≠ Failed ret) →
   restartVbuckets streamId restartTs
   = Some {| response := MsgSuccess; rounds := [(None, None)] |}).
Proof.
  intros Haddrs Hunion asked_for. subst asked_for.
  unfold KVSenderCluster.restartVbuckets, Run. rewrite Haddrs.
  unfold MAX_KV_REQUEST_RETRY. rewrite KVSenderMore.attempts_S.
  rewrite restartFn_eq. cbn [restartRollbackTs rollback].
  unfold KVSenderCluster.restartUnion in Hunion.
  rewrite restartRequest_rollback, Hunion. split.
  - intros Hasked. by rewrite Hasked.
  - intros Hasked Hhand Hnone. rewrite Hasked, Hhand.
    match goal with
    | |- context [fst ?t] => assert (fst t = None) as ->; [|done]
    end.
    clear Hunion Haddrs. generalize (@None TsVbuuid).
    induction addrs as [|addr addrs IH]; intros rts; [done|]. simpl.
    rewrite sendRestartVbuckets_restart.
    destruct (RestartVbuckets 0 addr) as [ret|res] eqn:Hsend.
    + by destruct (Hnone addr ret ltac:(by left)).
    + apply IH. intros a ret Ha. apply Hnone. by right.
Qed.

End Restart.

Lemma restart_with_a_missing_topic_asks_for_repair_witness :
  ∃ log,
    exampleRestart (Failed ErrorTopicMissing)
    = Some {| response := MsgKVStreamRepair 0 "default"; rounds := log |} ∧
    length log = 3.
Proof.
  apply (restart_with_a_missing_topic_asks_for_repair (H := plainMethods)
           lastError exampleCache 2 (λ _, [0; 1]%Z)
           (λ _ _, Some (tsOf [0; 1] [0; 0])%Z) listsVb
           (λ _ _, Some "busy"%string) (λ _ _, Failed ErrorTopicMissing)
           0 exampleRestartTs [] "a"%string).
  - reflexivity.
  - reflexivity.
  - intros r addr res _ _ [=].
Defined.

Lemma restart_reports_the_rollback_of_its_vbuckets_witness :
  exampleRestart
    (Done {| GetActiveTimestamps := [];
             GetRollbackTimestamps := [Some (tsOf [0] [5])%Z] |})
  = Some {| response :=
              MsgRollback 0 "" (@ToTsVbuuid plainMethods (tsOf [0] [5])%Z 2%Z);
            rounds := [(None, None)] |}.
Proof.
  apply (proj1 (restart_reports_the_rollback_of_its_vbuckets (H := plainMethods)
                  lastError exampleCache 2 (λ _, [0; 1]%Z)
                  (λ _ _, Some (tsOf [0; 1] [0; 0])%Z) listsVb
                  (λ _ _, Some "busy"%string)
                  (λ _ _, Done {| GetActiveTimestamps := [];
                                  GetRollbackTimestamps := [Some (tsOf [0] [5])%Z] |})
                  0 exampleRestartTs ["a"%string] (tsOf [0] [5])%Z
                  eq_refl eq_refl)).
  reflexivity.
Defined.

End KVSenderClusterFacts.
